(** * RandomGen: a weighted discrete sampler

    Shallow embedding of [random_gen/random_gen.py].  Python floats are IEEE-754
    binary64 numbers, modelled by [spec_float] at precision 53 and maximal
    exponent 1024; Python integers are [Z]; the instance attributes of a
    [RandomGen] object are a record threaded through a state-and-exception
    monad, so that a raise in the middle of a method leaves the fields written
    so far visible. *)

From Stdlib Require Import ZArith Lia Bool String.
From Stdlib Require Import Floats.SpecFloat.
From Equations Require Import Equations.
From stdpp Require Import base tactics option list gmap.

Local Open Scope Z_scope.

(** ** Binary64 floats *)

Definition prec : Z := 53.
Definition emax : Z := 1024.

Definition float : Type := spec_float.

Definition fzero : float := S754_zero false.
Definition fone : float := SFone prec emax.

Definition flt (x y : float) : bool := SFltb x y.
Definition fle (x y : float) : bool := SFleb x y.
Definition feq (x y : float) : bool := SFeqb x y.

Definition isnan (x : float) : bool :=
  match x with S754_nan => true | _ => false end.

Definition isinf (x : float) : bool :=
  match x with S754_infinity _ => true | _ => false end.

Definition isfinite (x : float) : bool :=
  match x with S754_zero _ | S754_finite _ _ _ => true | _ => false end.

(** The float nearest to the integer [m * 2^e] (round to nearest, ties to
    even): how a dyadic literal such as [0.75] is read. *)
Definition dyadic (m e : Z) : float := binary_normalize prec emax m e false.

(** ** Exceptions and outcomes *)

Inductive exn : Type :=
| ValueError (msg : string)
| OverflowError
| ZeroDivisionError
| AttributeError
| IndexError.

Inductive outcome (A : Type) : Type :=
| Returned (a : A)
| Raised (e : exn).
Arguments Returned {A} a.
Arguments Raised {A} e.

Definition is_ValueError {A} (o : outcome A) : Prop :=
  exists msg, o = Raised (ValueError msg).

Fixpoint mapM {A B} (f : A -> outcome B) (l : list A) : outcome (list B) :=
  match l with
  | [] => Returned []
  | x :: l' =>
      match f x with
      | Raised e => Raised e
      | Returned y =>
          match mapM f l' with
          | Raised e => Raised e
          | Returned ys => Returned (y :: ys)
          end
      end
  end.

(** ** Built-ins used by the class *)

(** [len(l)]. *)
Definition len {A} (l : list A) : Z := Z.of_nat (length l).

(** [l[i]] for a list: a negative index counts from the end, an index out of
    range raises [IndexError]. *)
Definition getitem {A} (l : list A) (i : Z) : outcome A :=
  let j := if i <? 0 then i + len l else i in
  if (0 <=? j) && (j <? len l) then
    match l !! Z.to_nat j with
    | Some x => Returned x
    | None => Raised IndexError
    end
  else Raised IndexError.

(** [a / b] on two non-negative integers: the correctly rounded quotient. *)
Definition truediv (a b : Z) : outcome float :=
  if b =? 0 then Raised ZeroDivisionError
  else if a =? 0 then Returned fzero
  else
    let '(q, e, l) := SFdiv_core_binary prec emax a 0 b 0 in
    Returned (binary_round_aux prec emax false q e l).

(** *** [math.fsum]

    The algorithm of CPython's [math.fsum]: the sum so far is kept exactly, as
    a list [partials] of floats that do not overlap, in increasing magnitude.
    Every summand is added to the partial sums in turn, each addition leaving
    its rounded sum and its rounding error; the errors that are not zero and
    the last sum are the new partial sums.  A finite summand that takes a
    rounded sum out of the finite range raises [OverflowError]; a summand that
    is infinite or NaN goes to [special_sum] (and an infinite one to
    [inf_sum]) and discards the partial sums so far.  At the end the partial
    sums are added from the largest down and the result is rounded half to
    even. *)

(** The mantissa of a float with its sign. *)
Definition signed (s : bool) (m : positive) : Z :=
  if s then Z.neg m else Z.pos m.

Definition fadd (x y : float) : float := SFadd prec emax x y.
Definition fsub (x y : float) : float := SFsub prec emax x y.
Definition fmul (x y : float) : float := SFmul prec emax x y.
Definition fabs (x : float) : float := SFabs x.

(** [2.0]. *)
Definition ftwo : float := S754_finite false 4503599627370496 (-51).

(** The sum of [x] and [y] rounded, and the rounding error; the larger of
    the two in absolute value comes first. *)
Definition two_sum (x y : float) : float * float :=
  let '(x, y) := if flt (fabs x) (fabs y) then (y, x) else (x, y) in
  let hi := fadd x y in
  let yr := fsub hi x in
  let lo := fsub y yr in
  (hi, lo).

(** One pass over the partial sums with the summand [x]: the rounding
    errors that are not zero stay in the list, the rounded sum goes on. *)
Fixpoint fsum_partials (partials : list float) (x : float) : list float * float :=
  match partials with
  | [] => ([], x)
  | y :: partials' =>
      let '(hi, lo) := two_sum x y in
      let '(out, x') := fsum_partials partials' hi in
      (if negb (feq lo fzero) then lo :: out else out, x')
  end.

Record fsum_state : Type := mk_fsum_state {
  partials : list float;
  special_sum : float;
  inf_sum : float
}.

Definition fsum_init : fsum_state := mk_fsum_state [] fzero fzero.

Definition fsum_step (st : fsum_state) (xsave : float) : outcome fsum_state :=
  let '(out, x) := fsum_partials (partials st) xsave in
  if negb (feq x fzero) then
    if negb (isfinite x) then
      if isfinite xsave then Raised OverflowError
      else
        Returned (mk_fsum_state []
                    (fadd (special_sum st) xsave)
                    (if isinf xsave then fadd (inf_sum st) xsave else inf_sum st))
    else Returned (mk_fsum_state (out ++ [x]) (special_sum st) (inf_sum st))
  else Returned (mk_fsum_state out (special_sum st) (inf_sum st)).

Fixpoint fsum_loop (xs : list float) (st : fsum_state) : outcome fsum_state :=
  match xs with
  | [] => Returned st
  | x :: xs' =>
      match fsum_step st x with
      | Raised e => Raised e
      | Returned st' => fsum_loop xs' st'
      end
  end.

(** The partial sums are added from the largest down, until an addition is
    not exact. *)
Fixpoint fsum_top (hi : float) (below : list float) : float * float * list float :=
  match below with
  | [] => (hi, fzero, [])
  | y :: below' =>
      let x := hi in
      let hi := fadd x y in
      let yr := fsub hi x in
      let lo := fsub y yr in
      if negb (feq lo fzero) then (hi, lo, below') else fsum_top hi below'
  end.

Definition fsum_round (ps : list float) : float :=
  match rev ps with
  | [] => fzero
  | top :: below =>
      let '(hi, lo, rest) := fsum_top top below in
      match rest with
      | [] => hi
      | p :: _ =>
          if (flt lo fzero && flt p fzero) || (flt fzero lo && flt fzero p) then
            let y := fmul lo ftwo in
            let x := fadd hi y in
            let yr := fsub x hi in
            if feq y yr then x else hi
          else hi
      end
  end.

Definition fsum_finish (st : fsum_state) : outcome float :=
  if negb (feq (special_sum st) fzero) then
    if isnan (inf_sum st) then Raised (ValueError "-inf + inf in fsum")
    else Returned (special_sum st)
  else Returned (fsum_round (partials st)).

Definition fsum (xs : list float) : outcome float :=
  match fsum_loop xs fsum_init with
  | Raised e => Raised e
  | Returned st => fsum_finish st
  end.

(** *** [math.isclose(a, b)] with the default [rel_tol=1e-09], [abs_tol=0.0] *)

Definition rel_tol : float :=
  match truediv 1 1000000000 with
  | Returned x => x
  | Raised _ => S754_nan
  end.

Definition abs_tol : float := fzero.

Definition isclose (a b : float) : bool :=
  if feq a b then true
  else if isinf a || isinf b then false
  else
    let diff := SFabs (SFsub prec emax b a) in
    fle diff (SFabs (SFmul prec emax rel_tol b))
    || fle diff (SFabs (SFmul prec emax rel_tol a))
    || fle diff abs_tol.

(** ** The binary search of [_find_index]

    [left] and [right] are Python integers; the loop runs while
    [left < right], and the measure [right - left] decreases at every
    iteration. *)

Equations? bisect_loop (cum : list float) (rand_num : float) (left_ right_ : Z)
  : outcome Z by wf (Z.to_nat (right_ - left_)) lt :=
  bisect_loop cum rand_num left_ right_ with Z_lt_dec left_ right_ => {
    | left _ =>
        let mid := left_ + (right_ - left_) / 2 in
        match getitem cum mid with
        | Raised e => Raised e
        | Returned c =>
            if flt c rand_num
            then bisect_loop cum rand_num (mid + 1) right_
            else bisect_loop cum rand_num left_ mid
        end
    | right _ => Returned left_ }.
Proof.
  all: subst mid.
  - assert (0 <= (right_ - left_) / 2) by (apply Z.div_pos; lia). lia.
  - assert ((right_ - left_) / 2 < right_ - left_) by (apply Z.div_lt; lia). lia.
Qed.

(** ** The class [RandomGen] *)

Section RandomGen.

(** The type of the numbers handed out by the generator. *)
Context {V : Type}.

(** The instance attributes; [None] is an attribute not assigned yet. *)
Record RandomGen : Type := mkRandomGen {
  _random_nums : option (list V);
  _probabilities : option (list float);
  _cumulative_probabilities : option (list float)
}.

(** A fresh instance, as [__init__] receives it. *)
Definition fresh : RandomGen := mkRandomGen None None None.

(** Methods run on [self] and either return or raise; in both cases the
    attributes are as the method left them. *)
Definition M (A : Type) : Type := RandomGen -> outcome A * RandomGen.

Definition ret {A} (a : A) : M A := fun self => (Returned a, self).

Definition bind {A B} (m : M A) (k : A -> M B) : M B :=
  fun self =>
    match m self with
    | (Returned a, self') => k a self'
    | (Raised e, self') => (Raised e, self')
    end.

Definition raise {A} (e : exn) : M A := fun self => (Raised e, self).

Definition lift {A} (o : outcome A) : M A := fun self => (o, self).

Definition getattr {A} (field : RandomGen -> option A) : M A :=
  fun self =>
    match field self with
    | Some a => (Returned a, self)
    | None => (Raised AttributeError, self)
    end.

Definition assign_random_nums (v : list V) : M unit :=
  fun self =>
    (Returned tt,
     mkRandomGen (Some v) (_probabilities self) (_cumulative_probabilities self)).

Definition assign_probabilities (v : list float) : M unit :=
  fun self =>
    (Returned tt,
     mkRandomGen (_random_nums self) (Some v) (_cumulative_probabilities self)).

Definition assign_cumulative_probabilities (v : list float) : M unit :=
  fun self =>
    (Returned tt,
     mkRandomGen (_random_nums self) (_probabilities self) (Some v)).

Notation "'let!' x ':=' m 'in' k" := (bind m (fun x => k))
  (at level 10, x name, m at level 100, k at level 200).
Notation "'do!' m 'in' k" := (bind m (fun _ => k))
  (at level 10, m at level 100, k at level 200).

Definition set_random_nums (random_nums : list V) : M unit :=
  match random_nums with
  | [] => raise (ValueError "The list random_nums must not be empty.")
  | _ :: _ => assign_random_nums random_nums
  end.

(** The check of the probabilities handed in (the [if] branch). *)
Definition validate_probabilities (probabilities : list float) : M (list float) :=
  let! nums := getattr _random_nums in
  if negb (len nums =? len probabilities) then
    raise (ValueError
      "The lists random_nums and probabilities must contain the same number of elements.")
  else if existsb (fun p => flt p fzero) probabilities then
    raise (ValueError "All provided probabilities must be non-negative.")
  else
    let! total := lift (fsum probabilities) in
    if negb (isclose total fone) then
      raise (ValueError "The sum of the probabilities must be approximately 1.")
    else ret probabilities.

(** Equal probabilities (the [else] branch). *)
Definition equal_probabilities : M (list float) :=
  let! nums := getattr _random_nums in
  lift (mapM (fun _ => truediv 1 (len nums)) nums).

(** The list of the sums of the prefixes. *)
Definition cumulative (probabilities : list float) : outcome (list float) :=
  mapM (fun i => fsum (take (S i) probabilities)) (seq 0 (length probabilities)).

Definition set_probabilities (probabilities : option (list float)) : M unit :=
  let! probabilities :=
    match probabilities with
    | Some (p :: ps) => validate_probabilities (p :: ps)
    | Some [] | None => equal_probabilities
    end in
  do! assign_probabilities probabilities in
  let! probabilities := getattr _probabilities in
  let! cum := lift (cumulative probabilities) in
  assign_cumulative_probabilities cum.

Definition __init__ (random_nums : list V) (probabilities : option (list float))
  : M unit :=
  do! set_random_nums random_nums in
  set_probabilities probabilities.

(** [RandomGen(random_nums, probabilities)]: the instance, unless
    [__init__] raises. *)
Definition new (random_nums : list V) (probabilities : option (list float))
  : outcome RandomGen :=
  match __init__ random_nums probabilities fresh with
  | (Returned _, self) => Returned self
  | (Raised e, _) => Raised e
  end.

Definition _find_index (rand_num : float) : M Z :=
  let! cum := getattr _cumulative_probabilities in
  lift (bisect_loop cum rand_num 0 (len cum - 1)).

(** [next_num], as a function of the number [random.random()] drew. *)
Definition next_num (rand_num : float) : M V :=
  let! nums := getattr _random_nums in
  let! i := _find_index rand_num in
  lift (getitem nums i).

(** The reconfiguration that produced a state last. *)
Inductive operation : Type := Construct | SetValues | SetProbabilities.

(** States reachable from a successful construction by successful
    reconfiguration calls, with the last call made. *)
Inductive reachable : operation -> RandomGen -> Prop :=
| reach_new random_nums probabilities self :
    new random_nums probabilities = Returned self ->
    reachable Construct self
| reach_set_random_nums op self random_nums self' :
    reachable op self ->
    set_random_nums random_nums self = (Returned tt, self') ->
    reachable SetValues self'
| reach_set_probabilities op self probabilities self' :
    reachable op self ->
    set_probabilities probabilities self = (Returned tt, self') ->
    reachable SetProbabilities self'.

End RandomGen.

Arguments RandomGen V : clear implicits.
Arguments M V A : clear implicits.

(** ** The loop of [_find_index], counting its iterations

    The same loop as [bisect_loop], returning how many times its body runs
    instead of the index. *)

Equations? bisect_iterations (cum : list float) (rand_num : float)
    (left_ right_ : Z) : nat by wf (Z.to_nat (right_ - left_)) lt :=
  bisect_iterations cum rand_num left_ right_ with Z_lt_dec left_ right_ => {
    | left _ =>
        let mid := left_ + (right_ - left_) / 2 in
        match getitem cum mid with
        | Raised e => 1%nat
        | Returned c =>
            S (if flt c rand_num
               then bisect_iterations cum rand_num (mid + 1) right_
               else bisect_iterations cum rand_num left_ mid)
        end
    | right _ => 0%nat }.
Proof.
  all: subst mid.
  - assert (0 <= (right_ - left_) / 2) by (apply Z.div_pos; lia). lia.
  - assert ((right_ - left_) / 2 < right_ - left_) by (apply Z.div_lt; lia). lia.
Qed.

(** ** The sampling helper of the tests: [generate_sample]

    The dictionary of counts is a finite map; [results[key] += 1] raises
    [KeyError] on a key that is not in it.  The numbers drawn by
    [random.random()] during the loop are the list [draws], one per
    iteration, so that [sample_size] is its length. *)

Inductive sample_outcome (A : Type) : Type :=
| Sampled (a : A)
| SampleRaised (e : exn)
| SampleKeyError (key : Z).
Arguments Sampled {A} a.
Arguments SampleRaised {A} e.
Arguments SampleKeyError {A} key.

(** [{num: 0 for num in nums}]. *)
Definition zero_counts (nums : list Z) : gmap Z nat :=
  foldl (fun results num => <[num := 0%nat]> results) ∅ nums.

Fixpoint sample_loop (gen : RandomGen Z) (draws : list float)
    (results : gmap Z nat) : sample_outcome (gmap Z nat) * RandomGen Z :=
  match draws with
  | [] => (Sampled results, gen)
  | rand_num :: draws' =>
      match next_num rand_num gen with
      | (Raised e, gen') => (SampleRaised e, gen')
      | (Returned key, gen') =>
          match results !! key with
          | None => (SampleKeyError key, gen')
          | Some count => sample_loop gen' draws' (<[key := S count]> results)
          end
      end
  end.

Definition generate_sample (gen : RandomGen Z) (draws : list float)
  : sample_outcome (gmap Z nat) * RandomGen Z :=
  match _random_nums gen with
  | None => (SampleRaised AttributeError, gen)
  | Some nums => sample_loop gen draws (zero_counts nums)
  end.

(** How many of the draws make [next_num] return [key]. *)
Definition hits (gen : RandomGen Z) (key : Z) (draws : list float) : nat :=
  length (List.filter
            (fun rand_num =>
               match (next_num rand_num gen).1 with
               | Returned v => v =? key
               | Raised _ => false
               end)
            draws).

(** The sum of the counts. *)
Definition total_count (results : gmap Z nat) : nat :=
  map_fold (fun _ count acc => (count + acc)%nat) 0%nat results.

(** ** Vocabulary of the properties *)

Definition rank (x : float) : Z * Z * Z :=
  match x with
  | S754_infinity true => (-2, 0, 0)
  | S754_finite true m e => (-1, - e, Z.neg m)
  | S754_zero _ | S754_nan => (0, 0, 0)
  | S754_finite false m e => (1, e, Z.pos m)
  | S754_infinity false => (2, 0, 0)
  end.

Definition rank_lt (a b : Z * Z * Z) : Prop :=
  a.1.1 < b.1.1 \/
  (a.1.1 = b.1.1 /\ (a.1.2 < b.1.2 \/ (a.1.2 = b.1.2 /\ a.2 < b.2))).

Definition rank_le (a b : Z * Z * Z) : Prop := rank_lt a b \/ a = b.

(** What the loop has observed when it stops at [i]: the entry just before
    [i] is below [rand_num] unless [i] is the initial [left], and the entry
    at [i] is not below [rand_num] unless [i] is the initial [right]. *)
Definition stops_at (cum : list float) (rand_num : float) (left_ right_ i : Z)
  : Prop :=
  left_ <= i <= right_ /\
  (i = left_ \/
   exists c, cum !! Z.to_nat (i - 1) = Some c /\ flt c rand_num = true) /\
  (i = right_ \/
   exists c, cum !! Z.to_nat i = Some c /\ flt c rand_num = false).

Definition non_decreasing (l : list float) : Prop :=
  forall (i j : nat) (x y : float),
    (i <= j)%nat -> l !! i = Some x -> l !! j = Some y -> fle x y = true.

(** [i] is the smallest index with [cum[i] >= rand_num]. *)
Definition smallest_index_ge (cum : list float) (rand_num : float) (i : Z) : Prop :=
  0 <= i < len cum /\
  (exists c, cum !! Z.to_nat i = Some c /\ fle rand_num c = true) /\
  (forall (j : nat) (c : float),
      (j < Z.to_nat i)%nat -> cum !! j = Some c -> fle rand_num c = false).

(** Without a negative infinity among the summands, [inf_sum] is [0.0] or
    [+inf], and the final test for [-inf + inf] passes. *)
Definition inf_sum_ok (st : fsum_state) : Prop :=
  inf_sum st = fzero \/ inf_sum st = S754_infinity false.

Definition not_neg_inf (x : float) : Prop := x <> S754_infinity true.

(** The float nearest to [j] times the finite float [p]. *)
Definition nearest_multiple (j : Z) (p : float) : float :=
  match p with
  | S754_finite s m e => dyadic (j * signed s m) e
  | _ => p
  end.

(** The check of [validate_probabilities] against the numbers [nums]. *)
Definition checked_probabilities {V} (nums : list V) (probabilities : list float)
  : outcome (list float) :=
  if negb (len nums =? len probabilities) then
    Raised (ValueError
      "The lists random_nums and probabilities must contain the same number of elements.")
  else if existsb (fun p => flt p fzero) probabilities then
    Raised (ValueError "All provided probabilities must be non-negative.")
  else
    match fsum probabilities with
    | Raised e => Raised e
    | Returned total =>
        if negb (isclose total fone) then
          Raised (ValueError "The sum of the probabilities must be approximately 1.")
        else Returned probabilities
    end.

(** The list [set_probabilities] goes on with. *)
Definition chosen_probabilities {V} (nums : list V)
    (probabilities : option (list float)) : outcome (list float) :=
  match probabilities with
  | Some (p :: ps) => checked_probabilities nums (p :: ps)
  | Some [] | None => mapM (fun _ => truediv 1 (len nums)) nums
  end.

Definition non_negative (p : float) : Prop := flt p fzero = false.

(** The sum of the list, as [fsum] returns it, is within the tolerance of
    [isclose] from [1.0]. *)
Definition sum_close_to_one (ps : list float) : Prop :=
  exists total, fsum ps = Returned total /\ isclose total fone = true.

(** [fsum] returns a sum, and it is not within the tolerance from [1.0]. *)
Definition sum_deviates (ps : list float) : Prop :=
  exists total, fsum ps = Returned total /\ isclose total fone = false.

(** [0.125, 0.375, 0.25, 0.0625, 0.1875]. *)
Definition test_probabilities : list float :=
  [dyadic 1 (-3); dyadic 3 (-3); dyadic 1 (-2); dyadic 1 (-4); dyadic 3 (-4)].

(** [0.125, 0.5, 0.75, 0.8125, 1.0]. *)
Definition test_cumulative : list float :=
  [dyadic 1 (-3); dyadic 1 (-1); dyadic 3 (-2); dyadic 13 (-4); dyadic 1 0].

(** [0.75, 0, 0.25]. *)
Definition zero_probabilities : list float :=
  [dyadic 3 (-2); fzero; dyadic 1 (-2)].

(** A state left by a successful construction or by a successful call of
    [set_probabilities]. *)
Definition configured {V} (self : RandomGen V) : Prop :=
  (exists nums o, new nums o = Returned self)
  \/ (exists self0 o, set_probabilities o self0 = (Returned tt, self)).

(** The probabilities are refused: a non-empty list was handed in and it is
    not as long as the numbers, or holds a negative entry, or has a sum that
    is not close to [1.0]. *)
Definition rejected {V} (nums : list V) (o : option (list float)) : Prop :=
  exists ps,
    o = Some ps /\ ps <> []
    /\ (length ps <> length nums
        \/ Exists (fun p => flt p fzero = true) ps
        \/ sum_deviates ps).

(** The probabilities are taken: none or an empty list was handed in, or a
    list as long as the numbers, without negative entry and with a sum close
    to [1.0]. *)
Definition accepted {V} (nums : list V) (o : option (list float)) : Prop :=
  o = None \/ o = Some []
  \/ exists ps,
      o = Some ps /\ length ps = length nums /\ Forall non_negative ps
      /\ sum_close_to_one ps.

(** The float [1 / 3]. *)
Definition one_third : float := S754_finite false 6004799503160661 (-54).

(** [RandomGen([1, 2, 3])]. *)
Definition sampler_of_three : RandomGen Z :=
  mkRandomGen (Some [1; 2; 3])
    (Some [one_third; one_third; one_third])
    (Some [one_third; S754_finite false 6004799503160661 (-53); fone]).

(** The same sampler after [set_random_nums([7])]. *)
Definition sampler_of_one : RandomGen Z :=
  mkRandomGen (Some [7])
    (Some [one_third; one_third; one_third])
    (Some [one_third; S754_finite false 6004799503160661 (-53); fone]).

Fixpoint non_decreasingb (l : list float) : bool :=
  match l with
  | [] => true
  | x :: l' => fle x x && forallb (fle x) l' && non_decreasingb l'
  end.

(** ** Doubles as integers

    Every finite double is an integer number of units [2^-1074].  On these
    integers the additions of [math.fsum] are additions of [Z] followed by a
    rounding to 53 significant digits. *)

(** Round to nearest, ties to even, of [m / 2^k]. *)
Definition rne (m k : Z) : Z :=
  let q := m / 2 ^ k in
  let r := m mod 2 ^ k in
  let h := 2 ^ (k - 1) in
  if r <? h then q
  else if h <? r then q + 1
  else if Z.even q then q else q + 1.

(** The integer nearest to [n] among those with at most 53 significant
    binary digits, ties to the even mantissa; [n] is not negative. *)
Definition rnd (n : Z) : Z :=
  if Zdigits2 n <=? 53 then n
  else rne n (Zdigits2 n - 53) * 2 ^ (Zdigits2 n - 53).

(** The integer nearest to [v] among those with at most 53 significant
    binary digits, ties to the even mantissa: with the unit [2^-1074], the
    rounding of a real sum to a double. *)
Definition RN (v : Z) : Z := Z.sgn v * rnd (Z.abs v).

(** The integers that rounding leaves as they are. *)
Definition format (w : Z) : Prop := RN w = w.

(** One pass over the partial sums [ps] with the summand [x]. *)
Fixpoint zgrow (ps : list Z) (x : Z) : list Z * Z :=
  match ps with
  | [] => ([], x)
  | y :: ps' =>
      let hi := RN (x + y) in
      let lo := x + y - hi in
      let '(out, x') := zgrow ps' hi in
      (if lo =? 0 then out else lo :: out, x')
  end.

(** The partial sums after the pass. *)
Definition zstep (ps : list Z) (x : Z) : list Z :=
  let '(out, x') := zgrow ps x in
  if x' =? 0 then out else out ++ [x'].

(** The sum of a list, and the sum of its absolute values. *)
Definition zsum (l : list Z) : Z := foldr Z.add 0 l.
Definition asum (l : list Z) : Z := foldr (fun p a => Z.abs p + a) 0 l.

(** Every rounded sum of the pass is below [B] in absolute value. *)
Fixpoint zgrow_below (B : Z) (ps : list Z) (x : Z) : Prop :=
  match ps with
  | [] => True
  | y :: ps' => Z.abs (RN (x + y)) < B /\ zgrow_below B ps' (RN (x + y))
  end.

(** [P] lists non-zero multiples of [2^g], each at most half of a power of
    two that divides the following ones. *)
Fixpoint expansion (g : Z) (P : list Z) : Prop :=
  match P with
  | [] => True
  | p :: P' =>
      p <> 0 /\ (2 ^ g | p)
      /\ exists g', 0 <= g' /\ 2 * Z.abs p <= 2 ^ g' /\ expansion g' P'
  end.

(** The last partial sum is positive and carries the sum: the others add up
    to at most its [2^52]-th part. *)
Definition dominant (P : list Z) : Prop :=
  P = [] \/ exists L t, P = L ++ [t] /\ 0 < t /\ 2 ^ 52 * asum L <= t.

(** The partial sums are added from the largest down; the additions stop at
    the first one that is not exact. *)
Fixpoint ztop (hi : Z) (below : list Z) : Z * Z * list Z :=
  match below with
  | [] => (hi, 0, [])
  | y :: below' =>
      let hi' := RN (hi + y) in
      let lo := hi + y - hi' in
      if lo =? 0 then ztop hi' below' else (hi', lo, below')
  end.

(** The rounded sum of the partial sums: the result of [ztop], corrected
    when the error left over is half a unit and the partial sum below it
    decides the tie. *)
Definition zround (P : list Z) : Z :=
  match rev P with
  | [] => 0
  | top :: below =>
      let '(hi, lo, rest) := ztop top below in
      match rest with
      | [] => hi
      | p :: _ =>
          if (lo <? 0) && (p <? 0) || (0 <? lo) && (0 <? p) then
            let y := 2 * lo in
            let x := RN (hi + y) in
            let yr := RN (x - hi) in
            if y =? yr then x else hi
          else hi
      end
  end.

(** In the final summation every partial sum added is not larger than the
    sum so far, and the rounded sums stay below [B]. *)
Fixpoint ztop_ok (B : Z) (hi : Z) (below : list Z) : Prop :=
  match below with
  | [] => True
  | y :: below' =>
      Z.abs y <= Z.abs hi /\ Z.abs (RN (hi + y)) < B
      /\ (hi + y - RN (hi + y) = 0 -> ztop_ok B (RN (hi + y)) below')
  end.

(** The non-negative float of exponent [k.1] and mantissa [k.2]. *)
Definition of_key (k : Z * Z) : float :=
  match k.2 with
  | 0 => S754_zero false
  | Z.pos m => if k.1 <=? emax - prec then S754_finite false m k.1
               else S754_infinity false
  | Z.neg _ => S754_nan
  end.

(** The exponent and the mantissa of the double nearest to [M * 2^E], for
    a positive [M]. *)
Definition round_key (M E : Z) : Z * Z :=
  let fe := fexp prec emax (Zdigits2 M + E) in
  if fe <=? E then (fe, M * 2 ^ (E - fe))
  else
    let m2 := rne M (fe - E) in
    if m2 <? 2 ^ prec then (fe, m2) else (fe + 1, 2 ^ (prec - 1)).

(** The value of a finite float, in units of the smallest positive float
    [2^-1074]: an integer. *)
Definition Zval (x : float) : Z :=
  match x with
  | S754_finite s m e => signed s m * 2 ^ (e + 1074)
  | _ => 0
  end.

(** The finite floats of binary64: a zero, or a mantissa of 53 digits, or
    of fewer digits at the smallest exponent. *)
Definition canonical (x : float) : Prop :=
  match x with
  | S754_zero _ => True
  | S754_finite _ m e =>
      - 1074 <= e <= 971
      /\ Zdigits2 (Z.pos m) <= 53
      /\ (e = - 1074 \/ Zdigits2 (Z.pos m) = 53)
  | _ => False
  end.

(** The float [x] is a double whose value is [v] units. *)
Definition represents (x : float) (v : Z) : Prop := canonical x /\ Zval x = v.

(** Far enough below the overflow threshold [2^2098] units. *)
Definition small (z : Z) : Prop := Z.abs z < 2 ^ 2097.

(** A significand and an exponent in the shape of a double: at most 53
    digits, and exactly 53 above the smallest exponent. *)
Definition shaped (m e : Z) : Prop :=
  - 1074 <= e /\ 0 <= m /\ Zdigits2 m <= 53 /\ (e = - 1074 \/ Zdigits2 m = 53).

(** * Properties *)

(** ** The order of floats

    Floats other than NaN are ordered like their [rank]: the class (negative
    infinity, negative, zero, positive, positive infinity), then the exponent,
    then the mantissa. *)

Ltac rank_cases :=
  repeat match goal with
  | |- context [PosDef.Pos.compare_cont Eq ?a ?b] =>
      change (PosDef.Pos.compare_cont Eq a b) with (Z.pos a ?= Z.pos b);
      destruct (Z.compare_spec (Z.pos a) (Z.pos b))
  | |- context [?a ?= ?b] => destruct (Z.compare_spec a b)
  end;
  simpl; split; intros Hside;
  try reflexivity; try discriminate; try lia;
  try (destruct Hside as [Hside | Hside]; [lia | congruence || (inversion Hside; lia)]);
  try (right; congruence).

Lemma flt_rank (x y : float) :
  isnan x = false -> isnan y = false ->
  flt x y = true <-> rank_lt (rank x) (rank y).
Proof.
  unfold flt, SFltb, rank_lt.
  destruct x as [sx|sx| |sx mx ex], y as [sy|sy| |sy my ey];
    try discriminate; intros _ _;
    try destruct sx; try destruct sy; simpl; rank_cases.
Qed.

Lemma fle_rank (x y : float) :
  isnan x = false -> isnan y = false ->
  fle x y = true <-> rank_le (rank x) (rank y).
Proof.
  unfold fle, SFleb, rank_le, rank_lt.
  destruct x as [sx|sx| |sx mx ex], y as [sy|sy| |sy my ey];
    try discriminate; intros _ _;
    try destruct sx; try destruct sy; simpl; rank_cases.
Qed.

Lemma fle_not_nan (x y : float) :
  fle x y = true -> isnan x = false /\ isnan y = false.
Proof. destruct x, y; try discriminate; auto. Qed.

Lemma flt_not_nan (x y : float) :
  flt x y = true -> isnan x = false /\ isnan y = false.
Proof. destruct x, y; try discriminate; auto. Qed.

Lemma flt_fle_absurd (x u : float) :
  flt x u = true -> fle u x = true -> False.
Proof.
  intros Hlt Hle.
  destruct (flt_not_nan _ _ Hlt) as [Hx Hu].
  apply flt_rank in Hlt; try assumption.
  apply fle_rank in Hle; try assumption.
  unfold rank_le, rank_lt in *.
  destruct Hle as [Hle | Heq]; [| rewrite Heq in Hlt]; lia.
Qed.

Lemma fle_flt_trans (x y u : float) :
  fle x y = true -> flt y u = true -> flt x u = true.
Proof.
  intros Hle Hlt.
  destruct (fle_not_nan _ _ Hle) as [Hx Hy].
  destruct (flt_not_nan _ _ Hlt) as [_ Hu].
  apply flt_rank; try assumption.
  apply flt_rank in Hlt; try assumption.
  apply fle_rank in Hle; try assumption.
  unfold rank_le, rank_lt in *.
  destruct Hle as [Hle | Heq]; [| rewrite Heq]; lia.
Qed.

Lemma rank_inj (x y : float) :
  isnan x = false -> isnan y = false -> rank x = rank y -> fle x y = true.
Proof.
  intros Hx Hy Heq. apply fle_rank; auto. right; exact Heq.
Qed.

Lemma not_flt_fle (x u : float) :
  isnan x = false -> isnan u = false -> flt x u = false -> fle u x = true.
Proof.
  intros Hx Hu Hlt.
  apply fle_rank; try assumption.
  destruct (fle_rank x u Hx Hu) as [_ Hle].
  destruct (flt_rank x u Hx Hu) as [_ Hlt'].
  destruct (rank x) as [[a b] c], (rank u) as [[a' b'] c'].
  unfold rank_le, rank_lt in *; simpl in *.
  assert (Hn : ~ (a < a' \/ a = a' /\ (b < b' \/ b = b' /\ c < c'))).
  { intros H. rewrite Hlt' in Hlt by exact H. discriminate. }
  assert (Hc : (a' < a \/ a' = a /\ (b' < b \/ b' = b /\ c' < c))
               \/ (a' = a /\ b' = b /\ c' = c)) by lia.
  destruct Hc as [Hc | (-> & -> & ->)]; [left; exact Hc | right; reflexivity].
Qed.

(** ** Indexing *)

Lemma getitem_in_range {A} (l : list A) (i : Z) :
  0 <= i < len l ->
  exists x, getitem l i = Returned x /\ l !! Z.to_nat i = Some x.
Proof.
  intros Hi. unfold getitem, len in *.
  destruct (Z.ltb_spec i 0) as [?|_]; [lia|].
  destruct (Z.leb_spec 0 i) as [_|?]; [|lia].
  destruct (Z.ltb_spec i (Z.of_nat (length l))) as [_|?]; [|lia].
  simpl.
  destruct (lookup_lt_is_Some_2 l (Z.to_nat i)) as [x Hx]; [lia|].
  exists x. rewrite Hx. auto.
Qed.

Lemma getitem_out_of_range {A} (l : list A) (i : Z) :
  len l <= i -> getitem l i = Raised IndexError.
Proof.
  intros Hi. unfold getitem, len in *.
  destruct (Z.ltb_spec i 0) as [?|_]; [lia|].
  destruct (Z.ltb_spec i (Z.of_nat (length l))) as [?|_]; [lia|].
  rewrite andb_false_r. reflexivity.
Qed.

(** ** The search loop *)

Lemma bisect_loop_exit (cum : list float) (rand_num : float) (left_ right_ : Z) :
  right_ <= left_ -> bisect_loop cum rand_num left_ right_ = Returned left_.
Proof.
  intros H. rewrite bisect_loop_equation_1.
  destruct (Z_lt_dec left_ right_); [lia | reflexivity].
Qed.

Lemma bisect_loop_iter (cum : list float) (rand_num : float) (left_ right_ : Z) :
  left_ < right_ ->
  bisect_loop cum rand_num left_ right_ =
    let mid := left_ + (right_ - left_) / 2 in
    match getitem cum mid with
    | Raised e => Raised e
    | Returned c =>
        if flt c rand_num
        then bisect_loop cum rand_num (mid + 1) right_
        else bisect_loop cum rand_num left_ mid
    end.
Proof.
  intros H. rewrite bisect_loop_equation_1.
  destruct (Z_lt_dec left_ right_); [reflexivity | lia].
Qed.

Lemma bisect_loop_stops (cum : list float) (rand_num : float) (n : nat) :
  forall left_ right_,
    right_ - left_ <= Z.of_nat n ->
    0 <= left_ -> left_ <= right_ -> right_ < len cum ->
    exists i, bisect_loop cum rand_num left_ right_ = Returned i
              /\ stops_at cum rand_num left_ right_ i.
Proof.
  induction n as [|n IH]; intros left_ right_ Hn Hl Hlr Hr.
  - exists left_. rewrite bisect_loop_exit by lia.
    split; [reflexivity|]. unfold stops_at. split; [lia|].
    split; left; lia.
  - destruct (Z_lt_dec left_ right_) as [Hlt|Hge].
    + rewrite bisect_loop_iter by assumption. cbv zeta.
      set (mid := left_ + (right_ - left_) / 2).
      assert (Hmid : left_ <= mid < right_).
      { unfold mid.
        assert (0 <= (right_ - left_) / 2) by (apply Z.div_pos; lia).
        assert ((right_ - left_) / 2 < right_ - left_) by (apply Z.div_lt; lia).
        lia. }
      destruct (getitem_in_range cum mid) as (c & Hget & Hc); [lia|].
      rewrite Hget.
      destruct (flt c rand_num) eqn:Hcmp.
      * destruct (IH (mid + 1) right_) as (i & Hi & Hrange & Hlo & Hhi); try lia.
        exists i. split; [exact Hi|]. split; [lia|]. split; [|exact Hhi].
        destruct Hlo as [-> | Hlo]; [|right; exact Hlo].
        right. exists c. replace (mid + 1 - 1) with mid by lia. auto.
      * destruct (IH left_ mid) as (i & Hi & Hrange & Hlo & Hhi); try lia.
        exists i. split; [exact Hi|]. split; [lia|]. split; [exact Hlo|].
        destruct Hhi as [-> | Hhi]; [|right; exact Hhi].
        right. exists c. auto.
    + exists left_. rewrite bisect_loop_exit by lia.
      split; [reflexivity|]. unfold stops_at. split; [lia|].
      split; left; lia.
Qed.

Lemma bisect_loop_from_zero (cum : list float) (rand_num : float) :
  cum <> [] ->
  exists i, bisect_loop cum rand_num 0 (len cum - 1) = Returned i
            /\ stops_at cum rand_num 0 (len cum - 1) i.
Proof.
  intros Hne.
  assert (0 < len cum) by (unfold len; destruct cum; [congruence | simpl; lia]).
  apply (bisect_loop_stops cum rand_num (Z.to_nat (len cum))); lia.
Qed.

(** ** Running the methods *)

Section Methods.

Context {V : Type}.
Implicit Types (self : RandomGen V) (cum probs : list float) (nums : list V).

Lemma find_index_run self cum rand_num :
  _cumulative_probabilities self = Some cum ->
  _find_index rand_num self =
    (bisect_loop cum rand_num 0 (len cum - 1), self).
Proof.
  intros Hcum. unfold _find_index, bind, getattr, lift. rewrite Hcum. reflexivity.
Qed.

Lemma next_num_run self nums cum rand_num i :
  _random_nums self = Some nums ->
  _cumulative_probabilities self = Some cum ->
  bisect_loop cum rand_num 0 (len cum - 1) = Returned i ->
  next_num rand_num self = (getitem nums i, self).
Proof.
  intros Hnums Hcum Hi. unfold next_num, bind, getattr at 1.
  rewrite Hnums, (find_index_run _ _ _ Hcum), Hi. reflexivity.
Qed.

End Methods.

(** ** Sorted cumulative sequences *)

Lemma stops_at_smallest (cum : list float) (rand_num c_last : float) (i : Z) :
  non_decreasing cum ->
  last cum = Some c_last ->
  fle rand_num c_last = true ->
  stops_at cum rand_num 0 (len cum - 1) i ->
  smallest_index_ge cum rand_num i.
Proof.
  intros Hsorted Hlast Hle (Hrange & Hlo & Hhi).
  assert (Hne : 0 < len cum).
  { unfold len. destruct cum; [discriminate | simpl; lia]. }
  rewrite last_lookup in Hlast.
  split; [lia|]. split.
  - destruct Hhi as [-> | (c & Hc & Hcmp)].
    + exists c_last. split; [|exact Hle].
      rewrite <- Hlast. f_equal. unfold len. lia.
    + exists c. split; [exact Hc|].
      apply not_flt_fle; [| |exact Hcmp].
      * exact (proj1 (fle_not_nan _ _ (Hsorted _ _ _ _ (Nat.le_refl _) Hc Hc))).
      * exact (proj1 (fle_not_nan _ _ Hle)).
  - intros j c Hj Hc.
    destruct Hlo as [-> | (c0 & Hc0 & Hcmp)]; [simpl in Hj; lia|].
    assert (Hjc : fle c c0 = true).
    { apply (Hsorted j (Z.to_nat (i - 1))); [lia | exact Hc | exact Hc0]. }
    destruct (fle rand_num c) eqn:Habs; [|reflexivity].
    exfalso. eapply flt_fle_absurd; [|exact Habs].
    eapply fle_flt_trans; eassumption.
Qed.

(** ** C4: the search terminates with an index of the sequence *)

(** C4. For every non-empty [_cumulative_probabilities] and every float
    [rand_num] (NaN, infinities and numbers above every cumulative value
    included), [_find_index] returns, without raising and without touching the
    state, an index [i] with [0 <= i <= len - 1]. *)
Theorem find_index_returns_valid_index
    {V : Type} (self : RandomGen V) (cum : list float) (rand_num : float) :
  _cumulative_probabilities self = Some cum ->
  cum <> [] ->
  exists i, _find_index rand_num self = (Returned i, self)
            /\ 0 <= i <= len cum - 1.
Proof.
  intros Hcum Hne.
  destruct (bisect_loop_from_zero cum rand_num Hne) as (i & Hi & Hrange & _).
  exists i. rewrite (find_index_run _ _ _ Hcum), Hi. split; [reflexivity | lia].
Qed.

Lemma find_index_returns_valid_index_witness :
  exists i,
    _find_index (dyadic 1 1) (mkRandomGen (Some [10; 20]) None
                                (Some [dyadic 1 (-1); dyadic 1 0]))
    = (Returned i, mkRandomGen (Some [10; 20]) None
                     (Some [dyadic 1 (-1); dyadic 1 0]))
    /\ 0 <= i <= len [dyadic 1 (-1); dyadic 1 0] - 1.
Proof.
  apply (find_index_returns_valid_index
           (mkRandomGen (Some [10; 20]) None (Some [dyadic 1 (-1); dyadic 1 0]))
           [dyadic 1 (-1); dyadic 1 0] (dyadic 1 1)).
  - reflexivity.
  - discriminate.
Defined.

(** ** C1: the sample is the entry at the lower bound *)

(** C1, as the code has it.  In a state whose cumulative sequence is
    non-decreasing and not longer than [_random_nums], for a draw [rand_num]
    in [[0, 1)] that is at most the last cumulative value, [_find_index]
    returns the smallest index [i] with [cum[i] >= rand_num], and [next_num]
    returns the number stored at [i]. *)
Theorem next_num_returns_lower_bound
    {V : Type} (self : RandomGen V) (nums : list V) (cum : list float)
    (rand_num c_last : float) :
  _random_nums self = Some nums ->
  _cumulative_probabilities self = Some cum ->
  len cum <= len nums ->
  non_decreasing cum ->
  fle fzero rand_num = true ->
  flt rand_num fone = true ->
  last cum = Some c_last ->
  fle rand_num c_last = true ->
  exists i v,
    smallest_index_ge cum rand_num i
    /\ _find_index rand_num self = (Returned i, self)
    /\ nums !! Z.to_nat i = Some v
    /\ next_num rand_num self = (Returned v, self).
Proof.
  intros Hnums Hcum Hlen Hsorted _ _ Hlast Hle.
  assert (Hne : cum <> []) by (intros ->; discriminate).
  destruct (bisect_loop_from_zero cum rand_num Hne) as (i & Hi & Hstop).
  pose proof (stops_at_smallest _ _ _ _ Hsorted Hlast Hle Hstop) as Hsmall.
  destruct (getitem_in_range nums i) as (v & Hget & Hv).
  { destruct Hsmall as (Hrange & _). lia. }
  exists i, v. split; [exact Hsmall|].
  rewrite (find_index_run _ _ _ Hcum), Hi.
  rewrite (next_num_run _ _ _ _ _ Hnums Hcum Hi), Hget.
  repeat split. exact Hv.
Qed.

(** ** Number of binary digits *)

Lemma digits2_pos_size (p : positive) : digits2_pos p = Pos.size p.
Proof. induction p; simpl; congruence. Qed.

Lemma Zdigits2_log2 (p : positive) :
  Zdigits2 (Z.pos p) = Z.succ (Z.log2 (Z.pos p)).
Proof.
  simpl. rewrite digits2_pos_size.
  destruct p; simpl; rewrite ?Pos2Z.inj_succ; reflexivity.
Qed.

Lemma Zdigits2_nonneg (m : Z) : 0 <= Zdigits2 m.
Proof. destruct m; simpl; lia. Qed.

Lemma Zdigits2_pos (m : Z) : 0 < m -> 0 < Zdigits2 m.
Proof. destruct m; simpl; lia. Qed.

Lemma Zdigits2_le (m k : Z) :
  0 <= m -> 0 <= k -> m < 2 ^ k -> Zdigits2 m <= k.
Proof.
  intros Hm Hk Hlt. destruct m as [|p|p]; [assumption| |lia].
  rewrite Zdigits2_log2. apply Z.log2_lt_pow2 in Hlt; lia.
Qed.

Lemma Zdigits2_gt (m : Z) : 0 <= m -> m < 2 ^ Zdigits2 m.
Proof.
  intros Hm. destruct m as [|p|p]; [reflexivity| |lia].
  rewrite Zdigits2_log2. apply Z.log2_spec. lia.
Qed.

Lemma Zdigits2_ge (m : Z) : 0 < m -> 2 ^ (Zdigits2 m - 1) <= m.
Proof.
  intros Hm. destruct m as [|p|p]; try lia.
  rewrite Zdigits2_log2. replace (Z.succ (Z.log2 (Z.pos p)) - 1) with (Z.log2 (Z.pos p)) by lia.
  apply Z.log2_spec. lia.
Qed.

Lemma Zdigits2_mono (a b : Z) : 0 <= a <= b -> Zdigits2 a <= Zdigits2 b.
Proof.
  intros [Ha Hab]. apply Zdigits2_le; [lia | apply Zdigits2_nonneg |].
  pose proof (Zdigits2_gt b). lia.
Qed.

Lemma Zdigits2_mul_pow2 (a k : Z) :
  0 <= a -> 0 <= k -> Zdigits2 (a * 2 ^ k) <= Zdigits2 a + k.
Proof.
  intros Ha Hk.
  pose proof (Zdigits2_nonneg a).
  assert (0 < 2 ^ k) by (apply Z.pow_pos_nonneg; lia).
  apply Zdigits2_le; [lia | lia |].
  rewrite Z.pow_add_r by lia.
  pose proof (Zdigits2_gt a Ha). nia.
Qed.

Lemma Zdigits2_succ (m : Z) : 0 <= m -> Zdigits2 (m + 1) <= Zdigits2 m + 1.
Proof.
  intros Hm. pose proof (Zdigits2_nonneg m).
  apply Zdigits2_le; [lia | lia |].
  rewrite Z.pow_add_r by lia. pose proof (Zdigits2_gt m Hm). lia.
Qed.

Lemma Zdigits2_div_pow2 (m n : Z) :
  0 <= m -> 0 <= n -> Zdigits2 (m / 2 ^ n) <= Z.max 0 (Zdigits2 m - n).
Proof.
  intros Hm Hn.
  pose proof (Zdigits2_nonneg m) as Hd. pose proof (Zdigits2_gt m Hm) as Hgt.
  assert (Hp : 0 < 2 ^ n) by (apply Z.pow_pos_nonneg; lia).
  destruct (Z_le_gt_dec (Zdigits2 m) n) as [Hle|Hgt'].
  - assert (2 ^ Zdigits2 m <= 2 ^ n) by (apply Z.pow_le_mono_r; lia).
    rewrite Z.div_small by lia. simpl. lia.
  - apply Zdigits2_le; [apply Z.div_pos; lia | lia |].
    rewrite Z.max_r by lia.
    apply Z.div_lt_upper_bound; [lia|].
    rewrite <- Z.pow_add_r by lia.
    replace (n + (Zdigits2 m - n)) with (Zdigits2 m) by lia. exact Hgt.
Qed.

(** ** Shifting and rounding *)

Lemma shr_m_of_loc (m : Z) (l : location) : shr_m (shr_record_of_loc m l) = m.
Proof. destruct l as [|[]]; reflexivity. Qed.

Lemma shr_1_m (r : shr_record) : 0 <= shr_m r -> shr_m (shr_1 r) = shr_m r / 2.
Proof.
  destruct r as [m rr ss]. simpl. intros Hm. rewrite <- Z.div2_div.
  destruct m as [|[p|p|]|p]; try reflexivity; lia.
Qed.

Lemma pow2_xI (p : positive) : 2 ^ Z.pos p~1 = 2 * (2 ^ Z.pos p * 2 ^ Z.pos p).
Proof.
  replace (Z.pos p~1) with (1 + (Z.pos p + Z.pos p)) by lia.
  rewrite !Z.pow_add_r by lia. reflexivity.
Qed.

Lemma pow2_xO (p : positive) : 2 ^ Z.pos p~0 = 2 ^ Z.pos p * 2 ^ Z.pos p.
Proof.
  replace (Z.pos p~0) with (Z.pos p + Z.pos p) by lia.
  rewrite Z.pow_add_r by lia. reflexivity.
Qed.

Lemma iter_shr_1_m (p : positive) :
  forall r, 0 <= shr_m r ->
            shr_m (SpecFloat.iter_pos shr_1 p r) = shr_m r / 2 ^ Z.pos p.
Proof.
  induction p as [p IH|p IH|]; intros r Hr; simpl SpecFloat.iter_pos.
  - assert (H1 : 0 <= shr_m (shr_1 r)).
    { rewrite shr_1_m by assumption. apply Z.div_pos; lia. }
    assert (H2 : 0 <= shr_m (SpecFloat.iter_pos shr_1 p (shr_1 r))).
    { rewrite IH by assumption. apply Z.div_pos; [lia | apply Z.pow_pos_nonneg; lia]. }
    rewrite IH by assumption. rewrite IH by assumption. rewrite shr_1_m by assumption.
    assert (Hp : 0 < 2 ^ Z.pos p) by (apply Z.pow_pos_nonneg; lia).
    rewrite !Z.div_div by lia.
    f_equal. rewrite pow2_xI. lia.
  - assert (H2 : 0 <= shr_m (SpecFloat.iter_pos shr_1 p r)).
    { rewrite IH by assumption. apply Z.div_pos; [lia | apply Z.pow_pos_nonneg; lia]. }
    rewrite IH by assumption. rewrite IH by assumption.
    assert (Hp : 0 < 2 ^ Z.pos p) by (apply Z.pow_pos_nonneg; lia).
    rewrite Z.div_div by lia.
    f_equal. rewrite pow2_xO. lia.
  - rewrite shr_1_m by assumption. reflexivity.
Qed.

Lemma shr_fexp_bounds (m e : Z) (l : location) (mrs : shr_record) (e' : Z) :
  0 <= m ->
  shr_fexp prec emax m e l = (mrs, e') ->
  0 <= shr_m mrs
  /\ e' = Z.max e (fexp prec emax (Zdigits2 m + e))
  /\ Zdigits2 (shr_m mrs) + e' <= Z.max (Zdigits2 m + e) e'.
Proof.
  intros Hm. unfold shr_fexp, shr.
  destruct (fexp prec emax (Zdigits2 m + e) - e) as [|n|n] eqn:Hn;
    intros [= <- <-]; rewrite ?shr_m_of_loc.
  - repeat split; lia.
  - rewrite iter_shr_1_m by (rewrite shr_m_of_loc; assumption).
    rewrite shr_m_of_loc.
    split; [apply Z.div_pos; [lia | apply Z.pow_pos_nonneg; lia]|].
    split; [lia|].
    pose proof (Zdigits2_div_pow2 m (Z.pos n) Hm ltac:(lia)). lia.
  - repeat split; lia.
Qed.

Lemma round_nearest_even_bounds (m : Z) (l : location) :
  m <= round_nearest_even m l <= m + 1.
Proof.
  unfold round_nearest_even. destruct l as [|[]]; try destruct (Z.even m); lia.
Qed.

(** Rounding a number below [2^(emax - 1)] stays finite, keeps the sign and
    gains at most one binary order of magnitude. *)
Lemma binary_round_aux_bounds (s : bool) (m e : Z) (l : location) :
  0 <= m -> e <= emax - prec -> Zdigits2 m + e <= emax - 1 ->
  match binary_round_aux prec emax s m e l with
  | S754_zero s' => s' = s
  | S754_finite s' m' e' =>
      s' = s /\ e' <= emax - prec
      /\ Zdigits2 (Z.pos m') + e'
         <= Z.max (Z.max (Zdigits2 m + e) e) (emin prec emax) + 1
      /\ e' <= Z.max e (Z.max (Zdigits2 m + e + 1 - prec) (emin prec emax))
  | _ => False
  end.
Proof.
  intros Hm He Hmag. unfold binary_round_aux.
  destruct (shr_fexp prec emax m e l) as [mrs1 e1] eqn:H1.
  destruct (shr_fexp_bounds _ _ _ _ _ Hm H1) as (Hm1 & He1 & Hd1).
  set (m2 := round_nearest_even (shr_m mrs1) (loc_of_shr_record mrs1)).
  pose proof (round_nearest_even_bounds (shr_m mrs1) (loc_of_shr_record mrs1)) as Hm2.
  fold m2 in Hm2.
  assert (Hd2 : Zdigits2 m2 <= Zdigits2 (shr_m mrs1) + 1).
  { etransitivity; [apply (Zdigits2_mono m2 (shr_m mrs1 + 1)); lia|].
    apply Zdigits2_succ; assumption. }
  destruct (shr_fexp prec emax m2 e1 loc_Exact) as [mrs2 e2] eqn:H2.
  assert (Hm2' : 0 <= m2) by lia.
  destruct (shr_fexp_bounds _ _ _ _ _ Hm2' H2) as (Hm3 & He2 & Hd3).
  unfold fexp, emin, prec, emax in *.
  destruct (shr_m mrs2) as [|m3|m3] eqn:Hm3'; [reflexivity | | lia].
  assert (e2 <= 971) by lia.
  destruct (Z.leb_spec e2 (1024 - 53)) as [_|?]; [|lia].
  split; [reflexivity|]. split; [lia|].
  pose proof (Zdigits2_pos (Z.pos m3) ltac:(lia)).
  pose proof (Zdigits2_nonneg (shr_m mrs1)).
  split; lia.
Qed.

Lemma digits2_pos_iter_xO (m d : positive) :
  digits2_pos (Pos.iter xO m d) = (digits2_pos m + d)%positive.
Proof.
  apply (Pos.iter_ind _ xO m
           (fun p a => digits2_pos a = (digits2_pos m + p)%positive)).
  - simpl. lia.
  - intros p a IH. simpl. rewrite IH. lia.
Qed.

(** ** The quotient [1 / n] *)

Lemma div_eucl_div_mod (a b q r : Z) :
  Z.div_eucl a b = (q, r) -> q = a / b /\ r = a mod b.
Proof.
  intros H. unfold Z.div, Z.modulo. rewrite H. auto.
Qed.

Lemma new_location_below_half (n r : Z) :
  0 < r -> 2 * r + 1 < n -> new_location n r = loc_Inexact Lt.
Proof.
  intros Hr Hn. unfold new_location, new_location_even, new_location_odd.
  assert (Hr0 : Z.eqb r 0 = false) by (apply Z.eqb_neq; lia).
  destruct (IntDef.Z.even n); cbv beta;
    change (IntDef.Z.eqb r 0) with (Z.eqb r 0); rewrite Hr0.
  - destruct (Z.compare_spec (2 * r) n); try reflexivity; lia.
  - destruct (Z.compare_spec (2 * r + 1) n); try reflexivity; lia.
Qed.

(** [1 / n] is [0.0] or a positive float of magnitude about [1 / n]: with
    [d] the number of binary digits of [n], it is below [2^(3 - d)]. *)
Lemma truediv_one (n : Z) :
  0 < n ->
  exists p, truediv 1 n = Returned p /\
    (p = fzero \/
     exists m e, p = S754_finite false m e /\ e <= 0
                 /\ Zdigits2 (Z.pos m) + e + Zdigits2 n <= 3).
Proof.
  intros Hn. unfold truediv.
  destruct (Z.eqb_spec n 0) as [?|_]; [lia|].
  change (1 =? 0) with false. cbv iota.
  unfold SFdiv_core_binary.
  change (Zdigits2 1) with 1.
  pose proof (Zdigits2_pos n Hn) as Hdn.
  pose proof (Zdigits2_ge n Hn) as Hge.
  set (dn := Zdigits2 n) in *.
  set (e' := Z.min (fexp prec emax (1 + 0 - (dn + 0))) (0 - 0)).
  assert (He' : e' = Z.max (- 52 - dn) (- 1074)).
  { unfold e', fexp, emin, prec, emax. lia. }
  destruct (0 - 0 - e') as [|s|s] eqn:Hs; try lia.
  rewrite Z.shiftl_1_l.
  destruct (Z.div_eucl (2 ^ Z.pos s) n) as [q r] eqn:Hqr.
  apply div_eucl_div_mod in Hqr. destruct Hqr as [Hq Hr].
  assert (Hpow : 0 < 2 ^ Z.pos s) by (apply Z.pow_pos_nonneg; lia).
  assert (Hq0 : 0 <= q) by (subst q; apply Z.div_pos; lia).
  eexists. split; [reflexivity|].
  destruct (Z_le_gt_dec dn 1076) as [Hsmall|Hbig].
  - (* the quotient has at most [s - dn + 2] digits *)
    assert (Hdq : Zdigits2 q + e' <= Z.max (2 - dn) e').
    { destruct (Z.eq_dec q 0) as [->|Hqne]; [simpl; lia|].
      assert (Hqn : q * n <= 2 ^ Z.pos s).
      { subst q. rewrite Z.mul_comm. apply Z.mul_div_le. lia. }
      assert (Hsd : dn - 1 <= Z.pos s).
      { destruct (Z_le_gt_dec (dn - 1) (Z.pos s)) as [?|Hgt]; [assumption|].
        assert (2 ^ Z.pos s < 2 ^ (dn - 1)) by (apply Z.pow_lt_mono_r; lia).
        nia. }
      assert (Zdigits2 q <= Z.pos s - dn + 2); [|lia].
      apply Zdigits2_le; [lia | lia |].
      destruct (Z_lt_ge_dec q (2 ^ (Z.pos s - dn + 2))) as [?|Hbigq]; [assumption|].
      exfalso.
      assert (Hsplit : 2 ^ (Z.pos s - dn + 2) * 2 ^ (dn - 1) = 2 * 2 ^ Z.pos s).
      { rewrite <- Z.pow_add_r by lia.
        replace (Z.pos s - dn + 2 + (dn - 1)) with (1 + Z.pos s) by lia.
        rewrite Z.pow_add_r by lia. reflexivity. }
      assert (0 < 2 ^ (dn - 1)) by (apply Z.pow_pos_nonneg; lia).
      nia. }
    assert (He971 : e' <= emax - prec) by (unfold emax, prec; lia).
    assert (Hmag0 : Zdigits2 q + e' <= emax - 1) by (unfold emax; lia).
    pose proof (binary_round_aux_bounds false q e' (new_location n r)
                  Hq0 He971 Hmag0) as Hb.
    destruct (binary_round_aux prec emax false q e' (new_location n r))
      as [sz| | |sz mz ez]; try contradiction.
    + left. subst sz. reflexivity.
    + right. destruct Hb as (-> & _ & Hmag & Hez). exists mz, ez.
      split; [reflexivity|]. fold dn. unfold emin, prec, emax in Hmag, Hez. lia.
  - (* [n] is so large that the quotient rounds to zero *)
    left.
    assert (Hs1074 : Z.pos s = 1074) by lia.
    assert (Hnbig : 2 * 2 ^ Z.pos s + 1 < n).
    { rewrite Hs1074.
      assert (2 ^ 1076 <= 2 ^ (dn - 1)) by (apply Z.pow_le_mono_r; lia).
      assert (2 * 2 ^ 1074 + 1 < 2 ^ 1076) by (vm_compute; reflexivity).
      lia. }
    assert (Hq' : q = 0) by (subst q; apply Z.div_small; lia).
    assert (Hr' : r = 2 ^ Z.pos s) by (subst r; apply Z.mod_small; lia).
    rewrite Hq', Hr', (new_location_below_half n _ Hpow Hnbig).
    replace e' with (- 1074) by lia. reflexivity.
Qed.

(** ** Powers of two *)

Lemma pow2_pos (k : Z) : 0 <= k -> 0 < 2 ^ k.
Proof. intros. apply Z.pow_pos_nonneg; lia. Qed.

Lemma pow2_double (k : Z) : 0 < k -> 2 ^ k = 2 * 2 ^ (k - 1).
Proof.
  intros Hk. replace k with (1 + (k - 1)) at 1 by lia.
  rewrite Z.pow_add_r by lia. reflexivity.
Qed.

Lemma pow2_le (a b : Z) : 0 <= a <= b -> 2 ^ a <= 2 ^ b.
Proof. intros. apply Z.pow_le_mono_r; lia. Qed.

Lemma pow2_lt (a b : Z) : 0 <= a < b -> 2 ^ a < 2 ^ b.
Proof. intros. apply Z.pow_lt_mono_r; lia. Qed.

Lemma pow2_split (a b : Z) : 0 <= a <= b -> 2 ^ b = 2 ^ (b - a) * 2 ^ a.
Proof.
  intros. rewrite <- Z.pow_add_r by lia. f_equal. lia.
Qed.

Lemma pow2_divide (a b : Z) : 0 <= a <= b -> (2 ^ a | 2 ^ b).
Proof. intros H. exists (2 ^ (b - a)). apply pow2_split. exact H. Qed.

(** A non-zero multiple of [2^k] is at least [2^k]. *)
Lemma multiple_ge (k w : Z) : 0 <= k -> (2 ^ k | w) -> w <> 0 -> 2 ^ k <= Z.abs w.
Proof.
  intros Hk [c ->] Hne. pose proof (pow2_pos k Hk).
  assert (c <> 0) by (intros ->; lia).
  rewrite Z.abs_mul, (Z.abs_eq (2 ^ k)) by lia. nia.
Qed.

(** Between two consecutive multiples there is no multiple. *)
Lemma multiple_gap (k c w : Z) :
  0 <= k -> (2 ^ k | w) -> c * 2 ^ k < w -> (c + 1) * 2 ^ k <= w.
Proof.
  intros Hk [c' ->] H. pose proof (pow2_pos k Hk).
  assert (c < c') by (apply (Z.mul_lt_mono_pos_r (2 ^ k)); assumption).
  apply Z.mul_le_mono_nonneg_r; lia.
Qed.

(** ** Binary digits of an integer *)

Lemma Zdigits2_pos_log2 (m : Z) : 0 < m -> Zdigits2 m = Z.succ (Z.log2 m).
Proof. intros Hm. destruct m; try lia. apply Zdigits2_log2. Qed.

Lemma Zdigits2_scale (m d : Z) :
  0 < m -> 0 <= d -> Zdigits2 (m * 2 ^ d) = Zdigits2 m + d.
Proof.
  intros Hm Hd.
  assert (0 < 2 ^ d) by (apply Z.pow_pos_nonneg; lia).
  rewrite !Zdigits2_pos_log2 by nia.
  rewrite Z.log2_mul_pow2 by lia. lia.
Qed.

(** The number of digits is determined by the two surrounding powers. *)
Lemma Zdigits2_unique (m d : Z) :
  0 < d -> 2 ^ (d - 1) <= m < 2 ^ d -> Zdigits2 m = d.
Proof.
  intros Hd [H1 H2].
  assert (Hm : 0 < m) by (pose proof (pow2_pos (d - 1)); lia).
  pose proof (Zdigits2_le m d ltac:(lia) ltac:(lia) H2).
  pose proof (Zdigits2_gt m ltac:(lia)).
  pose proof (Zdigits2_pos m Hm).
  destruct (Z_lt_ge_dec (Zdigits2 m) d) as [Hlt|]; [|lia].
  pose proof (pow2_le (Zdigits2 m) (d - 1) ltac:(lia)). lia.
Qed.

Lemma Zdigits2_pow2 (k : Z) : 0 <= k -> Zdigits2 (2 ^ k) = k + 1.
Proof.
  intros Hk. apply Zdigits2_unique; [lia|].
  replace (k + 1 - 1) with k by lia.
  pose proof (pow2_lt k (k + 1)). lia.
Qed.

Lemma Zdigits2_small (m : Z) : 0 <= m < 2 ^ 53 -> Zdigits2 m <= 53.
Proof. intros [H1 H2]. apply Zdigits2_le; lia. Qed.

Lemma Zdigits2_large (m : Z) : 2 ^ 53 <= m -> 53 < Zdigits2 m.
Proof.
  intros H. pose proof (Zdigits2_gt m ltac:(lia)).
  pose proof (Zdigits2_nonneg m).
  destruct (Z_lt_ge_dec 53 (Zdigits2 m)); [assumption|].
  pose proof (pow2_le (Zdigits2 m) 53). lia.
Qed.

(** ** Rounding a quotient to nearest, ties to even *)

Lemma rne_bounds (m k : Z) : m / 2 ^ k <= rne m k <= m / 2 ^ k + 1.
Proof.
  unfold rne. destruct (_ <? _); [lia|].
  destruct (_ <? _); [lia|]. destruct (Z.even _); lia.
Qed.

(** What [rne] returns: a nearest multiple, the even one at a tie. *)
Lemma rne_char (m k : Z) :
  0 < k ->
  2 * Z.abs (m - rne m k * 2 ^ k) <= 2 ^ k
  /\ (2 * Z.abs (m - rne m k * 2 ^ k) = 2 ^ k -> Z.even (rne m k) = true).
Proof.
  intros Hk. unfold rne.
  pose proof (pow2_pos k ltac:(lia)) as Hp.
  pose proof (pow2_double k Hk) as Hh.
  pose proof (Z.div_mod m (2 ^ k) ltac:(lia)) as Hm.
  pose proof (Z.mod_pos_bound m (2 ^ k) Hp) as Hr.
  set (q := m / 2 ^ k) in *. set (r := m mod 2 ^ k) in *.
  set (h := 2 ^ (k - 1)) in *.
  destruct (Z.ltb_spec r h); [split; [lia | intros; lia]|].
  destruct (Z.ltb_spec h r); [split; [lia | intros; lia]|].
  destruct (Z.even q) eqn:Hev; [split; [lia | auto]|].
  split; [lia|]. intros _.
  rewrite Z.even_add, Hev. reflexivity.
Qed.

(** ... and nothing else does. *)
Lemma rne_unique (m k c : Z) :
  0 < k ->
  2 * Z.abs (m - c * 2 ^ k) <= 2 ^ k ->
  (2 * Z.abs (m - c * 2 ^ k) = 2 ^ k -> Z.even c = true) ->
  rne m k = c.
Proof.
  intros Hk Hnear Htie.
  destruct (rne_char m k Hk) as [Hn Ht].
  pose proof (pow2_pos k ltac:(lia)) as Hp.
  set (c' := rne m k) in *.
  destruct (Z.eq_dec c' c) as [|Hne]; [assumption|exfalso].
  assert (Hcc : c' = c + 1 \/ c' = c - 1) by nia.
  assert (Hev : Z.even c' = negb (Z.even c)).
  { destruct Hcc as [-> | ->].
    - rewrite Z.even_add. destruct (Z.even c); reflexivity.
    - rewrite Z.even_sub. destruct (Z.even c); reflexivity. }
  assert (H1 : 2 * Z.abs (m - c * 2 ^ k) = 2 ^ k) by nia.
  assert (H2 : 2 * Z.abs (m - c' * 2 ^ k) = 2 ^ k) by nia.
  rewrite (Ht H2), (Htie H1) in Hev. discriminate.
Qed.

Lemma rne_exact (m d k : Z) :
  0 < k <= d -> rne (m * 2 ^ d) k = m * 2 ^ (d - k).
Proof.
  intros Hk. apply rne_unique; [lia| |].
  - rewrite <- Z.mul_assoc, <- Z.pow_add_r by lia.
    replace (d - k + k) with d by lia.
    pose proof (pow2_pos k). lia.
  - rewrite <- Z.mul_assoc, <- Z.pow_add_r by lia.
    replace (d - k + k) with d by lia.
    pose proof (pow2_pos k). lia.
Qed.

(** ** Rounding an integer to 53 significant digits *)

Lemma rnd_small (n : Z) : 0 <= n < 2 ^ 53 -> rnd n = n.
Proof.
  intros H. unfold rnd. pose proof (Zdigits2_small n H).
  destruct (Z.leb_spec (Zdigits2 n) 53); [reflexivity | lia].
Qed.

Lemma RN_small (v : Z) : Z.abs v < 2 ^ 53 -> RN v = v.
Proof.
  intros H. unfold RN. rewrite rnd_small by lia.
  destruct v; simpl; lia.
Qed.

Lemma RN_opp (v : Z) : RN (- v) = - RN v.
Proof. unfold RN. rewrite Z.sgn_opp, Z.abs_opp. ring. Qed.

Lemma RN_nonneg_eq (v : Z) : 0 <= v -> RN v = rnd v.
Proof.
  intros H. unfold RN. rewrite Z.abs_eq by lia.
  destruct (Z.eq_dec v 0) as [->|Hne]; [reflexivity|].
  rewrite Z.sgn_pos by lia. ring.
Qed.

(** The size of a number of more than 53 digits. *)
Lemma large_size (n : Z) :
  2 ^ 53 <= n ->
  let k := Zdigits2 n - 53 in
  0 < k /\ 2 ^ (k + 52) <= n < 2 ^ (k + 53).
Proof.
  intros H k. pose proof (Zdigits2_large n H).
  pose proof (Zdigits2_ge n ltac:(lia)). pose proof (Zdigits2_gt n ltac:(lia)).
  subst k. replace (Zdigits2 n - 53 + 52) with (Zdigits2 n - 1) by lia.
  replace (Zdigits2 n - 53 + 53) with (Zdigits2 n) by lia. lia.
Qed.

Lemma rne_large (n k : Z) :
  0 < k -> 2 ^ (k + 52) <= n < 2 ^ (k + 53) -> 2 ^ 52 <= rne n k <= 2 ^ 53.
Proof.
  intros Hk [H1 H2]. pose proof (rne_bounds n k) as Hb.
  pose proof (pow2_pos k ltac:(lia)) as Hp.
  assert (2 ^ 52 <= n / 2 ^ k).
  { apply Z.div_le_lower_bound; [lia|].
    rewrite <- Z.pow_add_r by lia. replace (52 + k) with (k + 52) by lia. exact H1. }
  assert (n / 2 ^ k < 2 ^ 53).
  { apply Z.div_lt_upper_bound; [lia|].
    rewrite <- Z.pow_add_r by lia. exact H2. }
  lia.
Qed.

(** The rounding of a number of more than 53 digits, in one statement. *)
Lemma RN_grid (v : Z) :
  2 ^ 53 <= Z.abs v ->
  exists k c,
    k = Zdigits2 (Z.abs v) - 53 /\ 0 < k
    /\ RN v = c * 2 ^ k
    /\ 2 * Z.abs (v - c * 2 ^ k) <= 2 ^ k
    /\ (2 * Z.abs (v - c * 2 ^ k) = 2 ^ k -> Z.even c = true)
    /\ 2 ^ 52 <= Z.abs c <= 2 ^ 53
    /\ Z.sgn c = Z.sgn v
    /\ 2 ^ (k + 52) <= Z.abs v < 2 ^ (k + 53).
Proof.
  intros H. destruct (large_size (Z.abs v) H) as [Hk Hsize].
  set (k := Zdigits2 (Z.abs v) - 53) in *.
  destruct (rne_char (Z.abs v) k Hk) as [Hn Ht].
  pose proof (rne_large _ _ Hk Hsize) as Hc.
  exists k, (Z.sgn v * rne (Z.abs v) k).
  split; [reflexivity|]. split; [exact Hk|].
  assert (Hrn : RN v = Z.sgn v * rne (Z.abs v) k * 2 ^ k).
  { unfold RN, rnd. fold k.
    destruct (Z.leb_spec (Zdigits2 (Z.abs v)) 53); [lia | ring]. }
  split; [exact Hrn|].
  set (c := rne (Z.abs v) k) in *.
  assert (Habs : Z.abs (v - Z.sgn v * c * 2 ^ k) = Z.abs (Z.abs v - c * 2 ^ k)).
  { destruct (Z.abs_spec v) as [[? ->]|[? ->]].
    - rewrite Z.sgn_pos by lia. f_equal. ring.
    - rewrite Z.sgn_neg by lia.
      replace (v - -1 * c * 2 ^ k) with (- (- v - c * 2 ^ k)) by ring.
      apply Z.abs_opp. }
  rewrite Habs. split; [exact Hn|]. split.
  - intros Htie. specialize (Ht Htie).
    destruct (Z.sgn_spec v) as [[? ->]|[[? ->]|[? ->]]].
    + rewrite Z.mul_1_l. exact Ht.
    + reflexivity.
    + replace (-1 * c) with (- c) by ring. rewrite Z.even_opp. exact Ht.
  - split; [|split; [|exact Hsize]].
    + assert (0 < 2 ^ 53) by (apply pow2_pos; lia).
      destruct (Z.sgn_spec v) as [[? ->]|[[? ->]|[? ->]]]; lia.
    + assert (0 < 2 ^ 52) by (apply pow2_pos; lia).
      destruct (Z.sgn_spec v) as [[? ->]|[[? ->]|[? ->]]].
      * rewrite Z.mul_1_l. apply Z.sgn_pos. lia.
      * assert (0 < 2 ^ 53) by (apply pow2_pos; lia). lia.
      * replace (-1 * c) with (- c) by ring. apply Z.sgn_neg. lia.
Qed.

(** A multiple of [2^k] within half a step of [v] is the rounding of [v]. *)
Lemma RN_unique (v c : Z) :
  2 ^ 53 <= Z.abs v ->
  let k := Zdigits2 (Z.abs v) - 53 in
  2 * Z.abs (v - c * 2 ^ k) <= 2 ^ k ->
  (2 * Z.abs (v - c * 2 ^ k) = 2 ^ k -> Z.even c = true) ->
  RN v = c * 2 ^ k.
Proof.
  intros H k Hn Ht.
  destruct (large_size (Z.abs v) H) as [Hk Hsize]. fold k in Hk, Hsize.
  assert (Hrn : RN v = Z.sgn v * rne (Z.abs v) k * 2 ^ k).
  { unfold RN, rnd. fold k.
    destruct (Z.leb_spec (Zdigits2 (Z.abs v)) 53); [lia | ring]. }
  rewrite Hrn. f_equal.
  assert (0 < 2 ^ 53) by (apply pow2_pos; lia).
  destruct (Z.abs_spec v) as [[Hv Ha]|[Hv Ha]]; rewrite Ha in *.
  - rewrite Z.sgn_pos by lia. rewrite Z.mul_1_l.
    apply rne_unique; assumption.
  - rewrite Z.sgn_neg by lia.
    assert (rne (- v) k = - c); [|lia].
    apply rne_unique; [assumption| |].
    + replace (- v - - c * 2 ^ k) with (- (v - c * 2 ^ k)) by ring.
      rewrite Z.abs_opp. exact Hn.
    + replace (- v - - c * 2 ^ k) with (- (v - c * 2 ^ k)) by ring.
      rewrite Z.abs_opp, Z.even_opp. exact Ht.
Qed.

(** ** Integers of at most 53 significant digits *)

(** A multiple of [2^j] of at most 53 digits above [2^j] is in the format. *)
Lemma format_intro (j w : Z) :
  0 <= j -> (2 ^ j | w) -> Z.abs w <= 2 ^ (j + 53) -> format w.
Proof.
  intros Hj Hdiv Hle. unfold format.
  destruct (Z_lt_ge_dec (Z.abs w) (2 ^ 53)) as [Hs|Hl]; [apply RN_small; exact Hs|].
  assert (Hl' : 2 ^ 53 <= Z.abs w) by lia.
  destruct (large_size (Z.abs w) Hl') as [Hk Hsize].
  set (k := Zdigits2 (Z.abs w) - 53) in *.
  assert (Hdk : (2 ^ k | w)).
  { destruct (Z.eq_dec (Z.abs w) (2 ^ (j + 53))) as [Heq|Hne].
    - assert (k = j + 1).
      { destruct (Z_lt_ge_dec (j + 1) k).
        - pose proof (pow2_lt (j + 53) (k + 52)). lia.
        - destruct (Z_lt_ge_dec k (j + 1)); [|lia].
          pose proof (pow2_le (k + 53) (j + 53)). lia. }
      apply Z.divide_abs_r. rewrite Heq. apply pow2_divide. lia.
    - assert (k <= j).
      { destruct (Z_le_gt_dec k j); [assumption|].
        pose proof (pow2_le (j + 53) (k + 52)). lia. }
      eapply Z.divide_trans; [apply (pow2_divide k j); lia | exact Hdiv]. }
  destruct Hdk as [c Hc].
  assert (Hrn : RN w = c * 2 ^ k).
  { pose proof (pow2_pos k ltac:(lia)).
    apply RN_unique; [exact Hl' | fold k | fold k]; rewrite <- Hc;
      rewrite Z.sub_diag; simpl; lia. }
  lia.
Qed.

Lemma format_canonical (w : Z) :
  format w -> 2 ^ 53 <= Z.abs w -> (2 ^ (Zdigits2 (Z.abs w) - 53) | w).
Proof.
  intros Hf Hl. destruct (RN_grid w Hl) as (k & c & -> & _ & Hrn & _).
  rewrite Hf in Hrn. exists c. exact Hrn.
Qed.

Lemma format_elim (w : Z) :
  format w -> exists j, 0 <= j /\ (2 ^ j | w) /\ Z.abs w < 2 ^ (j + 53).
Proof.
  intros Hf.
  destruct (Z_lt_ge_dec (Z.abs w) (2 ^ 53)) as [Hs|Hl].
  - exists 0. split; [lia|]. split; [apply Z.divide_1_l | exact Hs].
  - assert (Hl' : 2 ^ 53 <= Z.abs w) by lia.
    destruct (large_size (Z.abs w) Hl') as [Hk Hsize].
    exists (Zdigits2 (Z.abs w) - 53).
    split; [lia|]. split; [apply format_canonical; assumption | lia].
Qed.

Lemma format_0 : format 0.
Proof. reflexivity. Qed.

Lemma format_opp (w : Z) : format w -> format (- w).
Proof. unfold format. intros H. rewrite RN_opp, H. reflexivity. Qed.

Lemma format_pow2 (j : Z) : 0 <= j -> format (2 ^ j).
Proof.
  intros Hj. apply (format_intro j); [lia | apply Z.divide_refl |].
  pose proof (pow2_pos j Hj). pose proof (pow2_le j (j + 53)). lia.
Qed.

Lemma RN_format (v : Z) : format (RN v).
Proof.
  destruct (Z_lt_ge_dec (Z.abs v) (2 ^ 53)) as [Hs|Hl].
  - unfold format. rewrite (RN_small v Hs). apply RN_small. exact Hs.
  - destruct (RN_grid v ltac:(lia)) as (k & c & _ & Hk & -> & _ & _ & Hc & _).
    apply (format_intro k); [lia | exists c; reflexivity |].
    pose proof (pow2_pos k ltac:(lia)).
    rewrite Z.abs_mul, (Z.abs_eq (2 ^ k)) by lia.
    rewrite (Z.add_comm k 53), Z.pow_add_r by lia. nia.
Qed.

Lemma RN_sgn (v : Z) : Z.sgn (RN v) = Z.sgn v.
Proof.
  destruct (Z_lt_ge_dec (Z.abs v) (2 ^ 53)) as [Hs|Hl].
  - rewrite (RN_small v Hs). reflexivity.
  - destruct (RN_grid v ltac:(lia)) as (k & c & _ & Hk & -> & _ & _ & _ & Hsg & _).
    rewrite Z.sgn_mul, (Z.sgn_pos (2 ^ k)) by (apply pow2_pos; lia). lia.
Qed.

(** Rounding keeps the powers of two that divide the number. *)
Lemma RN_divide (g v : Z) : 0 <= g -> (2 ^ g | v) -> (2 ^ g | RN v).
Proof.
  intros Hg Hdiv.
  destruct (Z_lt_ge_dec (Z.abs v) (2 ^ 53)) as [Hs|Hl].
  - rewrite (RN_small v Hs). exact Hdiv.
  - assert (Hl' : 2 ^ 53 <= Z.abs v) by lia.
    destruct (RN_grid v Hl') as (k & c & Hkdef & Hk & Hrn & _ & _ & _ & _ & Hsize).
    destruct (Z_le_gt_dec g k) as [Hgk|Hgk].
    + rewrite Hrn. apply Z.divide_mul_r. apply pow2_divide. lia.
    + assert (Hf : format v).
      { apply (format_intro k); [lia| |lia].
        eapply Z.divide_trans; [apply (pow2_divide k g); lia | exact Hdiv]. }
      rewrite Hf. exact Hdiv.
Qed.

(** The rounding is a nearest number of the format. *)
Lemma RN_nearest_pos (v w : Z) :
  0 <= v -> format w -> Z.abs (v - RN v) <= Z.abs (v - w).
Proof.
  intros Hv Hw.
  destruct (Z_lt_ge_dec (Z.abs v) (2 ^ 53)) as [Hs|Hl].
  { rewrite (RN_small v Hs). lia. }
  rewrite Z.abs_eq in Hl by lia.
  destruct (RN_grid v ltac:(lia)) as (k & c & Hkdef & Hk & Hrn & Hn & _ & Hc & _ & Hsize).
  rewrite Z.abs_eq in Hsize by lia.
  rewrite Hrn.
  pose proof (pow2_pos k ltac:(lia)) as Hp.
  assert (Hp52 : 2 ^ (k + 52) = 2 ^ 52 * 2 ^ k).
  { rewrite <- Z.pow_add_r by lia. f_equal. lia. }
  (* [c] is nearest among all the multiples of [2^k] *)
  assert (Hgrid : forall c', Z.abs (v - c * 2 ^ k) <= Z.abs (v - c' * 2 ^ k)).
  { intros c'. destruct (Z.eq_dec c' c) as [->|Hne]; [lia|]. nia. }
  destruct (Z_lt_ge_dec w (2 ^ (k + 52))) as [Hsmall|Hbig].
  - specialize (Hgrid (2 ^ 52)). rewrite <- Hp52 in Hgrid. lia.
  - assert (Hw53 : 2 ^ 53 <= Z.abs w).
    { pose proof (pow2_le 53 (k + 52)). lia. }
    pose proof (format_canonical w Hw Hw53) as Hcan.
    assert (Hkw : k <= Zdigits2 (Z.abs w) - 53).
    { rewrite Z.abs_eq by lia. rewrite Hkdef, Z.abs_eq by lia.
      pose proof (Zdigits2_gt w ltac:(lia)).
      pose proof (Zdigits2_nonneg w).
      destruct (Z_le_gt_dec (Zdigits2 v) (Zdigits2 w)); [lia|].
      pose proof (pow2_le (Zdigits2 w) (Zdigits2 v - 1)).
      replace (k + 52) with (Zdigits2 v - 1) in Hbig by (rewrite Z.abs_eq in Hkdef; lia).
      lia. }
    assert (Hdw : (2 ^ k | w)).
    { eapply Z.divide_trans;
        [apply (pow2_divide k (Zdigits2 (Z.abs w) - 53)); lia | exact Hcan]. }
    destruct Hdw as [c' ->]. apply Hgrid.
Qed.

(** No integer of the format is nearer to [v] than [RN v]. *)
Lemma RN_nearest (v w : Z) : format w -> Z.abs (v - RN v) <= Z.abs (v - w).
Proof.
  intros Hw. destruct (Z_le_gt_dec 0 v) as [Hv|Hv].
  - apply RN_nearest_pos; assumption.
  - pose proof (RN_nearest_pos (- v) (- w) ltac:(lia) (format_opp w Hw)) as H.
    rewrite RN_opp in H. lia.
Qed.

(** Rounding is monotone. *)
Lemma RN_mono (v w : Z) : v <= w -> RN v <= RN w.
Proof.
  intros Hvw.
  pose proof (RN_nearest v (RN w) (RN_format w)).
  pose proof (RN_nearest w (RN v) (RN_format v)).
  destruct (Z_le_gt_dec (RN v) (RN w)) as [|Hgt]; [assumption|].
  assert (v = w) by lia. subst. lia.
Qed.

Lemma RN_id (w : Z) : format w -> RN w = w.
Proof. auto. Qed.

(** The rounding of a number between two numbers of the format. *)
Lemma RN_between (a v b : Z) :
  format a -> format b -> a <= v <= b -> a <= RN v <= b.
Proof.
  intros Ha Hb [H1 H2].
  pose proof (RN_mono a v H1). pose proof (RN_mono v b H2).
  rewrite Ha in *. rewrite Hb in *. lia.
Qed.

(** Rounding does not cross a power of two. *)
Lemma RN_abs_le_pow2 (v j : Z) : 0 <= j -> Z.abs v <= 2 ^ j -> Z.abs (RN v) <= 2 ^ j.
Proof.
  intros Hj Hv.
  pose proof (RN_between (- 2 ^ j) v (2 ^ j)
                (format_opp _ (format_pow2 j Hj)) (format_pow2 j Hj)). lia.
Qed.

(** The rounding error is at most half of a power of two that divides the
    rounded number; when the rounding is not exact, the rounded number has
    53 digits above that power. *)
Lemma RN_error (v : Z) :
  exists u, 0 <= u /\ (2 ^ u | RN v)
            /\ 2 * Z.abs (v - RN v) <= 2 ^ u
            /\ (RN v <> v -> 0 < u /\ 2 ^ (u + 52) <= Z.abs (RN v)).
Proof.
  destruct (Z_lt_ge_dec (Z.abs v) (2 ^ 53)) as [Hs|Hl].
  - exists 0. rewrite (RN_small v Hs).
    split; [lia|]. split; [apply Z.divide_1_l|].
    split; [simpl; lia | congruence].
  - destruct (RN_grid v ltac:(lia)) as (k & c & _ & Hk & Hrn & Hn & _ & Hc & _ & _).
    exists k. rewrite Hrn.
    split; [lia|]. split; [exists c; reflexivity|]. split; [exact Hn|].
    intros _. split; [exact Hk|].
    pose proof (pow2_pos k ltac:(lia)).
    rewrite Z.abs_mul, (Z.abs_eq (2 ^ k)) by lia.
    rewrite (Z.add_comm k 52), Z.pow_add_r by lia. nia.
Qed.

(** ** The error of a rounded addition *)

Lemma format_small (w : Z) : Z.abs w < 2 ^ 53 -> format w.
Proof. apply RN_small. Qed.

Lemma format_double (a : Z) : format a -> format (2 * a).
Proof.
  intros Ha. destruct (format_elim a Ha) as (j & Hj & [c Hc] & Hlt).
  apply (format_intro (j + 1)); [lia| |].
  - exists c. rewrite Z.pow_add_r by lia. lia.
  - replace (j + 1 + 53) with (j + 53 + 1) by lia.
    rewrite Z.pow_add_r by lia. lia.
Qed.

(** The digits of a larger number of the format give a divisor of it. *)
Lemma format_divide_ge (a w : Z) :
  format w -> 2 ^ 53 <= Z.abs a -> Z.abs a <= Z.abs w ->
  (2 ^ (Zdigits2 (Z.abs a) - 53) | w).
Proof.
  intros Hw Ha Haw.
  pose proof (format_canonical w Hw ltac:(lia)) as Hcan.
  pose proof (Zdigits2_mono (Z.abs a) (Z.abs w) ltac:(lia)).
  pose proof (Zdigits2_large _ Ha).
  eapply Z.divide_trans; [|exact Hcan].
  apply pow2_divide. lia.
Qed.

(** The error of a rounded addition is a number of the format. *)
Lemma add_error_format (a b : Z) :
  format a -> format b -> format (a + b - RN (a + b)).
Proof.
  intros Ha Hb.
  pose proof (RN_nearest (a + b) a Ha) as H1.
  pose proof (RN_nearest (a + b) b Hb) as H2.
  destruct (format_elim a Ha) as (ja & Hja & Hda & Hla).
  destruct (format_elim b Hb) as (jb & Hjb & Hdb & Hlb).
  set (g := Z.min ja jb).
  assert (Hga : (2 ^ g | a)).
  { eapply Z.divide_trans; [apply (pow2_divide g ja); lia | exact Hda]. }
  assert (Hgb : (2 ^ g | b)).
  { eapply Z.divide_trans; [apply (pow2_divide g jb); lia | exact Hdb]. }
  assert (Hgs : (2 ^ g | a + b)) by (apply Z.divide_add_r; assumption).
  pose proof (RN_divide g (a + b) ltac:(lia) Hgs) as Hgh.
  apply (format_intro g); [lia | apply Z.divide_sub_r; assumption|].
  destruct (Z.min_spec ja jb) as [[_ Hg]|[_ Hg]]; fold g in Hg; rewrite Hg; lia.
Qed.

Lemma sub_format_pos (a b : Z) :
  format a -> format b -> 0 < a -> Z.abs b <= a -> format (RN (a + b) - a).
Proof.
  intros Ha Hb Hpos Hba.
  set (s := a + b). set (hi := RN s).
  assert (H53 : 0 < 2 ^ 53) by (apply pow2_pos; lia).
  assert (Hrange : 0 <= hi <= 2 * a).
  { apply RN_between; [apply format_0 | apply format_double; exact Ha | subst s; lia]. }
  destruct (Z.eq_dec hi s) as [Hexact|Hinexact].
  { replace (hi - a) with b by (subst s; lia). exact Hb. }
  destruct (Z_lt_ge_dec a (2 ^ 53)) as [Hsmall|Hlarge].
  { apply format_small. lia. }
  assert (Hla : 2 ^ 53 <= Z.abs a) by lia.
  destruct (large_size (Z.abs a) Hla) as [Hka Hsa].
  pose proof (format_canonical a Ha Hla) as Hcana.
  set (ka := Zdigits2 (Z.abs a) - 53) in *.
  rewrite Z.abs_eq in Hsa by lia.
  destruct (Z_le_gt_dec a hi) as [Hge|Hlt].
  - (* the sum is not below [a] *)
    apply (format_intro ka); [lia| |lia].
    apply Z.divide_sub_r; [|exact Hcana].
    apply format_divide_ge; [apply RN_format | exact Hla | lia].
  - destruct (Z_le_gt_dec a (2 * hi)) as [Hhalf|Hfar].
    + (* the sum is between [a / 2] and [a] *)
      destruct (Z_lt_ge_dec hi (2 ^ 53)) as [Hhs|Hhl].
      { apply format_small. lia. }
      assert (Hlh : 2 ^ 53 <= Z.abs hi) by lia.
      destruct (large_size (Z.abs hi) Hlh) as [Hkh Hsh].
      pose proof (format_canonical hi (RN_format s) Hlh) as Hcanh.
      set (kh := Zdigits2 (Z.abs hi) - 53) in *.
      rewrite Z.abs_eq in Hsh by lia.
      apply (format_intro kh); [lia| |lia].
      apply Z.divide_sub_r; [exact Hcanh|].
      apply format_divide_ge; [exact Ha | exact Hlh | lia].
    + (* the sum cannot be below [a / 2] without being exact *)
      exfalso.
      assert (Hs53 : 2 ^ 53 <= Z.abs s).
      { destruct (Z_lt_ge_dec (Z.abs s) (2 ^ 53)) as [Hss|]; [exfalso|lia].
        apply Hinexact. apply RN_small. exact Hss. }
      assert (Hbneg : b < 0).
      { destruct (Z_lt_ge_dec b 0); [assumption|].
        pose proof (RN_mono a s ltac:(subst s; lia)) as Hm.
        rewrite Ha in Hm. lia. }
      destruct (format_elim b Hb) as (jb & Hjb & Hdb & Hlb).
      set (g := Z.min ka jb).
      assert (Hgs : (2 ^ g | s)).
      { apply Z.divide_add_r.
        - eapply Z.divide_trans; [apply (pow2_divide g ka); lia | exact Hcana].
        - eapply Z.divide_trans; [apply (pow2_divide g jb); lia | exact Hdb]. }
      assert (Hsbig : 2 ^ (g + 53) < Z.abs s).
      { destruct (Z_lt_ge_dec (2 ^ (g + 53)) (Z.abs s)); [assumption|].
        exfalso. apply Hinexact. apply (format_intro g); [lia | exact Hgs | lia]. }
      destruct (Z.min_spec ka jb) as [[_ Hg]|[_ Hg]]; fold g in Hg; rewrite Hg in *.
      * subst s. lia.
      * (* [a > 2|b|], so the sum is above [a / 2] *)
        destruct Hcana as [c Hc].
        assert (Heven : a = 2 * (c * 2 ^ (ka - 1))).
        { rewrite Hc. rewrite (pow2_double ka) by lia. ring. }
        set (h := c * 2 ^ (ka - 1)) in *.
        assert (Hfh : format h).
        { apply (format_intro (ka - 1)); [lia | exists c; reflexivity|].
          replace (ka - 1 + 53) with (ka + 52) by lia.
          assert (2 ^ (ka + 53) = 2 * 2 ^ (ka + 52)).
          { rewrite (pow2_double (ka + 53)) by lia. do 2 f_equal. lia. }
          lia. }
        pose proof (RN_mono h s ltac:(subst s; lia)) as Hm.
        rewrite Hfh in Hm. fold hi in Hm. lia.
Qed.

(** The two subtractions of the two-sum are exact. *)
Lemma two_sum_exact (a b : Z) :
  format a -> format b -> Z.abs b <= Z.abs a ->
  format (RN (a + b) - a) /\ format (a + b - RN (a + b)).
Proof.
  intros Ha Hb Hba. split; [|apply add_error_format; assumption].
  destruct (Z.lt_trichotomy a 0) as [Hneg|[->|Hpos]].
  - pose proof (sub_format_pos (- a) (- b) (format_opp a Ha) (format_opp b Hb)
                  ltac:(lia) ltac:(lia)) as H.
    replace (- a + - b) with (- (a + b)) in H by ring.
    rewrite RN_opp in H. apply format_opp in H.
    replace (- (- RN (a + b) - - a)) with (RN (a + b) - a) in H by ring.
    exact H.
  - assert (b = 0) by lia. subst b. apply format_0.
  - apply sub_format_pos; try assumption. lia.
Qed.

(** ** The partial sums of [math.fsum], on integers *)

Lemma zsum_app (l1 l2 : list Z) : zsum (l1 ++ l2) = zsum l1 + zsum l2.
Proof. induction l1 as [|a l1 IH]; simpl; [reflexivity | rewrite IH; lia]. Qed.

Lemma asum_app (l1 l2 : list Z) : asum (l1 ++ l2) = asum l1 + asum l2.
Proof. induction l1 as [|a l1 IH]; simpl; [reflexivity | rewrite IH; lia]. Qed.

Lemma asum_nonneg (l : list Z) : 0 <= asum l.
Proof. induction l as [|a l IH]; simpl; lia. Qed.

Lemma zsum_le_asum (l : list Z) : Z.abs (zsum l) <= asum l.
Proof. induction l as [|a l IH]; simpl; lia. Qed.

(** The pass keeps the sum. *)
Lemma zgrow_sum (ps : list Z) :
  forall x out x', zgrow ps x = (out, x') -> zsum out + x' = zsum ps + x.
Proof.
  induction ps as [|y ps IH]; intros x out x'; simpl.
  - intros [= <- <-]. simpl. lia.
  - destruct (zgrow ps (RN (x + y))) as [out0 x0] eqn:Hrec.
    intros [= <- <-]. specialize (IH _ _ _ Hrec).
    destruct (Z.eqb_spec (x + y - RN (x + y)) 0); simpl; lia.
Qed.

Lemma zgrow_format (ps : list Z) :
  forall x out x',
    format x -> Forall format ps -> zgrow ps x = (out, x') ->
    Forall format out /\ format x'.
Proof.
  induction ps as [|y ps IH]; intros x out x' Hx Hps; simpl.
  - intros [= <- <-]. auto.
  - apply Forall_cons in Hps. destruct Hps as [Hy Hps].
    destruct (zgrow ps (RN (x + y))) as [out0 x0] eqn:Hrec.
    intros [= <- <-].
    destruct (IH _ _ _ (RN_format (x + y)) Hps Hrec) as [Hout Hx0].
    split; [|exact Hx0].
    destruct (Z.eqb_spec (x + y - RN (x + y)) 0); [exact Hout|].
    constructor; [apply add_error_format; assumption | exact Hout].
Qed.

(** The errors are not larger than the partial sums they come from. *)
Lemma zgrow_asum (ps : list Z) :
  forall x out x',
    format x -> zgrow ps x = (out, x') -> asum out <= asum ps.
Proof.
  induction ps as [|y ps IH]; intros x out x' Hx; simpl.
  - intros [= <- <-]. simpl. lia.
  - destruct (zgrow ps (RN (x + y))) as [out0 x0] eqn:Hrec.
    intros [= <- <-]. specialize (IH _ _ _ (RN_format (x + y)) Hrec).
    pose proof (RN_nearest (x + y) x Hx).
    destruct (Z.eqb_spec (x + y - RN (x + y)) 0); simpl; lia.
Qed.

Lemma expansion_weaken (g g0 : Z) (P : list Z) :
  0 <= g0 <= g -> expansion g P -> expansion g0 P.
Proof.
  intros Hg. destruct P as [|p P]; [auto|].
  simpl. intros (Hne & Hdiv & Hrest). split; [exact Hne|]. split; [|exact Hrest].
  eapply Z.divide_trans; [apply (pow2_divide g0 g); lia | exact Hdiv].
Qed.

Lemma expansion_level (g : Z) (p : Z) (P : list Z) (g' : Z) :
  0 <= g -> p <> 0 -> (2 ^ g | p) -> 2 * Z.abs p <= 2 ^ g' -> 0 <= g' -> g < g'.
Proof.
  intros Hg Hne Hdiv Hle Hg'.
  pose proof (multiple_ge g p Hg Hdiv Hne).
  destruct (Z_lt_ge_dec g g'); [assumption|].
  pose proof (pow2_le g' g ltac:(lia)). pose proof (pow2_pos g' Hg'). lia.
Qed.

Lemma expansion_divide (g : Z) (P : list Z) :
  0 <= g -> expansion g P -> Forall (fun p => (2 ^ g | p)) P.
Proof.
  intros Hg. revert g Hg. induction P as [|p P IH]; intros g Hg; [constructor|].
  simpl. intros (Hne & Hdiv & g' & Hg' & Hle & Hrest).
  constructor; [exact Hdiv|].
  apply IH; [exact Hg|]. apply (expansion_weaken g'); [|exact Hrest].
  pose proof (expansion_level g p P g' Hg Hne Hdiv Hle Hg'). lia.
Qed.

Lemma expansion_nonzero (g : Z) (P : list Z) :
  expansion g P -> Forall (fun p => p <> 0) P.
Proof.
  revert g. induction P as [|p P IH]; intros g; [constructor|].
  simpl. intros (Hne & _ & g' & _ & _ & Hrest).
  constructor; [exact Hne | exact (IH g' Hrest)].
Qed.

(** All of an expansion but its last entry adds up to less than a power of
    two that divides the last entry. *)
Lemma expansion_asum (P : list Z) :
  forall g top,
    0 <= g -> expansion g (P ++ [top]) ->
    exists g', g <= g' /\ asum P < 2 ^ g' /\ (2 ^ g' | top)
               /\ (P <> [] -> 2 ^ g < 2 ^ g').
Proof.
  induction P as [|p P IH]; intros g top Hg.
  - simpl. intros (Hne & Hdiv & _). exists g.
    split; [lia|]. split; [apply pow2_pos; exact Hg|]. split; [exact Hdiv | congruence].
  - simpl. intros (Hne & Hdiv & g1 & Hg1 & Hle & Hrest).
    pose proof (expansion_level g p P g1 Hg Hne Hdiv Hle Hg1) as Hlt.
    destruct (IH g1 top Hg1 Hrest) as (g' & Hgg & Hsum & Hdt & Hstrict).
    destruct P as [|q P].
    + exists g1. split; [lia|]. simpl in *. split; [|split].
      * pose proof (pow2_pos g1 Hg1). lia.
      * destruct Hrest as (_ & H & _). exact H.
      * intros _. apply pow2_lt. lia.
    + exists g'. split; [lia|]. split; [|split].
      * assert (2 ^ g1 < 2 ^ g') by (apply Hstrict; discriminate).
        (* [asum (q :: P)] is a sum of multiples of [2^g1] below [2^g'] *)
        assert (Hmult : (2 ^ g1 | asum (q :: P))).
        { pose proof (expansion_divide g1 ((q :: P) ++ [top]) Hg1 Hrest) as Hall.
          apply Forall_app in Hall. destruct Hall as [Hall _].
          clear - Hall. induction Hall as [|a l Ha Hl IHl]; simpl.
          - apply Z.divide_0_r.
          - apply Z.divide_add_r; [apply Z.divide_abs_r; exact Ha | exact IHl]. }
        assert (Hmult' : (2 ^ g1 | 2 ^ g')).
        { apply pow2_divide. lia. }
        destruct Hmult as [c1 Hc1]. destruct Hmult' as [c2 Hc2].
        pose proof (pow2_pos g1 Hg1).
        change (asum (p :: q :: P)) with (Z.abs p + asum (q :: P)).
        rewrite Hc1 in Hsum |- *. rewrite Hc2 in Hsum |- *.
        assert (c1 < c2) by (apply (Z.mul_lt_mono_pos_r (2 ^ g1)); assumption).
        assert (c1 * 2 ^ g1 + 2 ^ g1 <= c2 * 2 ^ g1) by nia.
        lia.
      * exact Hdt.
      * intros _. pose proof (pow2_lt g g1 ltac:(lia)).
        assert (2 ^ g1 < 2 ^ g') by (apply Hstrict; discriminate). lia.
Qed.

Lemma zstep_nil (x : Z) : zstep [] x = if x =? 0 then [] else [x].
Proof. reflexivity. Qed.

Lemma zstep_cons (y : Z) (ps : list Z) (x : Z) :
  zstep (y :: ps) x =
    if x + y - RN (x + y) =? 0 then zstep ps (RN (x + y))
    else (x + y - RN (x + y)) :: zstep ps (RN (x + y)).
Proof.
  unfold zstep. simpl.
  destruct (zgrow ps (RN (x + y))) as [out x'].
  destruct (x + y - RN (x + y) =? 0), (x' =? 0); reflexivity.
Qed.

Lemma expansion_singleton (g x : Z) : x <> 0 -> (2 ^ g | x) -> expansion g [x].
Proof.
  intros Hne Hdiv. simpl. split; [exact Hne|]. split; [exact Hdiv|].
  exists (Z.abs x + 1). split; [lia|]. split; [|exact I].
  rewrite Z.pow_add_r by lia. change (2 ^ 1) with 2.
  pose proof (Z.pow_gt_lin_r 2 (Z.abs x) ltac:(lia)). lia.
Qed.

(** A pass over an expansion leaves an expansion. *)
Lemma zstep_expansion (ps : list Z) :
  forall x g,
    0 <= g -> format x -> expansion g ps -> (2 ^ g | x) ->
    expansion g (zstep ps x).
Proof.
  induction ps as [|y ps IH]; intros x g Hg Hx Hps Hdx.
  - rewrite zstep_nil. destruct (Z.eqb_spec x 0); [exact I|].
    apply expansion_singleton; assumption.
  - rewrite zstep_cons.
    simpl in Hps. destruct Hps as (Hyne & Hdy & g1 & Hg1 & Hle & Hrest).
    pose proof (expansion_level g y ps g1 Hg Hyne Hdy Hle Hg1) as Hlt.
    assert (Hds : (2 ^ g | x + y)) by (apply Z.divide_add_r; assumption).
    pose proof (RN_divide g (x + y) Hg Hds) as Hdh.
    destruct (Z.eqb_spec (x + y - RN (x + y)) 0) as [Hz|Hnz].
    + apply IH; [exact Hg | apply RN_format | | exact Hdh].
      apply (expansion_weaken g1); [lia | exact Hrest].
    + destruct (RN_error (x + y)) as (u & Hu & Hdu & Herr & _).
      pose proof (RN_nearest (x + y) x Hx) as Hnear.
      simpl. split; [exact Hnz|]. split; [apply Z.divide_sub_r; assumption|].
      exists (Z.min u g1). split; [lia|]. split.
      * destruct (Z.min_spec u g1) as [[_ ->]|[_ ->]]; lia.
      * apply IH; [lia | apply RN_format | |].
        -- apply (expansion_weaken g1); [lia | exact Hrest].
        -- eapply Z.divide_trans; [apply (pow2_divide (Z.min u g1) u); lia | exact Hdu].
Qed.

(** The partial sums stay in the format. *)
Lemma zstep_format (ps : list Z) (x : Z) :
  format x -> Forall format ps -> Forall format (zstep ps x).
Proof.
  intros Hx Hps. unfold zstep.
  destruct (zgrow ps x) as [out x'] eqn:Hrun.
  destruct (zgrow_format ps x out x' Hx Hps Hrun) as [Hout Hx'].
  destruct (x' =? 0); [exact Hout|].
  apply Forall_app. split; [exact Hout | constructor; [exact Hx' | constructor]].
Qed.

(** A pass adds the summand to the sum of the partial sums, exactly. *)
Lemma zstep_sum (ps : list Z) (x : Z) : zsum (zstep ps x) = zsum ps + x.
Proof.
  unfold zstep. destruct (zgrow ps x) as [out x'] eqn:Hrun.
  pose proof (zgrow_sum ps x out x' Hrun).
  destruct (Z.eqb_spec x' 0); [lia|]. rewrite zsum_app. simpl. lia.
Qed.

(** The errors kept by a pass are small against what the pass ends with.
    [a] stands for the errors kept before the pass reaches [ps], and [c]
    for the partial sums that were added exactly since the last error. *)
Lemma zgrow_errors_gen (ps : list Z) :
  forall x g a c out x',
    0 <= g -> format x -> expansion g ps -> (2 ^ g | x) ->
    0 <= a < 2 ^ g -> 0 <= c -> 2 ^ 52 * a <= Z.abs x + c ->
    zgrow ps x = (out, x') ->
    2 ^ 52 * (a + asum out) <= Z.abs x' + c + asum ps.
Proof.
  induction ps as [|y ps IH]; intros x g a c out x' Hg Hx Hps Hdx Ha Hc Hac; simpl.
  - intros [= <- <-]. simpl. lia.
  - destruct (zgrow ps (RN (x + y))) as [out0 x0] eqn:Hrec.
    intros [= <- <-].
    simpl in Hps. destruct Hps as (Hyne & Hdy & g1 & Hg1 & Hle & Hrest).
    pose proof (expansion_level g y ps g1 Hg Hyne Hdy Hle Hg1) as Hlt.
    assert (Hds : (2 ^ g | x + y)) by (apply Z.divide_add_r; assumption).
    pose proof (RN_divide g (x + y) Hg Hds) as Hdh.
    destruct (Z.eqb_spec (x + y - RN (x + y)) 0) as [Hz|Hnz].
    + assert (Hh : RN (x + y) = x + y) by lia.
      pose proof (IH (RN (x + y)) g a (c + Z.abs y) out0 x0 Hg (RN_format _)
                    (expansion_weaken g1 g ps ltac:(lia) Hrest) Hdh Ha
                    ltac:(lia) ltac:(lia) Hrec).
      lia.
    + destruct (RN_error (x + y)) as (u & Hu & Hdu & Herr & Hbig).
      destruct (Hbig ltac:(lia)) as [Hu0 Hbig'].
      pose proof (RN_nearest (x + y) x Hx) as Hnear.
      set (hi := RN (x + y)) in *. set (lo := x + y - hi) in *.
      set (g2 := Z.min u g1).
      assert (Hdlo : (2 ^ g | lo)) by (apply Z.divide_sub_r; assumption).
      pose proof (multiple_ge g lo Hg Hdlo Hnz) as Hlo_ge.
      assert (Hlo2 : 2 * Z.abs lo <= 2 ^ g2).
      { unfold g2. destruct (Z.min_spec u g1) as [[_ ->]|[_ ->]]; lia. }
      assert (Hg2u : 2 ^ g2 <= 2 ^ u) by (apply pow2_le; lia).
      assert (Hpu : 2 ^ (u + 52) = 2 ^ 52 * 2 ^ u).
      { rewrite <- Z.pow_add_r by lia. f_equal. lia. }
      pose proof (IH hi g2 (a + Z.abs lo) 0 out0 x0 ltac:(lia) (RN_format _)
                    (expansion_weaken g1 g2 ps ltac:(lia) Hrest)
                    ltac:(eapply Z.divide_trans;
                            [apply (pow2_divide g2 u); lia | exact Hdu])
                    ltac:(lia) ltac:(lia) ltac:(nia) Hrec) as H.
      change (asum (lo :: out0)) with (Z.abs lo + asum out0).
      lia.
Qed.

(** The errors that a pass leaves are small against what the pass hands on
    and the partial sums it went through. *)
Lemma zgrow_errors (ps : list Z) (x g : Z) (out : list Z) (x' : Z) :
  0 <= g -> format x -> expansion g ps -> (2 ^ g | x) ->
  zgrow ps x = (out, x') ->
  2 ^ 52 * asum out <= Z.abs x' + asum ps.
Proof.
  intros Hg Hx Hps Hdx Hrun.
  pose proof (zgrow_errors_gen ps x g 0 0 out x' Hg Hx Hps Hdx
                ltac:(pose proof (pow2_pos g Hg); lia) ltac:(lia) ltac:(lia) Hrun).
  lia.
Qed.

Lemma zgrow_app (l1 l2 : list Z) :
  forall x,
    zgrow (l1 ++ l2) x =
      let '(o1, z) := zgrow l1 x in
      let '(o2, x') := zgrow l2 z in
      (o1 ++ o2, x').
Proof.
  induction l1 as [|y l1 IH]; intros x; simpl.
  - destruct (zgrow l2 x); reflexivity.
  - rewrite IH. destruct (zgrow l1 (RN (x + y))) as [o1 z].
    destruct (zgrow l2 z) as [o2 x'].
    destruct (x + y - RN (x + y) =? 0); reflexivity.
Qed.

Lemma expansion_app_l (l1 l2 : list Z) :
  forall g, expansion g (l1 ++ l2) -> expansion g l1.
Proof.
  induction l1 as [|p l1 IH]; intros g; simpl; [auto|].
  intros (Hne & Hdiv & g' & Hg' & Hle & Hrest).
  split; [exact Hne|]. split; [exact Hdiv|].
  exists g'. split; [exact Hg'|]. split; [exact Hle | exact (IH g' Hrest)].
Qed.

(** With a dominant last partial sum, the sum is not negative and the
    partial sums add up, in absolute value, to at most four times the sum. *)
Lemma dominant_sum (P : list Z) :
  dominant P -> 0 <= zsum P /\ asum P <= 4 * zsum P.
Proof.
  intros [-> | (L & t & -> & Ht & Hdom)]; [simpl; lia|].
  rewrite zsum_app, asum_app. simpl.
  pose proof (zsum_le_asum L). pose proof (asum_nonneg L).
  assert (H52 : 4 <= 2 ^ 52) by (vm_compute; discriminate).
  nia.
Qed.

(** A pass with a summand that is not negative keeps the last partial sum
    dominant. *)
Lemma zstep_dominant (P : list Z) (a : Z) :
  expansion 0 P -> Forall format P -> dominant P -> format a -> 0 <= a ->
  dominant (zstep P a).
Proof.
  intros Hexp Hfmt Hdom Ha Hpos.
  destruct Hdom as [-> | (L & t & -> & Ht & Hdom)].
  { rewrite zstep_nil. destruct (Z.eqb_spec a 0); [left; reflexivity|].
    right. exists [], a. simpl. split; [reflexivity|]. split; lia. }
  pose proof (zstep_expansion (L ++ [t]) a 0 ltac:(lia) Ha Hexp (Z.divide_1_l a))
    as Hexp'.
  destruct (zgrow L a) as [out1 z] eqn:Hrun.
  set (hi := RN (z + t)). set (lo := z + t - hi).
  assert (Hform : zstep (L ++ [t]) a
                  = (if lo =? 0 then out1 else out1 ++ [lo])
                      ++ (if hi =? 0 then [] else [hi])).
  { unfold zstep. rewrite zgrow_app, Hrun. simpl. fold hi. fold lo.
    destruct (lo =? 0), (hi =? 0); rewrite ?app_nil_r; reflexivity. }
  rewrite Hform in Hexp' |- *. clear Hform.
  apply Forall_app in Hfmt. destruct Hfmt as [HfL _].
  pose proof (zgrow_sum L a out1 z Hrun) as Hsum.
  pose proof (zgrow_asum L a out1 z Ha Hrun) as Hasum.
  destruct (zgrow_format L a out1 z Ha HfL Hrun) as [_ Hfz].
  pose proof (zgrow_errors L a 0 out1 z ltac:(lia) Ha
                (expansion_app_l L [t] 0 Hexp) (Z.divide_1_l a) Hrun) as Herrs.
  pose proof (zsum_le_asum L). pose proof (zsum_le_asum out1).
  pose proof (asum_nonneg L) as HA. pose proof (asum_nonneg out1).
  assert (H52 : 8 <= 2 ^ 52) by (vm_compute; discriminate).
  assert (Hz : - 2 * asum L <= z) by lia.
  assert (Hs : 0 < z + t) by nia.
  pose proof (RN_sgn (z + t)) as Hsgn. rewrite (Z.sgn_pos (z + t)) in Hsgn by lia.
  assert (Hhi : 0 < hi) by (apply Z.sgn_pos_iff; exact Hsgn).
  destruct (Z.eqb_spec hi 0) as [?|_]; [lia|].
  right. destruct (Z.eqb_spec lo 0) as [Hlo|Hlo].
  - exists out1, hi. split; [reflexivity|]. split; [exact Hhi|].
    assert (hi = z + t) by (unfold lo in Hlo; lia). nia.
  - exists (out1 ++ [lo]), hi.
    split; [reflexivity|]. split; [exact Hhi|].
    rewrite asum_app. simpl asum.
    assert (Hexp1 : expansion 0 (out1 ++ [lo])).
    { apply (expansion_app_l _ [hi]). exact Hexp'. }
    destruct (expansion_asum out1 0 lo ltac:(lia) Hexp1) as (g' & Hg' & Hlt & Hdl & _).
    pose proof (multiple_ge g' lo ltac:(lia) Hdl Hlo) as Hlo_ge.
    destruct (RN_error (z + t)) as (u & Hu & Hdu & Herr & Hbig).
    fold hi in Hdu, Herr, Hbig. fold lo in Herr.
    destruct (Hbig ltac:(unfold lo in Hlo; lia)) as [Hu0 Hbig'].
    assert (Hpu : 2 ^ (u + 52) = 2 ^ 52 * 2 ^ u).
    { rewrite <- Z.pow_add_r by lia. f_equal. lia. }
    nia.
Qed.

(** The rounded sums of a pass are bounded by what goes in. *)
Lemma zgrow_below_bound (ps : list Z) :
  forall x j,
    0 <= j -> format x -> Z.abs x + 2 * asum ps <= 2 ^ j ->
    zgrow_below (2 ^ j + 1) ps x.
Proof.
  induction ps as [|y ps IH]; intros x j Hj Hx Hb; simpl; [exact I|].
  simpl in Hb. pose proof (asum_nonneg ps).
  pose proof (RN_abs_le_pow2 (x + y) j Hj ltac:(lia)) as Hhi.
  split; [lia|].
  apply IH; [exact Hj | apply RN_format|].
  pose proof (RN_nearest (x + y) x Hx). lia.
Qed.

Lemma zgrow_below_weaken (B B' : Z) (ps : list Z) :
  B <= B' -> forall x, zgrow_below B ps x -> zgrow_below B' ps x.
Proof.
  intros HB. induction ps as [|y ps IH]; intros x; simpl; [auto|].
  intros [H1 H2]. split; [lia | apply IH; exact H2].
Qed.

(** A pass with a non-negative summand over partial sums whose last one
    dominates stays below eight times the new sum. *)
Lemma zgrow_below_dominant (P : list Z) (a j : Z) :
  dominant P -> format a -> 0 <= a -> 0 <= j ->
  8 * (zsum P + a) <= 2 ^ j ->
  zgrow_below (2 ^ j + 1) P a.
Proof.
  intros Hdom Ha Hpos Hj Hb.
  apply zgrow_below_bound; [exact Hj | exact Ha|].
  pose proof (dominant_sum P Hdom). lia.
Qed.

(** ** Rounding a number with a small tail *)

Lemma size_digits (S k : Z) :
  0 < k -> 2 ^ (k + 52) <= S < 2 ^ (k + 53) -> Zdigits2 (Z.abs S) - 53 = k.
Proof.
  intros Hk HS. pose proof (pow2_pos (k + 52) ltac:(lia)).
  rewrite Z.abs_eq by lia.
  rewrite (Zdigits2_unique S (k + 53)); [lia | lia|].
  replace (k + 53 - 1) with (k + 52) by lia. exact HS.
Qed.

Lemma size_large (S k : Z) :
  0 < k -> 2 ^ (k + 52) <= S -> 2 ^ 53 <= Z.abs S.
Proof.
  intros Hk HS. pose proof (pow2_le 53 (k + 52) ltac:(lia)). lia.
Qed.

(** A number strictly between two consecutive multiples of [2^k], of
    [k + 53] digits, is not in the format. *)
Lemma not_format_between (w c k : Z) :
  0 < k -> 2 ^ (k + 52) <= w < 2 ^ (k + 53) ->
  c * 2 ^ k < w < (c + 1) * 2 ^ k -> ~ format w.
Proof.
  intros Hk Hsize [H1 H2] Hf.
  pose proof (format_canonical w Hf (size_large w k Hk ltac:(lia))) as Hcan.
  rewrite (size_digits w k Hk Hsize) in Hcan.
  pose proof (multiple_gap k c w ltac:(lia) Hcan H1). lia.
Qed.

(** [v] is positive and was rounded down: a positive tail below the unit of
    the error moves the rounding up exactly at a tie. *)
Lemma RN_tail_up (v r g : Z) :
  0 < v -> RN v < v -> 0 <= g -> (2 ^ g | v) -> 0 < r < 2 ^ g ->
  (format (RN v + 2 * (v - RN v)) -> RN (v + r) = RN v + 2 * (v - RN v))
  /\ (~ format (RN v + 2 * (v - RN v)) -> RN (v + r) = RN v).
Proof.
  intros Hv Hdown Hg Hdv Hr.
  assert (Hl : 2 ^ 53 <= Z.abs v).
  { destruct (Z_lt_ge_dec (Z.abs v) (2 ^ 53)) as [Hs|]; [|lia].
    rewrite (RN_small v Hs) in Hdown. lia. }
  destruct (RN_grid v Hl) as (k & c & Hkdef & Hk & Hrn & Hn & Htie & Hc & Hsg & Hsize).
  rewrite Z.abs_eq in Hsize by lia.
  pose proof (pow2_pos k ltac:(lia)) as Hp.
  pose proof (pow2_pos g Hg) as Hpg.
  assert (Hp52 : 2 ^ (k + 52) = 2 ^ 52 * 2 ^ k).
  { rewrite <- Z.pow_add_r by lia. f_equal. lia. }
  assert (Hp53 : 2 ^ (k + 53) = 2 ^ 53 * 2 ^ k).
  { rewrite <- Z.pow_add_r by lia. f_equal. lia. }
  assert (Hcpos : 0 < c).
  { rewrite (Z.sgn_pos v) in Hsg by lia. apply Z.sgn_pos_iff. exact Hsg. }
  rewrite Z.abs_eq in Hc by lia.
  set (h := RN v) in *. set (l := v - h).
  assert (Hlpos : 0 < l) by (unfold l; lia).
  assert (Hc53 : c + 1 <= 2 ^ 53) by nia.
  assert (Hdl : (2 ^ g | l)).
  { apply Z.divide_sub_r; [exact Hdv | apply RN_divide; assumption]. }
  pose proof (multiple_ge g l Hg Hdl ltac:(lia)) as Hlge.
  rewrite Z.abs_eq in Hlge by lia.
  assert (Hn' : 2 * l <= 2 ^ k).
  { replace (v - c * 2 ^ k) with l in Hn by (unfold l; lia). lia. }
  assert (HS : 2 ^ (k + 52) <= v + r < 2 ^ (k + 53)) by (unfold l in *; nia).
  pose proof (size_digits (v + r) k Hk HS) as HkS.
  pose proof (size_large (v + r) k Hk ltac:(lia)) as HlS.
  destruct (Z.eq_dec (2 * l) (2 ^ k)) as [Heq|Hneq].
  - (* a tie *)
    assert (Hnext : h + 2 * l = (c + 1) * 2 ^ k) by lia.
    assert (Hup : RN (v + r) = (c + 1) * 2 ^ k).
    { pose proof (RN_unique (v + r) (c + 1) HlS) as HU. rewrite HkS in HU.
      apply HU; unfold l in *; lia. }
    split; [intros _; lia|].
    intros Hnf. exfalso. apply Hnf. rewrite Hnext.
    apply (format_intro k); [lia | exists (c + 1); reflexivity|].
    rewrite Z.abs_eq by nia. nia.
  - (* not a tie *)
    assert (Hgk : g < k - 1).
    { destruct (Z_lt_ge_dec g (k - 1)); [assumption|].
      pose proof (pow2_le (k - 1) g ltac:(lia)).
      rewrite (pow2_double k Hk) in Hn'. rewrite (pow2_double k Hk) in Hneq. lia. }
    assert (Hhalf : l + 2 ^ g <= 2 ^ (k - 1)).
    { destruct Hdl as [cl Hcl].
      pose proof (pow2_split g (k - 1) ltac:(lia)) as Hsp.
      rewrite (pow2_double k Hk) in Hn', Hneq.
      assert (cl < 2 ^ (k - 1 - g)) by nia.
      nia. }
    assert (Hstay : RN (v + r) = c * 2 ^ k).
    { pose proof (RN_unique (v + r) c HlS) as HU. rewrite HkS in HU.
      pose proof (pow2_double k Hk) as Hdbl.
      apply HU; unfold l in *; lia. }
    split; [|intros _; lia].
    intros Hf. exfalso.
    apply (not_format_between (h + 2 * l) c k Hk); [| |exact Hf]; unfold l in *; nia.
Qed.

(** [v] is positive and was rounded up: a negative tail moves the rounding
    down exactly at a tie. *)
Lemma RN_tail_down (v r g : Z) :
  0 < v -> v < RN v -> 0 <= g -> (2 ^ g | v) -> - 2 ^ g < r < 0 ->
  (format (RN v + 2 * (v - RN v)) -> RN (v + r) = RN v + 2 * (v - RN v))
  /\ (~ format (RN v + 2 * (v - RN v)) -> RN (v + r) = RN v).
Proof.
  intros Hv Hup Hg Hdv Hr.
  assert (Hl : 2 ^ 53 <= Z.abs v).
  { destruct (Z_lt_ge_dec (Z.abs v) (2 ^ 53)) as [Hs|]; [|lia].
    rewrite (RN_small v Hs) in Hup. lia. }
  destruct (RN_grid v Hl) as (k & c & Hkdef & Hk & Hrn & Hn & Htie & Hc & Hsg & Hsize).
  rewrite Z.abs_eq in Hsize by lia.
  pose proof (pow2_pos k ltac:(lia)) as Hp.
  pose proof (pow2_pos g Hg) as Hpg.
  assert (Hp52 : 2 ^ (k + 52) = 2 ^ 52 * 2 ^ k).
  { rewrite <- Z.pow_add_r by lia. f_equal. lia. }
  assert (Hp53 : 2 ^ (k + 53) = 2 ^ 53 * 2 ^ k).
  { rewrite <- Z.pow_add_r by lia. f_equal. lia. }
  assert (Hcpos : 0 < c).
  { rewrite (Z.sgn_pos v) in Hsg by lia. apply Z.sgn_pos_iff. exact Hsg. }
  rewrite Z.abs_eq in Hc by lia.
  set (h := RN v) in *. set (l := h - v).
  assert (Hlpos : 0 < l) by (unfold l; lia).
  assert (Hc52 : 2 ^ 52 <= c - 1) by nia.
  assert (Hdl : (2 ^ g | l)).
  { apply Z.divide_sub_r; [apply RN_divide; assumption | exact Hdv]. }
  pose proof (multiple_ge g l Hg Hdl ltac:(lia)) as Hlge.
  rewrite Z.abs_eq in Hlge by lia.
  assert (Hn' : 2 * l <= 2 ^ k).
  { replace (v - c * 2 ^ k) with (- l) in Hn by (unfold l; lia).
    rewrite Z.abs_opp in Hn. lia. }
  assert (HS : 2 ^ (k + 52) <= v + r < 2 ^ (k + 53)) by (unfold l in *; nia).
  pose proof (size_digits (v + r) k Hk HS) as HkS.
  pose proof (size_large (v + r) k Hk ltac:(lia)) as HlS.
  replace (h + 2 * (v - h)) with (h - 2 * l) by (unfold l; lia).
  destruct (Z.eq_dec (2 * l) (2 ^ k)) as [Heq|Hneq].
  - assert (Hnext : h - 2 * l = (c - 1) * 2 ^ k) by lia.
    assert (Hdn : RN (v + r) = (c - 1) * 2 ^ k).
    { pose proof (RN_unique (v + r) (c - 1) HlS) as HU. rewrite HkS in HU.
      apply HU; unfold l in *; lia. }
    split; [intros _; lia|].
    intros Hnf. exfalso. apply Hnf. rewrite Hnext.
    apply (format_intro k); [lia | exists (c - 1); reflexivity|].
    rewrite Z.abs_eq by nia. nia.
  - assert (Hgk : g < k - 1).
    { destruct (Z_lt_ge_dec g (k - 1)); [assumption|].
      pose proof (pow2_le (k - 1) g ltac:(lia)).
      rewrite (pow2_double k Hk) in Hn'. rewrite (pow2_double k Hk) in Hneq. lia. }
    assert (Hhalf : l + 2 ^ g <= 2 ^ (k - 1)).
    { destruct Hdl as [cl Hcl].
      pose proof (pow2_split g (k - 1) ltac:(lia)) as Hsp.
      rewrite (pow2_double k Hk) in Hn', Hneq.
      assert (cl < 2 ^ (k - 1 - g)) by nia.
      nia. }
    assert (Hstay : RN (v + r) = c * 2 ^ k).
    { pose proof (RN_unique (v + r) c HlS) as HU. rewrite HkS in HU.
      pose proof (pow2_double k Hk) as Hdbl.
      apply HU; unfold l in *; lia. }
    split; [|intros _; lia].
    intros Hf. exfalso.
    apply (not_format_between (h - 2 * l) (c - 1) k Hk); [| |exact Hf].
    + unfold l in *; nia.
    + replace (c - 1 + 1) with c by lia. unfold l in *; nia.
Qed.

(** A tail [r] smaller than the unit of [v], on the side of the rounding
    error of [v], changes the rounding of [v] only at a tie. *)
Lemma RN_tail (v r g : Z) :
  RN v <> v -> 0 <= g -> (2 ^ g | v) -> r <> 0 -> Z.abs r < 2 ^ g ->
  Z.sgn r = Z.sgn (v - RN v) ->
  (format (RN v + 2 * (v - RN v)) -> RN (v + r) = RN v + 2 * (v - RN v))
  /\ (~ format (RN v + 2 * (v - RN v)) -> RN (v + r) = RN v).
Proof.
  intros Hne Hg Hdv Hr Hrg Hsg.
  assert (Haux : forall v r,
    0 < v -> RN v <> v -> (2 ^ g | v) -> r <> 0 -> Z.abs r < 2 ^ g ->
    Z.sgn r = Z.sgn (v - RN v) ->
    (format (RN v + 2 * (v - RN v)) -> RN (v + r) = RN v + 2 * (v - RN v))
    /\ (~ format (RN v + 2 * (v - RN v)) -> RN (v + r) = RN v)).
  { clear - Hg. intros v r Hv Hne Hdv Hr Hrg Hsg.
    destruct (Z_lt_ge_dec (RN v) v) as [Hdown|Hup].
    - apply (RN_tail_up v r g); try assumption; lia.
    - apply (RN_tail_down v r g); try assumption; lia. }
  destruct (Z.lt_trichotomy v 0) as [Hneg|[->|Hpos]].
  - destruct (Haux (- v) (- r)) as [H1 H2]; try lia.
    + rewrite RN_opp. lia.
    + apply Z.divide_opp_r. exact Hdv.
    + rewrite RN_opp, Z.sgn_opp, Hsg, <- Z.sgn_opp. f_equal. lia.
    + rewrite RN_opp in H1, H2.
      replace (- v + - r) with (- (v + r)) in H1, H2 by lia.
      rewrite RN_opp in H1, H2.
      replace (- RN v + 2 * (- v - - RN v)) with (- (RN v + 2 * (v - RN v)))
        in H1, H2 by lia.
      split; intros Hf.
      * assert (Hf' : format (- (RN v + 2 * (v - RN v)))) by (apply format_opp; exact Hf).
        specialize (H1 Hf'). lia.
      * assert (Hf' : ~ format (- (RN v + 2 * (v - RN v)))).
        { intros H. apply Hf. apply format_opp in H.
          rewrite Z.opp_involutive in H. exact H. }
        specialize (H2 Hf'). lia.
  - exfalso. apply Hne. reflexivity.
  - apply Haux; assumption.
Qed.

(** A tail against the error, and not larger, leaves the rounding. *)
Lemma RN_back (v r : Z) :
  Z.abs r <= Z.abs (v - RN v) -> Z.sgn r = - Z.sgn (v - RN v) ->
  RN (v + r) = RN v.
Proof.
  intros Hr Hsg.
  pose proof (RN_format v) as Hf.
  destruct (Z.lt_trichotomy (v - RN v) 0) as [Hneg|[Hz|Hpos]].
  - rewrite (Z.sgn_neg _ Hneg) in Hsg.
    assert (0 < r) by (apply Z.sgn_pos_iff; lia).
    pose proof (RN_mono v (v + r) ltac:(lia)).
    pose proof (RN_mono (v + r) (RN v) ltac:(lia)) as H2.
    rewrite Hf in H2. lia.
  - assert (r = 0) by lia. subst r. f_equal. lia.
  - rewrite (Z.sgn_pos _ Hpos) in Hsg.
    assert (r < 0) by (apply Z.sgn_neg_iff; lia).
    pose proof (RN_mono (v + r) v ltac:(lia)).
    pose proof (RN_mono (RN v) (v + r) ltac:(lia)) as H2.
    rewrite Hf in H2. lia.
Qed.

(** ** The final summation of [math.fsum], on integers *)

(** What the final summation returns: the exact sum when every addition was
    exact, and otherwise the first rounded sum with its error and the partial
    sums not yet added. *)
Lemma ztop_spec (below : list Z) :
  forall hi hi' lo rest,
    format hi ->
    ztop hi below = (hi', lo, rest) ->
    (lo = 0 /\ rest = [] /\ hi' = hi + zsum below /\ format hi')
    \/ (exists mid y,
          below = mid ++ y :: rest /\ lo <> 0
          /\ format (hi + zsum mid)
          /\ hi' = RN (hi + zsum mid + y)
          /\ lo = hi + zsum mid + y - hi').
Proof.
  induction below as [|y below IH]; intros hi hi' lo rest Hf; simpl.
  - intros [= <- <- <-]. left. repeat split; [lia | exact Hf].
  - destruct (Z.eqb_spec (hi + y - RN (hi + y)) 0) as [Hz|Hnz].
    + intros Hrun.
      destruct (IH _ _ _ _ (RN_format (hi + y)) Hrun)
        as [(-> & -> & -> & Hf') | (mid & y' & -> & Hlo & Hfm & -> & ->)].
      * left. repeat split; [lia | exact Hf'].
      * right. exists (y :: mid), y'. simpl.
        replace (hi + (y + zsum mid)) with (RN (hi + y) + zsum mid) by lia.
        repeat split; try assumption; reflexivity.
    + intros [= <- <- <-]. right. exists [], y. simpl.
      rewrite Z.add_0_r. repeat split; try assumption; reflexivity.
Qed.

Lemma zsum_rev (l : list Z) : zsum (rev l) = zsum l.
Proof.
  induction l as [|a l IH]; simpl; [reflexivity|].
  rewrite zsum_app, IH. simpl. lia.
Qed.

Lemma asum_rev (l : list Z) : asum (rev l) = asum l.
Proof.
  induction l as [|a l IH]; simpl; [reflexivity|].
  rewrite asum_app, IH. simpl. lia.
Qed.

(** Cutting an expansion: the lower part adds up to less than a power of
    two, and the upper part is an expansion above it. *)
Lemma expansion_split (L : list Z) :
  forall g R,
    0 <= g -> expansion g (L ++ R) ->
    exists g', g <= g' /\ asum L < 2 ^ g' /\ expansion g' R.
Proof.
  induction L as [|p L IH]; intros g R Hg.
  - simpl. intros H. exists g. split; [lia|]. split; [apply pow2_pos; lia | exact H].
  - simpl. intros (Hne & Hdiv & g1 & Hg1 & Hle & Hrest).
    pose proof (expansion_level g p (L ++ R) g1 Hg Hne Hdiv Hle Hg1) as Hlt.
    destruct (IH g1 R Hg1 Hrest) as (g' & Hgg & Hsum & HR).
    exists g'. split; [lia|]. split; [|exact HR].
    assert (Hmult : (2 ^ g1 | asum L)).
    { pose proof (expansion_divide g1 L Hg1 (expansion_app_l L R g1 Hrest)) as Hall.
      clear - Hall. induction Hall as [|a l Ha Hl IHl]; simpl.
      - apply Z.divide_0_r.
      - apply Z.divide_add_r; [apply Z.divide_abs_r; exact Ha | exact IHl]. }
    destruct Hmult as [c1 Hc1].
    destruct (pow2_divide g1 g' ltac:(lia)) as [c2 Hc2].
    pose proof (pow2_pos g1 Hg1).
    rewrite Hc1 in Hsum |- *. rewrite Hc2 in Hsum |- *.
    assert (c1 < c2) by (apply (Z.mul_lt_mono_pos_r (2 ^ g1)); assumption).
    assert (c1 * 2 ^ g1 + 2 ^ g1 <= c2 * 2 ^ g1) by nia.
    lia.
Qed.

Lemma divide_zsum (g : Z) (l : list Z) :
  Forall (fun p => (2 ^ g | p)) l -> (2 ^ g | zsum l).
Proof.
  induction 1 as [|a l Ha Hl IH]; simpl.
  - apply Z.divide_0_r.
  - apply Z.divide_add_r; assumption.
Qed.

(** The sign of the sum of an expansion is the sign of its last entry. *)
Lemma expansion_sgn (L : list Z) (p g : Z) :
  0 <= g -> expansion g (L ++ [p]) ->
  zsum (L ++ [p]) <> 0 /\ Z.sgn (zsum (L ++ [p])) = Z.sgn p.
Proof.
  intros Hg Hexp.
  destruct (expansion_split L g [p] Hg Hexp) as (g' & Hgg & Hsum & Hp).
  simpl in Hp. destruct Hp as (Hne & Hdiv & _).
  pose proof (multiple_ge g' p ltac:(lia) Hdiv Hne).
  pose proof (zsum_le_asum L).
  rewrite zsum_app. simpl.
  destruct (Z.lt_trichotomy p 0) as [Hn|[?|Hp]]; [|lia|].
  - rewrite (Z.sgn_neg p Hn). split; [lia|]. apply Z.sgn_neg. lia.
  - rewrite (Z.sgn_pos p Hp). split; [lia|]. apply Z.sgn_pos. lia.
Qed.

(** The final summation returns the rounded sum of the partial sums. *)
Theorem zround_correct (P : list Z) :
  expansion 0 P -> Forall format P -> zround P = RN (zsum P).
Proof.
  intros Hexp Hfmt. unfold zround.
  destruct (rev P) as [|top below] eqn:Hrev.
  { apply (f_equal (@rev Z)) in Hrev. rewrite rev_involutive in Hrev.
    subst P. reflexivity. }
  assert (HP : P = rev below ++ [top]).
  { apply (f_equal (@rev Z)) in Hrev. rewrite rev_involutive in Hrev.
    exact Hrev. }
  assert (Hftop : format top).
  { rewrite HP in Hfmt. apply Forall_app in Hfmt. destruct Hfmt as [_ H].
    apply Forall_cons in H. tauto. }
  destruct (ztop top below) as [[hi lo] rest] eqn:Hrun.
  destruct (ztop_spec below top hi lo rest Hftop Hrun)
    as [(-> & -> & -> & Hfhi) | (mid & y & Hbelow & Hlo & HfH & Hhi & Hlo')].
  { rewrite HP, zsum_app, zsum_rev. simpl.
    replace (zsum below + (top + 0)) with (top + zsum below) by lia.
    symmetry. exact Hfhi. }
  set (H := top + zsum mid) in *. set (v := H + y) in *.
  assert (HP' : P = rev rest ++ y :: rev mid ++ [top]).
  { rewrite HP, Hbelow, rev_app_distr. simpl. rewrite <- !app_assoc. reflexivity. }
  assert (HS : zsum P = v + zsum (rev rest)).
  { rewrite HP', zsum_app. simpl. rewrite zsum_app, !zsum_rev. simpl.
    unfold v, H. lia. }
  rewrite HS.
  rewrite HP' in Hexp.
  destruct (expansion_split (rev rest) 0 _ ltac:(lia) Hexp) as (g & Hg & Hsum & HR).
  pose proof (expansion_divide g _ ltac:(lia) HR) as Hdiv.
  apply Forall_cons in Hdiv. destruct Hdiv as [Hdy HdU].
  assert (HdH : (2 ^ g | H)).
  { pose proof (divide_zsum g _ HdU) as Hd. rewrite zsum_app, zsum_rev in Hd.
    simpl in Hd. unfold H. replace (top + zsum mid) with (zsum mid + (top + 0)) by lia.
    exact Hd. }
  assert (Hdv : (2 ^ g | v)) by (apply Z.divide_add_r; assumption).
  destruct rest as [|p rest'].
  { simpl. rewrite Z.add_0_r. exact Hhi. }
  (* a non-empty remainder: its sum has the sign of [p] *)
  assert (Hexp1 : expansion 0 (rev (p :: rest'))) by (apply (expansion_app_l _ _ 0 Hexp)).
  simpl rev in Hexp1, Hsum, HS |- *.
  destruct (expansion_sgn (rev rest') p 0 ltac:(lia) Hexp1) as [Hrne Hrsg].
  pose proof (expansion_nonzero 0 _ Hexp1) as Hnz.
  apply Forall_app in Hnz. destruct Hnz as [_ Hpnz].
  apply Forall_cons in Hpnz. destruct Hpnz as [Hpnz _].
  set (r := zsum (rev rest' ++ [p])) in *.
  pose proof (zsum_le_asum (rev rest' ++ [p])) as Hrabs. fold r in Hrabs.
  assert (Hne : RN v <> v) by lia.
  assert (Hdlo : (2 ^ g | lo)).
  { rewrite Hlo'. apply Z.divide_sub_r; [exact Hdv|].
    rewrite Hhi. apply RN_divide; [lia | exact Hdv]. }
  pose proof (multiple_ge g lo ltac:(lia) Hdlo Hlo) as Hloge.
  assert (Hfy : format y).
  { rewrite HP' in Hfmt. apply Forall_app in Hfmt. destruct Hfmt as [_ Hf].
    apply Forall_cons in Hf. tauto. }
  assert (Hflo : format lo).
  { rewrite Hlo', Hhi. apply add_error_format; assumption. }
  destruct ((lo <? 0) && (p <? 0) || (0 <? lo) && (0 <? p)) eqn:Hcond.
  - (* the remainder pushes in the direction of the error *)
    assert (Hsg : Z.sgn r = Z.sgn (v - RN v)).
    { rewrite Hrsg, <- Hhi, <- Hlo'.
      destruct (Z.ltb_spec lo 0), (Z.ltb_spec p 0), (Z.ltb_spec 0 lo),
        (Z.ltb_spec 0 p); simpl in Hcond; try discriminate; lia. }
    destruct (RN_tail v r g Hne ltac:(lia) Hdv Hrne ltac:(lia) Hsg) as [Hyes Hno].
    rewrite <- Hhi, <- Hlo' in Hyes, Hno.
    destruct (RN_error v) as (u & Hu & Hdu & Herr & Hbig).
    destruct (Hbig Hne) as [Hu0 Hbig'].
    rewrite <- Hhi in Hdu, Hbig'. rewrite <- Hhi, <- Hlo' in Herr.
    assert (Hpu : 2 ^ u <= 2 ^ (u + 52)) by (apply pow2_le; lia).
    destruct (two_sum_exact hi (2 * lo)) as [Hsub _].
    { rewrite Hhi. apply RN_format. }
    { apply format_double. exact Hflo. }
    { lia. }
    rewrite (RN_id _ Hsub).
    destruct (Z.eqb_spec (2 * lo) (RN (hi + 2 * lo) - hi)) as [Heq|Hneq].
    + rewrite Hyes; [lia|]. unfold format. lia.
    + rewrite Hno; [reflexivity|]. intros Hf. apply Hneq. rewrite (RN_id _ Hf). lia.
  - (* the remainder pushes back *)
    rewrite (RN_back v r); [exact Hhi | |].
    + rewrite <- Hhi, <- Hlo'. lia.
    + rewrite Hrsg, <- Hhi, <- Hlo'.
      destruct (Z.ltb_spec lo 0), (Z.ltb_spec p 0), (Z.ltb_spec 0 lo),
        (Z.ltb_spec 0 p); simpl in Hcond; try discriminate; lia.
Qed.

Lemma nonempty_last {A} (l : list A) : l <> [] -> exists l0 t, l = l0 ++ [t].
Proof.
  intros H. destruct (rev l) as [|t r] eqn:Hr.
  - apply (f_equal (@rev A)) in Hr. rewrite rev_involutive in Hr. contradiction.
  - exists (rev r), t. apply (f_equal (@rev A)) in Hr.
    rewrite rev_involutive in Hr. exact Hr.
Qed.

(** On partial sums that do not overlap, the final summation adds the
    smaller to the larger and stays bounded by their sum. *)
Lemma ztop_ok_expansion (below : list Z) :
  forall hi U j,
    U <> [] -> hi = zsum U -> expansion 0 (rev below ++ U) ->
    0 <= j -> asum (rev below ++ U) <= 2 ^ j ->
    ztop_ok (2 ^ j + 1) hi below.
Proof.
  induction below as [|y below IH]; intros hi U j HU Hhi Hexp Hj Hb; simpl; [exact I|].
  simpl rev in Hexp, Hb. rewrite <- app_assoc in Hexp, Hb. simpl in Hexp, Hb.
  destruct (expansion_split (rev below) 0 (y :: U) ltac:(lia) Hexp)
    as (g' & Hg' & _ & HyU).
  simpl in HyU. destruct HyU as (Hyne & Hdy & g1 & Hg1 & Hle & HexpU).
  destruct (nonempty_last U HU) as (U0 & t & HUeq).
  assert (Hhine : hi <> 0).
  { rewrite Hhi, HUeq. rewrite HUeq in HexpU.
    apply (expansion_sgn U0 t g1 Hg1 HexpU). }
  assert (Hdhi : (2 ^ g1 | hi)).
  { rewrite Hhi. apply divide_zsum. apply expansion_divide; assumption. }
  pose proof (multiple_ge g1 hi Hg1 Hdhi Hhine) as Hhige.
  pose proof (asum_nonneg (rev below)) as H0.
  pose proof (zsum_le_asum U) as HsU. rewrite <- Hhi in HsU.
  rewrite asum_app in Hb. simpl in Hb.
  split; [lia|]. split.
  - pose proof (RN_abs_le_pow2 (hi + y) j Hj ltac:(lia)). lia.
  - intros Hexact.
    apply (IH (RN (hi + y)) (y :: U) j); try assumption.
    + discriminate.
    + simpl. lia.
    + rewrite asum_app. simpl. lia.
Qed.

Lemma ztop_small (B : Z) (below : list Z) :
  forall hi,
    Z.abs hi < B -> Forall (fun z => Z.abs z < B) below -> format hi ->
    ztop_ok B hi below ->
    let '(h, l, r) := ztop hi below in
    Z.abs h < B /\ Z.abs l < B /\ Forall (fun z => Z.abs z < B) r.
Proof.
  induction below as [|y below IH]; intros hi Hhi Hbelow Hf Hok; simpl.
  - repeat split; [exact Hhi | lia | constructor].
  - apply Forall_cons in Hbelow. destruct Hbelow as [Hy Hbelow].
    simpl in Hok. destruct Hok as (Hle & Hb & Hrec).
    destruct (Z.eqb_spec (hi + y - RN (hi + y)) 0) as [Hz|Hnz].
    + apply IH; [exact Hb | exact Hbelow | apply RN_format | exact (Hrec Hz)].
    + pose proof (RN_nearest (hi + y) hi Hf).
      repeat split; [exact Hb | lia | exact Hbelow].
Qed.

(** ** The rounding of [binary_normalize] *)

Lemma iter_pos_nat {A} (f : A -> A) (p : positive) (x : A) :
  SpecFloat.iter_pos f p x = Nat.iter (Pos.to_nat p) f x.
Proof.
  revert x. induction p as [p IH|p IH|]; intros x; simpl SpecFloat.iter_pos.
  - rewrite !IH, Pos2Nat.inj_xI.
    replace (S (2 * Pos.to_nat p)) with (Pos.to_nat p + (Pos.to_nat p + 1))%nat by lia.
    rewrite !Nat.iter_add. reflexivity.
  - rewrite !IH, Pos2Nat.inj_xO.
    replace (2 * Pos.to_nat p)%nat with (Pos.to_nat p + Pos.to_nat p)%nat by lia.
    rewrite Nat.iter_add. reflexivity.
  - reflexivity.
Qed.

Lemma shr_1_spec (x : shr_record) :
  0 <= shr_m x ->
  shr_m x = 2 * shr_m (shr_1 x) + Z.b2z (shr_r (shr_1 x))
  /\ shr_s (shr_1 x) = shr_r x || shr_s x
  /\ 0 <= shr_m (shr_1 x).
Proof.
  destruct x as [m r s]. simpl. intros Hm.
  destruct m as [|[p|p|]|p]; simpl; try lia; repeat split; lia.
Qed.

(** After [k + 1] shifts of [m0], the mantissa, the round bit and the sticky
    bit describe [m0] exactly. *)
Lemma iter_shr_1_spec (m0 : Z) (k : nat) :
  0 <= m0 ->
  let x := Nat.iter (S k) shr_1 (Build_shr_record m0 false false) in
  0 <= shr_m x /\
  exists t, 0 <= t < 2 ^ Z.of_nat k
            /\ m0 = (2 * shr_m x + Z.b2z (shr_r x)) * 2 ^ Z.of_nat k + t
            /\ shr_s x = negb (t =? 0).
Proof.
  intros Hm0. induction k as [|k IH].
  - simpl Nat.iter.
    destruct (shr_1_spec (Build_shr_record m0 false false) Hm0) as (H1 & H2 & H3).
    split; [exact H3|]. exists 0. simpl in *. rewrite H2. split; [lia|]. split; [lia|reflexivity].
  - destruct IH as (Hm & t & Ht & Heq & Hs).
    set (y := Nat.iter (S k) shr_1 (Build_shr_record m0 false false)) in *.
    change (Nat.iter (S (S k)) shr_1 (Build_shr_record m0 false false)) with (shr_1 y).
    cbv zeta.
    destruct (shr_1_spec y Hm) as (H1 & H2 & H3).
    split; [exact H3|].
    exists (Z.b2z (shr_r y) * 2 ^ Z.of_nat k + t).
    rewrite Nat2Z.inj_succ, Z.pow_succ_r by lia.
    assert (0 < 2 ^ Z.of_nat k) by (apply Z.pow_pos_nonneg; lia).
    split; [destruct (shr_r y); simpl; lia|].
    split; [rewrite Heq, H1; ring|].
    rewrite H2, Hs. destruct (shr_r y); simpl Z.b2z; simpl orb.
    + symmetry. apply negb_true_iff. apply Z.eqb_neq. lia.
    + rewrite Z.mul_0_l, Z.add_0_l. reflexivity.
Qed.

Lemma rne_spec (m0 : Z) (p : positive) :
  0 <= m0 ->
  let x := SpecFloat.iter_pos shr_1 p (shr_record_of_loc m0 loc_Exact) in
  round_nearest_even (shr_m x) (loc_of_shr_record x) = rne m0 (Z.pos p).
Proof.
  intros Hm0. cbv zeta. rewrite iter_pos_nat.
  destruct (Pos2Nat.is_succ p) as [k Hk]. rewrite Hk.
  change (shr_record_of_loc m0 loc_Exact) with (Build_shr_record m0 false false).
  destruct (iter_shr_1_spec m0 k Hm0) as (Hm & t & Ht & Heq & Hs).
  set (x := Nat.iter (S k) shr_1 (Build_shr_record m0 false false)) in *.
  assert (Hp : Z.pos p = Z.of_nat k + 1) by lia.
  unfold rne. rewrite Hp.
  replace (Z.of_nat k + 1 - 1) with (Z.of_nat k) by lia.
  rewrite Z.pow_add_r by lia. change (2 ^ 1) with 2.
  set (h := 2 ^ Z.of_nat k) in *.
  assert (Hh : 0 < h) by (apply Z.pow_pos_nonneg; lia).
  set (r := Z.b2z (shr_r x) * h + t).
  assert (Hr : 0 <= r < h * 2) by (unfold r; destruct (shr_r x); simpl; lia).
  assert (Hm0' : m0 = shr_m x * (h * 2) + r) by (unfold r; rewrite Heq; ring).
  assert (Hq : m0 / (h * 2) = shr_m x).
  { symmetry. apply (Z.div_unique m0 (h * 2) (shr_m x) r); [left; lia | lia]. }
  assert (Hmod : m0 mod (h * 2) = r).
  { symmetry. apply (Z.mod_unique m0 (h * 2) (shr_m x) r); [left; lia | lia]. }
  rewrite Hq, Hmod.
  destruct x as [m rr ss]. simpl in *. subst ss. unfold r.
  destruct rr; simpl Z.b2z.
  - destruct (Z.eqb_spec t 0) as [->|Hne]; simpl.
    + destruct (Z.ltb_spec (1 * h + 0) h); [lia|].
      destruct (Z.ltb_spec h (1 * h + 0)); [lia|]. reflexivity.
    + destruct (Z.ltb_spec (1 * h + t) h); [lia|].
      destruct (Z.ltb_spec h (1 * h + t)); [reflexivity | lia].
  - destruct (Z.eqb_spec t 0) as [->|Hne]; simpl.
    + destruct (Z.ltb_spec (0 * h + 0) h); [reflexivity | lia].
    + destruct (Z.ltb_spec (0 * h + t) h); [reflexivity | lia].
Qed.

Lemma fexp_eq (x : Z) : fexp prec emax x = Z.max (x - 53) (- 1074).
Proof. reflexivity. Qed.

Lemma pos_iter_xO (m d : positive) :
  Z.pos (Pos.iter xO m d) = Z.pos m * 2 ^ Z.pos d.
Proof.
  apply (Pos.iter_ind _ xO m (fun p a => Z.pos a = Z.pos m * 2 ^ Z.pos p)).
  - change (2 ^ 1) with 2. lia.
  - intros p a IH. rewrite Pos2Z.inj_succ, Z.pow_succ_r by lia.
    rewrite Pos2Z.inj_xO, IH. ring.
Qed.

(** Without shift the rounding step keeps the mantissa. *)
Lemma shr_fexp_no_shift (m e : Z) :
  fexp prec emax (Zdigits2 m + e) <= e ->
  shr_fexp prec emax m e loc_Exact = (Build_shr_record m false false, e).
Proof.
  intros H. unfold shr_fexp, shr.
  destruct (fexp prec emax (Zdigits2 m + e) - e) eqn:Hd; try reflexivity. lia.
Qed.

Lemma binary_round_aux_exact (m : positive) (e : Z) :
  fexp prec emax (Zdigits2 (Z.pos m) + e) <= e ->
  binary_round_aux prec emax false (Z.pos m) e loc_Exact = of_key (e, Z.pos m).
Proof.
  intros H. unfold binary_round_aux.
  rewrite (shr_fexp_no_shift _ _ H). simpl round_nearest_even.
  rewrite (shr_fexp_no_shift _ _ H). reflexivity.
Qed.

(** The two cases of the final normalisation of a mantissa of at most 54
    digits. *)
Lemma normalise_key (m2 fe : Z) :
  0 <= m2 <= 2 ^ prec -> - 1074 <= fe ->
  (let '(mrs, e) := shr_fexp prec emax m2 fe loc_Exact in
   match shr_m mrs with
   | 0 => S754_zero false
   | Z.pos m => if e <=? emax - prec then S754_finite false m e
                else S754_infinity false
   | Z.neg _ => S754_nan
   end)
  = of_key (if m2 <? 2 ^ prec then (fe, m2) else (fe + 1, 2 ^ (prec - 1))).
Proof.
  intros Hm2 Hfe.
  destruct (Z.ltb_spec m2 (2 ^ prec)) as [Hlt|Hge].
  - assert (Hd : Zdigits2 m2 <= prec).
    { apply Zdigits2_le; [lia | unfold prec; lia | exact Hlt]. }
    rewrite shr_fexp_no_shift; [reflexivity|].
    rewrite fexp_eq. unfold prec in Hd. lia.
  - assert (Hm : m2 = 2 ^ prec) by lia. subst m2.
    unfold shr_fexp, shr.
    change (Zdigits2 (2 ^ prec)) with 54.
    rewrite fexp_eq.
    replace (Z.max (54 + fe - 53) (- 1074) - fe) with 1 by lia.
    reflexivity.
Qed.

(** [binary_normalize] on a positive integer, by exponent and mantissa. *)
Lemma binary_normalize_key (M E : Z) :
  0 < M -> binary_normalize prec emax M E false = of_key (round_key M E).
Proof.
  intros HM. destruct M as [|mx|mx]; try lia.
  unfold binary_normalize, binary_round, round_key.
  set (fe := fexp prec emax (Zdigits2 (Z.pos mx) + E)).
  assert (Hfe : - 1074 <= fe) by (unfold fe; rewrite fexp_eq; lia).
  assert (Hfe' : Zdigits2 (Z.pos mx) + E - 53 <= fe) by (unfold fe; rewrite fexp_eq; lia).
  change (Z.pos (digits2_pos mx)) with (Zdigits2 (Z.pos mx)). fold fe.
  unfold shl_align.
  destruct (fe - E) as [|n|d] eqn:Hn.
  - (* [fe = E] *)
    assert (fe = E) by lia.
    destruct (Z.leb_spec fe E); [|lia].
    rewrite binary_round_aux_exact by (fold fe; lia).
    replace (E - fe) with 0 by lia. rewrite Z.mul_1_r. subst fe. congruence.
  - (* [E < fe]: the mantissa is shifted to the right and rounded *)
    destruct (Z.leb_spec fe E); [lia|].
    unfold binary_round_aux, shr_fexp at 1, shr. fold fe. rewrite Hn.
    replace (E + Z.pos n) with fe by lia.
    rewrite (rne_spec (Z.pos mx) n) by lia.
    apply normalise_key; [|exact Hfe].
    pose proof (rne_bounds (Z.pos mx) (Z.pos n)) as Hb.
    assert (Hq : 0 <= Z.pos mx / 2 ^ Z.pos n).
    { apply Z.div_pos; [lia | apply Z.pow_pos_nonneg; lia]. }
    assert (Hqd : Zdigits2 (Z.pos mx / 2 ^ Z.pos n) <= 53).
    { pose proof (Zdigits2_div_pow2 (Z.pos mx) (Z.pos n) ltac:(lia) ltac:(lia)). lia. }
    pose proof (Zdigits2_gt _ Hq) as Hlt.
    assert (2 ^ Zdigits2 (Z.pos mx / 2 ^ Z.pos n) <= 2 ^ 53).
    { apply Z.pow_le_mono_r; [lia | exact Hqd]. }
    unfold prec. lia.
  - (* [fe < E]: the mantissa is shifted to the left, exactly *)
    destruct (Z.leb_spec fe E); [|lia].
    assert (Hmz : Z.pos (Pos.iter xO mx d) = Z.pos mx * 2 ^ (E - fe)).
    { rewrite pos_iter_xO. f_equal. f_equal. lia. }
    rewrite binary_round_aux_exact.
    + unfold of_key. simpl fst. simpl snd. rewrite <- Hmz. reflexivity.
    + unfold Zdigits2. rewrite digits2_pos_iter_xO.
      replace (Z.pos (digits2_pos mx + d) + fe) with (Zdigits2 (Z.pos mx) + E)
        by (unfold Zdigits2; lia).
      fold fe. lia.
Qed.

Lemma rne_scale (m d k : Z) :
  0 <= m -> 0 <= d -> 0 < k -> rne (m * 2 ^ d) (k + d) = rne m k.
Proof.
  intros Hm Hd Hk. unfold rne.
  assert (Hp : 0 < 2 ^ k) by (apply Z.pow_pos_nonneg; lia).
  assert (Hpd : 0 < 2 ^ d) by (apply Z.pow_pos_nonneg; lia).
  assert (Hh : 0 < 2 ^ (k - 1)) by (apply Z.pow_pos_nonneg; lia).
  rewrite (Z.pow_add_r 2 k d) by lia.
  replace (k + d - 1) with (k - 1 + d) by lia.
  rewrite (Z.pow_add_r 2 (k - 1) d) by lia.
  rewrite Z.div_mul_cancel_r by lia.
  rewrite Z.mul_mod_distr_r by lia.
  set (r := m mod 2 ^ k). set (h := 2 ^ (k - 1)). set (q := m / 2 ^ k).
  assert (H1 : (r * 2 ^ d <? h * 2 ^ d) = (r <? h)).
  { destruct (Z.ltb_spec r h), (Z.ltb_spec (r * 2 ^ d) (h * 2 ^ d));
      try reflexivity; nia. }
  assert (H2 : (h * 2 ^ d <? r * 2 ^ d) = (h <? r)).
  { destruct (Z.ltb_spec h r), (Z.ltb_spec (h * 2 ^ d) (r * 2 ^ d));
      try reflexivity; nia. }
  rewrite H1, H2. reflexivity.
Qed.

(** The rounding of [M * 2^E] does not depend on how the number is written. *)
Lemma round_key_scale (M E d : Z) :
  0 < M -> 0 <= d -> round_key (M * 2 ^ d) (E - d) = round_key M E.
Proof.
  intros HM Hd. unfold round_key.
  rewrite Zdigits2_scale by lia.
  replace (Zdigits2 M + d + (E - d)) with (Zdigits2 M + E) by lia.
  set (fe := fexp prec emax (Zdigits2 M + E)).
  assert (Hfe : Zdigits2 M + E - 53 <= fe) by (unfold fe; rewrite fexp_eq; lia).
  destruct (Z.leb_spec fe (E - d)) as [H1|H1].
  - destruct (Z.leb_spec fe E); [|lia].
    f_equal. rewrite <- Z.mul_assoc, <- Z.pow_add_r by lia. f_equal. f_equal. lia.
  - destruct (Z.leb_spec fe E) as [H2|H2].
    + rewrite rne_exact by lia.
      replace (d - (fe - (E - d))) with (E - fe) by lia.
      assert (Hlt : M * 2 ^ (E - fe) < 2 ^ prec).
      { pose proof (Zdigits2_gt (M * 2 ^ (E - fe))) as Hgt.
        assert (0 < 2 ^ (E - fe)) by (apply Z.pow_pos_nonneg; lia).
        rewrite Zdigits2_scale in Hgt by lia.
        assert (2 ^ (Zdigits2 M + (E - fe)) <= 2 ^ prec).
        { apply Z.pow_le_mono_r; unfold prec; lia. }
        specialize (Hgt ltac:(nia)). lia. }
      destruct (Z.ltb_spec (M * 2 ^ (E - fe)) (2 ^ prec)); [reflexivity | lia].
    + replace (fe - (E - d)) with (fe - E + d) by lia.
      rewrite rne_scale by lia. reflexivity.
Qed.

Lemma signed_abs (s : bool) (m : positive) : Z.abs (signed s m) = Z.pos m.
Proof. destruct s; reflexivity. Qed.

Lemma Zval_abs (s : bool) (m : positive) (e : Z) :
  - 1074 <= e ->
  Z.abs (Zval (S754_finite s m e)) = Z.pos m * 2 ^ (e + 1074).
Proof.
  intros He. simpl. pose proof (pow2_pos (e + 1074) ltac:(lia)).
  rewrite Z.abs_mul, signed_abs, (Z.abs_eq (2 ^ _)) by lia. reflexivity.
Qed.

Lemma canonical_finite (x : float) : canonical x -> isfinite x = true.
Proof. destruct x; simpl; tauto || reflexivity. Qed.

(** The value of a double has at most 53 significant digits and is below
    the overflow threshold. *)
Lemma canonical_format (x : float) :
  canonical x -> format (Zval x) /\ Z.abs (Zval x) < 2 ^ 2098.
Proof.
  destruct x as [s|s| |s m e]; unfold canonical; try tauto.
  - intros _. split; [apply format_0 | reflexivity].
  - intros (He & Hd & _).
    pose proof (Zdigits2_gt (Z.pos m) ltac:(lia)) as Hm.
    pose proof (Zdigits2_nonneg (Z.pos m)) as Hd0.
    pose proof (pow2_le (Zdigits2 (Z.pos m)) 53 ltac:(lia)) as H53.
    pose proof (pow2_pos (e + 1074) ltac:(lia)) as Hp.
    rewrite Zval_abs by lia. split.
    + apply (format_intro (e + 1074)); [lia | exists (signed s m); reflexivity|].
      rewrite Zval_abs by lia.
      assert (2 ^ (e + 1074 + 53) = 2 ^ (e + 1074) * 2 ^ 53)
        by (apply Z.pow_add_r; lia).
      nia.
    + assert (2 ^ (e + 1074) <= 2 ^ 2045) by (apply pow2_le; lia).
      change (2 ^ 2098) with (2 ^ 53 * 2 ^ 2045). nia.
Qed.

Lemma represents_format (x : float) (v : Z) :
  represents x v -> format v /\ Z.abs v < 2 ^ 2098.
Proof. intros [Hc <-]. apply canonical_format. exact Hc. Qed.

Lemma Zval_sgn (s : bool) (m : positive) (e : Z) :
  - 1074 <= e ->
  Z.sgn (Zval (S754_finite s m e)) = if s then - 1 else 1.
Proof.
  intros He. simpl. pose proof (pow2_pos (e + 1074) ltac:(lia)).
  destruct s; simpl signed; [apply Z.sgn_neg | apply Z.sgn_pos]; nia.
Qed.

(** Two floats of the format with the same value, not zero, are equal. *)
Lemma canonical_inj (x y : float) :
  canonical x -> canonical y -> Zval x = Zval y -> Zval x <> 0 -> x = y.
Proof.
  destruct x as [sx|sx| |sx mx ex], y as [sy|sy| |sy my ey];
    unfold canonical; try tauto;
    try (intros ? ? Heq Hne; exfalso; simpl in Heq, Hne; congruence).
  - intros (Hex & Hdx & Hcx) (Hey & Hdy & Hcy) Heq Hne.
    assert (Hs : sx = sy).
    { pose proof (Zval_sgn sx mx ex ltac:(lia)) as H1.
      pose proof (Zval_sgn sy my ey ltac:(lia)) as H2.
      rewrite Heq, H2 in H1. destruct sx, sy; congruence || lia. }
    subst sy.
    assert (Habs : Z.pos mx * 2 ^ (ex + 1074) = Z.pos my * 2 ^ (ey + 1074)).
    { rewrite <- (Zval_abs sx mx ex), <- (Zval_abs sx my ey) by lia.
      rewrite Heq. reflexivity. }
    assert (Hsame : forall m1 e1 m2 e2,
      - 1074 <= e1 -> e1 < e2 -> Zdigits2 (Z.pos m1) <= 53 ->
      (e2 = - 1074 \/ Zdigits2 (Z.pos m2) = 53) ->
      Z.pos m1 * 2 ^ (e1 + 1074) = Z.pos m2 * 2 ^ (e2 + 1074) -> False).
    { clear. intros m1 e1 m2 e2 H1 H12 Hd1 Hc2 Heq.
      destruct Hc2 as [?|Hd2]; [lia|].
      pose proof (Zdigits2_gt (Z.pos m1) ltac:(lia)) as Hm1.
      pose proof (Zdigits2_nonneg (Z.pos m1)) as Hd0.
      pose proof (pow2_le (Zdigits2 (Z.pos m1)) 53 ltac:(lia)).
      pose proof (Zdigits2_ge (Z.pos m2) ltac:(lia)) as Hm2.
      rewrite Hd2 in Hm2. change (2 ^ (53 - 1)) with (2 ^ 52) in Hm2.
      pose proof (pow2_pos (e1 + 1074) ltac:(lia)).
      assert (Hsp : 2 ^ (e2 + 1074) = 2 ^ (e2 - e1) * 2 ^ (e1 + 1074)).
      { rewrite <- Z.pow_add_r by lia. f_equal. lia. }
      assert (2 <= 2 ^ (e2 - e1)).
      { change 2 with (2 ^ 1) at 1. apply pow2_le. lia. }
      change (2 ^ 53) with (2 * 2 ^ 52) in *.
      rewrite Hsp in Heq. nia. }
    destruct (Z.lt_trichotomy ex ey) as [Hlt|[->|Hgt]].
    + exfalso. apply (Hsame mx ex my ey); assumption || lia.
    + pose proof (pow2_pos (ey + 1074) ltac:(lia)).
      assert (Z.pos mx = Z.pos my) by nia. congruence.
    + exfalso. apply (Hsame my ey mx ex); try assumption; lia.
Qed.

(** A value other than zero determines the double that holds it. *)
Lemma represents_inj (x y : float) (v : Z) :
  represents x v -> represents y v -> v <> 0 -> x = y.
Proof.
  intros [Hx Hvx] [Hy Hvy] Hne.
  apply canonical_inj; congruence.
Qed.

Lemma represents_opp (x : float) (v : Z) :
  represents x v -> represents (SFopp x) (- v).
Proof.
  intros [Hc <-]. destruct x as [s|s| |s m e]; unfold canonical in Hc; try tauto.
  - split; reflexivity.
  - split; [exact Hc|]. simpl. destruct s; simpl; lia.
Qed.

Lemma represents_abs (x : float) (v : Z) :
  represents x v -> represents (SFabs x) (Z.abs v).
Proof.
  intros [Hc <-]. destruct x as [s|s| |s m e]; unfold canonical in Hc; try tauto.
  - split; reflexivity.
  - split; [exact Hc|]. rewrite Zval_abs by lia. reflexivity.
Qed.

(** ** Rounding to a float *)

Lemma of_key_pos (e m : Z) :
  0 < m -> e <= 971 ->
  exists p, m = Z.pos p /\ of_key (e, m) = S754_finite false p e.
Proof.
  intros Hm He. destruct m as [|p|p]; try lia.
  exists p. split; [reflexivity|]. unfold of_key. simpl.
  destruct (Z.leb_spec e (emax - prec)) as [|H]; [reflexivity|].
  unfold emax, prec in H. lia.
Qed.

(** The double nearest to a positive number of units holds [RN] of it. *)
Lemma round_key_represents (v : Z) :
  0 < v -> RN v < 2 ^ 2098 ->
  represents (of_key (round_key v (- 1074))) (RN v).
Proof.
  intros Hv Hb. unfold round_key. rewrite fexp_eq.
  pose proof (Zdigits2_pos v Hv) as Hd.
  destruct (Z_le_gt_dec (Zdigits2 v) 53) as [Hsmall|Hlarge].
  - rewrite Z.max_r by lia.
    destruct (Z.leb_spec (- 1074) (- 1074)); [|lia].
    replace (- 1074 - - 1074) with 0 by lia. rewrite Z.mul_1_r.
    destruct (of_key_pos (- 1074) v Hv ltac:(lia)) as (p & Hp & ->).
    assert (Hlt : v < 2 ^ 53).
    { pose proof (Zdigits2_gt v ltac:(lia)).
      pose proof (pow2_le (Zdigits2 v) 53 ltac:(lia)). lia. }
    rewrite RN_small by lia.
    split; [|simpl; rewrite <- Hp; lia].
    unfold canonical. rewrite <- Hp. lia.
  - rewrite Z.max_l by lia.
    set (k := Zdigits2 v - 53).
    replace (Zdigits2 v + - 1074 - 53) with (k - 1074) by (unfold k; lia).
    destruct (Z.leb_spec (k - 1074) (- 1074)); [unfold k in *; lia|].
    replace (k - 1074 - - 1074) with k by lia.
    assert (Hl : 2 ^ 53 <= v).
    { pose proof (Zdigits2_ge v Hv).
      pose proof (pow2_le 53 (Zdigits2 v - 1) ltac:(lia)). lia. }
    destruct (large_size v Hl) as [Hk Hsize]. fold k in Hk, Hsize.
    pose proof (rne_large v k Hk Hsize) as Hm2.
    assert (Hrn : RN v = rne v k * 2 ^ k).
    { rewrite RN_nonneg_eq by lia. unfold rnd. fold k.
      destruct (Z.leb_spec (Zdigits2 v) 53); [lia | reflexivity]. }
    rewrite Hrn in Hb |- *.
    pose proof (pow2_pos k ltac:(lia)) as Hp.
    assert (H52 : 0 < 2 ^ 52) by (apply pow2_pos; lia).
    set (m2 := rne v k) in *.
    (* the exponent is in range *)
    assert (Hk2045 : m2 * 2 ^ k < 2 ^ 2098 -> k + 52 < 2098).
    { intros Hlt. destruct (Z_lt_ge_dec (k + 52) 2098); [assumption|].
      pose proof (pow2_le 2098 (k + 52) ltac:(lia)).
      assert (2 ^ (k + 52) = 2 ^ 52 * 2 ^ k)
        by (rewrite <- Z.pow_add_r by lia; f_equal; lia).
      nia. }
    specialize (Hk2045 Hb).
    destruct (Z.ltb_spec m2 (2 ^ prec)) as [Hlt|Hge].
    + destruct (of_key_pos (k - 1074) m2 ltac:(lia) ltac:(lia)) as (p & Hp2 & ->).
      split; [|simpl; rewrite <- Hp2; f_equal; f_equal; lia].
      unfold canonical. rewrite <- Hp2.
      rewrite (Zdigits2_unique m2 53); [lia | lia|].
      change (2 ^ (53 - 1)) with (2 ^ 52). unfold prec in Hlt. lia.
    + assert (Hm : m2 = 2 ^ 53) by (unfold prec in Hge; lia).
      assert (Hk2044 : k + 53 < 2098).
      { destruct (Z_lt_ge_dec (k + 53) 2098); [assumption|].
        pose proof (pow2_le 2098 (k + 53) ltac:(lia)).
        assert (2 ^ (k + 53) = 2 ^ 53 * 2 ^ k)
          by (rewrite <- Z.pow_add_r by lia; f_equal; lia).
        rewrite Hm in Hb. lia. }
      change (2 ^ (prec - 1)) with (2 ^ 52).
      destruct (of_key_pos (k - 1074 + 1) (2 ^ 52) ltac:(lia) ltac:(lia))
        as (p & Hp2 & ->).
      split.
      * unfold canonical. rewrite <- Hp2.
        rewrite (Zdigits2_pow2 52) by lia. lia.
      * simpl. rewrite <- Hp2, Hm.
        replace (k - 1074 + 1 + 1074) with (1 + k) by lia.
        rewrite Z.pow_add_r by lia. change (2 ^ 53) with (2 ^ 52 * 2 ^ 1). ring.
Qed.

Lemma binary_round_aux_opp (m e : Z) (l : location) :
  binary_round_aux prec emax true m e l
  = SFopp (binary_round_aux prec emax false m e l).
Proof.
  unfold binary_round_aux.
  destruct (shr_fexp prec emax m e l) as [mrs1 e1].
  destruct (shr_fexp prec emax _ e1 loc_Exact) as [mrs2 e2].
  destruct (shr_m mrs2); try reflexivity.
  destruct (e2 <=? emax - prec); reflexivity.
Qed.

Lemma binary_normalize_opp (m : positive) (e : Z) :
  binary_normalize prec emax (Z.neg m) e false
  = SFopp (binary_normalize prec emax (Z.pos m) e false).
Proof.
  unfold binary_normalize, binary_round.
  destruct (shl_align m e _) as [mz ez].
  apply binary_round_aux_opp.
Qed.

(** The float that [binary_normalize] returns for [M * 2^E] is the rounding
    of that number, when it is below the largest float. *)
Lemma binary_normalize_represents (M E : Z) :
  - 1074 <= E ->
  Z.abs (RN (M * 2 ^ (E + 1074))) < 2 ^ 2098 ->
  represents (binary_normalize prec emax M E false) (RN (M * 2 ^ (E + 1074))).
Proof.
  intros HE Hb.
  pose proof (pow2_pos (E + 1074) ltac:(lia)) as Hp.
  assert (Hpos : forall M, 0 < M ->
    Z.abs (RN (M * 2 ^ (E + 1074))) < 2 ^ 2098 ->
    represents (binary_normalize prec emax M E false) (RN (M * 2 ^ (E + 1074)))).
  { clear M Hb. intros M HM Hb.
    rewrite binary_normalize_key by exact HM.
    rewrite <- (round_key_scale M E (E + 1074)) by lia.
    replace (E - (E + 1074)) with (- 1074) by lia.
    apply round_key_represents; [nia | lia]. }
  destruct M as [|m|m].
  - split; reflexivity.
  - apply Hpos; [lia | exact Hb].
  - rewrite binary_normalize_opp.
    replace (Z.neg m * 2 ^ (E + 1074)) with (- (Z.pos m * 2 ^ (E + 1074))) in * by lia.
    rewrite RN_opp in *. apply represents_opp.
    apply Hpos; [lia|]. rewrite Z.abs_opp in Hb. exact Hb.
Qed.

(** ** Additions, subtractions and comparisons of floats *)

Lemma shl_align_fst (mx : positive) (ex ez : Z) :
  ez <= ex -> Z.pos (fst (shl_align mx ex ez)) = Z.pos mx * 2 ^ (ex - ez).
Proof.
  intros H. unfold shl_align.
  destruct (ez - ex) as [|d|d] eqn:Hd; simpl fst.
  - replace (ex - ez) with 0 by lia. lia.
  - lia.
  - rewrite pos_iter_xO. f_equal. f_equal. lia.
Qed.

Lemma cond_Zopp_signed (s : bool) (m : positive) (d : Z) :
  cond_Zopp s (Z.pos m * d) = signed s m * d.
Proof. destruct s; simpl; lia. Qed.

Lemma aligned_value (s : bool) (m : positive) (e ez : Z) :
  - 1074 <= ez <= e ->
  cond_Zopp s (Z.pos (fst (shl_align m e ez))) * 2 ^ (ez + 1074)
  = Zval (S754_finite s m e).
Proof.
  intros H. rewrite shl_align_fst by lia. rewrite cond_Zopp_signed.
  simpl. rewrite <- Z.mul_assoc, <- Z.pow_add_r by lia.
  f_equal. f_equal. lia.
Qed.

(** The sum of two doubles is [RN] of the sum of their values, when that is
    below the overflow threshold. *)
Lemma fadd_represents (x y : float) (a b : Z) :
  represents x a -> represents y b -> Z.abs (RN (a + b)) < 2 ^ 2098 ->
  represents (fadd x y) (RN (a + b)).
Proof.
  intros Hx Hy Hb.
  destruct (represents_format x a Hx) as [Hfa _].
  destruct (represents_format y b Hy) as [Hfb _].
  destruct Hx as [Hcx Ha], Hy as [Hcy Hb'].
  destruct x as [sx|sx| |sx mx ex], y as [sy|sy| |sy my ey];
    unfold canonical in Hcx, Hcy; try tauto.
  - simpl in Ha, Hb'. subst a b. destruct sx, sy; split; reflexivity.
  - simpl in Ha. subst a. rewrite Z.add_0_l, (RN_id b Hfb).
    split; assumption.
  - simpl in Hb'. subst b. rewrite Z.add_0_r, (RN_id a Hfa).
    split; assumption.
  - unfold fadd, SFadd. cbv zeta.
    set (ez := Z.min ex ey).
    set (M := cond_Zopp sx (Z.pos (fst (shl_align mx ex ez)))
              + cond_Zopp sy (Z.pos (fst (shl_align my ey ez)))).
    assert (HM : M * 2 ^ (ez + 1074) = a + b).
    { unfold M. rewrite Z.mul_add_distr_r.
      rewrite !aligned_value by (unfold ez; lia). congruence. }
    rewrite <- HM in Hb |- *.
    apply binary_normalize_represents; [unfold ez; lia | exact Hb].
Qed.

(** The difference of two doubles, likewise. *)
Lemma fsub_represents (x y : float) (a b : Z) :
  represents x a -> represents y b -> Z.abs (RN (a - b)) < 2 ^ 2098 ->
  represents (fsub x y) (RN (a - b)).
Proof.
  intros Hx Hy Hb.
  destruct (represents_format x a Hx) as [Hfa _].
  destruct (represents_format y b Hy) as [Hfb _].
  pose proof (represents_opp y b Hy) as Hoy.
  destruct Hx as [Hcx Ha], Hy as [Hcy Hb'].
  destruct x as [sx|sx| |sx mx ex], y as [sy|sy| |sy my ey];
    unfold canonical in Hcx, Hcy; try tauto.
  - simpl in Ha, Hb'. subst a b. destruct sx, sy; split; reflexivity.
  - simpl in Ha. subst a. rewrite Z.sub_0_l, (RN_id _ (format_opp b Hfb)).
    exact Hoy.
  - simpl in Hb'. subst b. rewrite Z.sub_0_r, (RN_id a Hfa).
    split; assumption.
  - unfold fsub, SFsub. cbv zeta.
    set (ez := Z.min ex ey).
    set (M := cond_Zopp sx (Z.pos (fst (shl_align mx ex ez)))
              - cond_Zopp sy (Z.pos (fst (shl_align my ey ez)))).
    assert (HM : M * 2 ^ (ez + 1074) = a - b).
    { unfold M. rewrite Z.mul_sub_distr_r.
      rewrite !aligned_value by (unfold ez; lia). congruence. }
    rewrite <- HM in Hb |- *.
    apply binary_normalize_represents; [unfold ez; lia | exact Hb].
Qed.

(** The order of the floats of the format is the order of their values. *)
Lemma canonical_order (m1 m2 : positive) (e1 e2 : Z) :
  - 1074 <= e1 -> e1 < e2 -> Zdigits2 (Z.pos m1) <= 53 ->
  (e2 = - 1074 \/ Zdigits2 (Z.pos m2) = 53) ->
  Z.pos m1 * 2 ^ (e1 + 1074) < Z.pos m2 * 2 ^ (e2 + 1074).
Proof.
  intros H1 H12 Hd1 Hc2.
  destruct Hc2 as [?|Hd2]; [lia|].
  pose proof (Zdigits2_gt (Z.pos m1) ltac:(lia)) as Hm1.
  pose proof (Zdigits2_nonneg (Z.pos m1)) as Hd0.
  pose proof (pow2_le (Zdigits2 (Z.pos m1)) 53 ltac:(lia)).
  pose proof (Zdigits2_ge (Z.pos m2) ltac:(lia)) as Hm2.
  rewrite Hd2 in Hm2. change (2 ^ (53 - 1)) with (2 ^ 52) in Hm2.
  pose proof (pow2_pos (e1 + 1074) ltac:(lia)).
  assert (Hsp : 2 ^ (e2 + 1074) = 2 ^ (e2 - e1) * 2 ^ (e1 + 1074)).
  { rewrite <- Z.pow_add_r by lia. f_equal. lia. }
  assert (2 <= 2 ^ (e2 - e1)).
  { change 2 with (2 ^ 1) at 1. apply pow2_le. lia. }
  change (2 ^ 53) with (2 * 2 ^ 52) in *.
  rewrite Hsp. nia.
Qed.

(** Doubles compare as their values do. *)
Lemma SFcompare_canonical (x y : float) :
  canonical x -> canonical y -> SFcompare x y = Some (Zval x ?= Zval y).
Proof.
  destruct x as [sx|sx| |sx mx ex], y as [sy|sy| |sy my ey];
    unfold canonical; try tauto.
  - intros _ (He & _). pose proof (pow2_pos (ey + 1074) ltac:(lia)).
    unfold SFcompare, Zval. f_equal. symmetry. destruct sy; unfold signed.
    + apply Z.compare_gt_iff. nia.
    + apply Z.compare_lt_iff. nia.
  - intros (He & _) _. pose proof (pow2_pos (ex + 1074) ltac:(lia)).
    unfold SFcompare, Zval. f_equal. symmetry. destruct sx; unfold signed.
    + apply Z.compare_lt_iff. nia.
    + apply Z.compare_gt_iff. nia.
  - intros (Hex & Hdx & Hcx) (Hey & Hdy & Hcy).
    pose proof (pow2_pos (ex + 1074) ltac:(lia)).
    pose proof (pow2_pos (ey + 1074) ltac:(lia)).
    unfold SFcompare, Zval. f_equal.
    change (PosDef.Pos.compare_cont Eq mx my) with (Z.pos mx ?= Z.pos my).
    destruct sx, sy; unfold signed.
    + destruct (Z.compare_spec ex ey) as [->|Hlt|Hgt].
      * destruct (Z.compare_spec (Z.pos mx) (Z.pos my)); unfold CompOpp; symmetry.
        -- apply Z.compare_eq_iff. nia.
        -- apply Z.compare_gt_iff. nia.
        -- apply Z.compare_lt_iff. nia.
      * symmetry. apply Z.compare_gt_iff.
        pose proof (canonical_order mx my ex ey ltac:(lia) Hlt Hdx Hcy). lia.
      * symmetry. apply Z.compare_lt_iff.
        pose proof (canonical_order my mx ey ex ltac:(lia) ltac:(lia) Hdy Hcx). lia.
    + symmetry. apply Z.compare_lt_iff. nia.
    + symmetry. apply Z.compare_gt_iff. nia.
    + destruct (Z.compare_spec ex ey) as [->|Hlt|Hgt].
      * destruct (Z.compare_spec (Z.pos mx) (Z.pos my)); symmetry.
        -- apply Z.compare_eq_iff. nia.
        -- apply Z.compare_lt_iff. nia.
        -- apply Z.compare_gt_iff. nia.
      * symmetry. apply Z.compare_lt_iff.
        pose proof (canonical_order mx my ex ey ltac:(lia) Hlt Hdx Hcy). lia.
      * symmetry. apply Z.compare_gt_iff.
        pose proof (canonical_order my mx ey ex ltac:(lia) ltac:(lia) Hdy Hcx). lia.
Qed.

Lemma flt_represents (x y : float) (a b : Z) :
  represents x a -> represents y b -> flt x y = (a <? b).
Proof.
  intros [Hx <-] [Hy <-]. unfold flt, SFltb.
  rewrite (SFcompare_canonical x y Hx Hy). unfold Z.ltb.
  destruct (Zval x ?= Zval y); reflexivity.
Qed.

Lemma feq_represents (x y : float) (a b : Z) :
  represents x a -> represents y b -> feq x y = (a =? b).
Proof.
  intros [Hx <-] [Hy <-]. unfold feq, SFeqb.
  rewrite (SFcompare_canonical x y Hx Hy).
  destruct (Z.compare_spec (Zval x) (Zval y)) as [H|H|H];
    destruct (Z.eqb_spec (Zval x) (Zval y)); try reflexivity; lia.
Qed.

Lemma represents_fzero : represents fzero 0.
Proof. split; reflexivity. Qed.

(** Doubling is exact. *)
Lemma binary_round_aux_round (s : bool) (m : positive) (e : Z) :
  e <= fexp prec emax (Zdigits2 (Z.pos m) + e) ->
  binary_round_aux prec emax s (Z.pos m) e loc_Exact
  = binary_normalize prec emax (signed s m) e false.
Proof.
  intros H. destruct s; simpl signed; unfold binary_normalize, binary_round, shl_align;
    change (Z.pos (digits2_pos m)) with (Zdigits2 (Z.pos m));
    destruct (fexp prec emax (Zdigits2 (Z.pos m) + e) - e) eqn:Hd;
    try reflexivity; lia.
Qed.

Lemma binary_normalize_scale (M E d : Z) :
  0 <= d ->
  binary_normalize prec emax (M * 2 ^ d) (E - d) false
  = binary_normalize prec emax M E false.
Proof.
  intros Hd. pose proof (pow2_pos d Hd) as Hp.
  assert (Hpos : forall M, 0 < M ->
    binary_normalize prec emax (M * 2 ^ d) (E - d) false
    = binary_normalize prec emax M E false).
  { intros M' HM.
    rewrite !binary_normalize_key by nia.
    rewrite round_key_scale by lia. reflexivity. }
  destruct M as [|m|m].
  - reflexivity.
  - apply Hpos. lia.
  - replace (Z.neg m * 2 ^ d) with (- (Z.pos m * 2 ^ d)) by lia.
    assert (Hm : 0 < Z.pos m * 2 ^ d) by nia.
    destruct (Z.pos m * 2 ^ d) as [|q|q] eqn:Hq; try lia.
    change (- Z.pos q) with (Z.neg q).
    rewrite !binary_normalize_opp. f_equal.
    rewrite <- Hq. apply Hpos. lia.
Qed.

(** Doubling is exact below the overflow threshold. *)
Lemma fmul_two_represents (x : float) (a : Z) :
  represents x a -> Z.abs (2 * a) < 2 ^ 2098 ->
  represents (fmul x ftwo) (2 * a).
Proof.
  intros Hx Hb. destruct (represents_format x a Hx) as [Hfa _].
  destruct Hx as [Hc Ha].
  destruct x as [s|s| |s m e]; unfold canonical in Hc; try tauto.
  - simpl in Ha. subst a. split; reflexivity.
  - unfold fmul, SFmul, ftwo. rewrite xorb_false_r.
    destruct Hc as (He & Hd & Hcan).
    rewrite binary_round_aux_round.
    + assert (Hs : signed s (m * 4503599627370496) = signed s m * 2 ^ 52).
      { destruct s; simpl signed; lia. }
      rewrite Hs.
      replace (e + -51) with (e + 1 - 52) by lia.
      rewrite binary_normalize_scale by lia.
      assert (Hv : signed s m * 2 ^ (e + 1 + 1074) = 2 * a).
      { rewrite <- Ha. simpl.
        replace (e + 1 + 1074) with (1 + (e + 1074)) by lia.
        rewrite Z.pow_add_r by lia. change (2 ^ 1) with 2. ring. }
      rewrite <- (RN_id (2 * a) (format_double a Hfa)) in Hb |- *.
      rewrite <- Hv in Hb |- *.
      apply binary_normalize_represents; [lia | exact Hb].
    + rewrite fexp_eq.
      replace (Z.pos (m * 4503599627370496)) with (Z.pos m * 2 ^ 52) by lia.
      rewrite Zdigits2_scale by lia.
      pose proof (Zdigits2_pos (Z.pos m) ltac:(lia)). lia.
Qed.

(** The two-sum of two floats of the format: the rounded sum and its
    error, both exactly. *)
Lemma two_sum_represents (x y : float) (a b : Z) :
  represents x a -> represents y b ->
  Z.abs a < 2 ^ 2097 -> Z.abs b < 2 ^ 2097 -> Z.abs (RN (a + b)) < 2 ^ 2097 ->
  exists hi lo,
    two_sum x y = (hi, lo)
    /\ represents hi (RN (a + b))
    /\ represents lo (a + b - RN (a + b)).
Proof.
  assert (H97 : 2 ^ 2098 = 2 * 2 ^ 2097) by reflexivity.
  assert (Hcore : forall x y a b,
    represents x a -> represents y b -> Z.abs b <= Z.abs a ->
    Z.abs a < 2 ^ 2097 -> Z.abs (RN (a + b)) < 2 ^ 2097 ->
    represents (fadd x y) (RN (a + b))
    /\ represents (fsub y (fsub (fadd x y) x)) (a + b - RN (a + b))).
  { clear x y a b. intros x y a b Hx Hy Hle Ha Hb.
    destruct (represents_format x a Hx) as [Hfa _].
    destruct (represents_format y b Hy) as [Hfb _].
    destruct (two_sum_exact a b Hfa Hfb Hle) as [Hyr Hlo].
    pose proof (fadd_represents x y a b Hx Hy ltac:(lia)) as Hhi.
    split; [exact Hhi|].
    pose proof (fsub_represents (fadd x y) x (RN (a + b)) a Hhi Hx) as Hsub.
    rewrite (RN_id _ Hyr) in Hsub. specialize (Hsub ltac:(lia)).
    pose proof (fsub_represents y _ b _ Hy Hsub) as Hsub2.
    replace (b - (RN (a + b) - a)) with (a + b - RN (a + b)) in Hsub2 by lia.
    rewrite (RN_id _ Hlo) in Hsub2. apply Hsub2.
    pose proof (RN_nearest (a + b) a Hfa). lia. }
  intros Hx Hy Ha Hb Hs. unfold two_sum.
  rewrite (flt_represents (fabs x) (fabs y) (Z.abs a) (Z.abs b))
    by (apply represents_abs; assumption).
  destruct (Z.ltb_spec (Z.abs a) (Z.abs b)) as [Hlt|Hge].
  - destruct (Hcore y x b a Hy Hx ltac:(lia) Hb ltac:(rewrite Z.add_comm; exact Hs))
      as [H1 H2].
    rewrite (Z.add_comm b a) in H1, H2.
    eexists _, _. split; [reflexivity|]. split; assumption.
  - destruct (Hcore x y a b Hx Hy ltac:(lia) Ha Hs) as [H1 H2].
    eexists _, _. split; [reflexivity|]. split; assumption.
Qed.

(** ** The pass of [math.fsum] over its partial sums *)

(** The pass over the partial sums computes, on floats, what [zgrow]
    computes on their values, as long as no rounded sum overflows. *)
Lemma fsum_partials_represents (ps : list float) :
  forall zs x a,
    Forall2 represents ps zs -> represents x a ->
    Forall small zs -> small a -> zgrow_below (2 ^ 2097) zs a ->
    exists out x',
      fsum_partials ps x = (out, x')
      /\ Forall2 represents out (zgrow zs a).1
      /\ represents x' (zgrow zs a).2.
Proof.
  induction ps as [|y ps IH]; intros zs x a Hps Hx Hzs Ha Hbelow.
  - apply Forall2_nil_inv_l in Hps. subst zs. simpl.
    exists [], x. repeat split; [constructor | apply Hx | apply Hx].
  - apply Forall2_cons_inv_l in Hps.
    destruct Hps as (b & zs' & Hy & Hps & ->).
    apply Forall_cons in Hzs. destruct Hzs as [Hb Hzs].
    simpl in Hbelow. destruct Hbelow as [Hhi Hbelow].
    destruct (two_sum_represents x y a b Hx Hy Ha Hb Hhi)
      as (hi & lo & Hts & Hrhi & Hrlo).
    destruct (IH zs' hi (RN (a + b)) Hps Hrhi Hzs Hhi Hbelow)
      as (out & x' & Hrun & Hout & Hx').
    simpl fsum_partials. rewrite Hts, Hrun.
    simpl zgrow. destruct (zgrow zs' (RN (a + b))) as [zout zx] eqn:Hrec.
    simpl in Hout, Hx'.
    rewrite (feq_represents lo fzero _ 0 Hrlo represents_fzero).
    eexists _, _. split; [reflexivity|].
    destruct (a + b - RN (a + b) =? 0); simpl.
    + split; assumption.
    + split; [constructor; assumption | assumption].
Qed.

(** One step of the loop of [fsum], for a summand that is a finite float of
    the format and small enough. *)
Lemma fsum_step_represents (st : fsum_state) (zs : list Z) (x : float) (a : Z) :
  Forall2 represents (partials st) zs -> represents x a ->
  Forall small zs -> small a -> zgrow_below (2 ^ 2097) zs a ->
  exists st',
    fsum_step st x = Returned st'
    /\ Forall2 represents (partials st') (zstep zs a)
    /\ special_sum st' = special_sum st
    /\ inf_sum st' = inf_sum st.
Proof.
  intros Hps Hx Hzs Ha Hbelow.
  destruct (fsum_partials_represents _ _ _ _ Hps Hx Hzs Ha Hbelow)
    as (out & x' & Hrun & Hout & Hx').
  unfold fsum_step, zstep. rewrite Hrun.
  destruct (zgrow zs a) as [zout zx]. simpl in Hout, Hx'.
  rewrite (feq_represents x' fzero zx 0 Hx' represents_fzero).
  destruct (zx =? 0); simpl.
  - eexists. split; [reflexivity|]. simpl. auto.
  - rewrite (canonical_finite x' (proj1 Hx')). simpl.
    eexists. split; [reflexivity|]. simpl.
    split; [|auto]. apply Forall2_app; [exact Hout|].
    constructor; [exact Hx' | constructor].
Qed.

(** ** The final summation of [math.fsum] *)

(** The rounded sum of two doubles and its rounding error, the larger
    summand first. *)
Lemma add_then_error (x y : float) (a b : Z) :
  represents x a -> represents y b -> Z.abs b <= Z.abs a ->
  small a -> small (RN (a + b)) ->
  represents (fadd x y) (RN (a + b))
  /\ represents (fsub y (fsub (fadd x y) x)) (a + b - RN (a + b)).
Proof.
  assert (H97 : 2 ^ 2098 = 2 * 2 ^ 2097) by reflexivity.
  unfold small. intros Hx Hy Hle Ha Hb.
  destruct (represents_format x a Hx) as [Hfa _].
  destruct (represents_format y b Hy) as [Hfb _].
  destruct (two_sum_exact a b Hfa Hfb Hle) as [Hyr Hlo].
  pose proof (fadd_represents x y a b Hx Hy ltac:(lia)) as Hhi.
  split; [exact Hhi|].
  pose proof (fsub_represents (fadd x y) x (RN (a + b)) a Hhi Hx) as Hsub.
  rewrite (RN_id _ Hyr) in Hsub. specialize (Hsub ltac:(lia)).
  pose proof (fsub_represents y _ b _ Hy Hsub) as Hsub2.
  replace (b - (RN (a + b) - a)) with (a + b - RN (a + b)) in Hsub2 by lia.
  rewrite (RN_id _ Hlo) in Hsub2. apply Hsub2.
  pose proof (RN_nearest (a + b) a Hfa). lia.
Qed.

(** The final summation computes, on floats, what [ztop] computes on their
    values. *)
Lemma fsum_top_represents (below : list float) :
  forall zbelow hi zhi,
    Forall2 represents below zbelow -> represents hi zhi ->
    small zhi -> ztop_ok (2 ^ 2097) zhi zbelow ->
    let '(h, l, r) := fsum_top hi below in
    let '(zh, zl, zr) := ztop zhi zbelow in
    represents h zh /\ represents l zl /\ Forall2 represents r zr.
Proof.
  induction below as [|y below IH]; intros zbelow hi zhi Hbelow Hhi Hs Hok.
  - apply Forall2_nil_inv_l in Hbelow. subst zbelow. simpl.
    repeat split; [apply Hhi | apply Hhi | constructor].
  - apply Forall2_cons_inv_l in Hbelow.
    destruct Hbelow as (b & zb & Hy & Hbelow & ->).
    simpl in Hok. destruct Hok as (Hle & Hb & Hrec).
    destruct (add_then_error hi y zhi b Hhi Hy Hle Hs Hb) as [H1 H2].
    simpl fsum_top. simpl ztop.
    rewrite (feq_represents _ fzero _ 0 H2 represents_fzero).
    destruct (Z.eqb_spec (zhi + b - RN (zhi + b)) 0) as [Hz|Hnz]; simpl.
    + apply IH; [exact Hbelow | exact H1 | exact Hb | exact (Hrec Hz)].
    + repeat split; try assumption; apply H1 || apply H2.
Qed.

Lemma Forall2_rev {A B} (P : A -> B -> Prop) (l : list A) (k : list B) :
  Forall2 P l k -> Forall2 P (rev l) (rev k).
Proof.
  induction 1 as [|x y l k Hxy Hlk IH]; simpl; [constructor|].
  apply Forall2_app; [exact IH | constructor; [exact Hxy | constructor]].
Qed.

Lemma asum_bound (l : list Z) (B : Z) :
  asum l <= B -> Forall (fun z => Z.abs z < B + 1) l.
Proof.
  revert B. induction l as [|z l IH]; intros B HB; constructor.
  - change (asum (z :: l)) with (Z.abs z + asum l) in HB.
    pose proof (asum_nonneg l). lia.
  - apply IH. change (asum (z :: l)) with (Z.abs z + asum l) in HB. lia.
Qed.

(** The result of [fsum_round] holds [zround] of the values of the partial
    sums. *)
Lemma fsum_round_represents (ps : list float) (zs : list Z) :
  Forall2 represents ps zs -> expansion 0 zs -> asum zs <= 2 ^ 2094 ->
  represents (fsum_round ps) (zround zs).
Proof.
  intros Hps Hexp Hb.
  unfold fsum_round, zround.
  apply Forall2_rev in Hps.
  destruct (rev zs) as [|zt zbelow] eqn:Hrev.
  { apply Forall2_nil_inv_r in Hps. rewrite Hps. apply represents_fzero. }
  apply Forall2_cons_inv_r in Hps.
  destruct Hps as (top & below & Htop & Hbelow & ->).
  assert (Hzs : zs = rev zbelow ++ [zt]).
  { apply (f_equal (@rev Z)) in Hrev. rewrite rev_involutive in Hrev. exact Hrev. }
  assert (Hfzs : Forall format zs).
  { assert (H : Forall format (rev zs)).
    { rewrite Hrev. constructor.
      - apply (represents_format top). exact Htop.
      - clear - Hbelow. induction Hbelow as [|x z l zl Hx Hl IH]; constructor.
        + apply (represents_format x). exact Hx.
        + exact IH. }
    apply Forall_rev in H. rewrite rev_involutive in H. exact H. }
  rewrite Hzs in Hexp, Hb.
  pose proof (ztop_ok_expansion zbelow zt [zt] 2094 ltac:(discriminate)
                ltac:(simpl; lia) Hexp ltac:(lia) Hb) as Hok.
  assert (Hle : 2 ^ 2094 + 1 <= 2 ^ 2097) by (vm_compute; discriminate).
  assert (Hsmall_all : Forall (fun z => Z.abs z < 2 ^ 2094 + 1) (zbelow ++ [zt])).
  { apply asum_bound. rewrite asum_app, asum_rev in Hb.
    rewrite asum_app. lia. }
  apply Forall_app in Hsmall_all. destruct Hsmall_all as [Hsb Hst].
  apply Forall_cons in Hst. destruct Hst as [Hst _].
  assert (Hftop : format zt) by (apply (represents_format top); exact Htop).
  pose proof (ztop_small (2 ^ 2094 + 1) zbelow zt Hst Hsb Hftop Hok) as Hsm.
  assert (Hok' : ztop_ok (2 ^ 2097) zt zbelow).
  { clear - Hok Hle. revert zt Hok.
    induction zbelow as [|y l IH]; intros hi Hok; simpl in *; [exact I|].
    destruct Hok as (H1 & H2 & H3). split; [exact H1|]. split; [lia|].
    intros Hz. apply IH. exact (H3 Hz). }
  pose proof (fsum_top_represents below zbelow top zt Hbelow Htop
                ltac:(unfold small; lia) Hok') as Hrun.
  destruct (fsum_top top below) as [[h l] r].
  destruct (ztop zt zbelow) as [[zh zl] zr].
  destruct Hrun as (Hh & Hl & Hr). destruct Hsm as (Hsh & Hsl & _).
  destruct Hr as [|p zp r' zr' Hp Hr']; [exact Hh|].
  rewrite (flt_represents l fzero zl 0 Hl represents_fzero).
  rewrite (flt_represents p fzero zp 0 Hp represents_fzero).
  rewrite (flt_represents fzero l 0 zl represents_fzero Hl).
  rewrite (flt_represents fzero p 0 zp represents_fzero Hp).
  destruct ((zl <? 0) && (zp <? 0) || (0 <? zl) && (0 <? zp)); [|exact Hh].
  assert (H98 : 2 ^ 2098 = 16 * 2 ^ 2094) by reflexivity.
  pose proof (fmul_two_represents l zl Hl ltac:(lia)) as Hy.
  assert (Hbx : Z.abs (RN (zh + 2 * zl)) <= 2 ^ 2096).
  { apply RN_abs_le_pow2; [lia|].
    change (2 ^ 2096) with (4 * 2 ^ 2094). lia. }
  change (2 ^ 2096) with (4 * 2 ^ 2094) in Hbx.
  pose proof (fadd_represents h _ zh _ Hh Hy ltac:(lia)) as Hx.
  assert (Hbyr : Z.abs (RN (RN (zh + 2 * zl) - zh)) <= 2 ^ 2097).
  { apply RN_abs_le_pow2; [lia|].
    change (2 ^ 2097) with (8 * 2 ^ 2094). lia. }
  change (2 ^ 2097) with (8 * 2 ^ 2094) in Hbyr.
  pose proof (fsub_represents _ h _ zh Hx Hh ltac:(lia)) as Hyr.
  cbv zeta.
  rewrite (feq_represents _ _ _ _ Hy Hyr).
  destruct (2 * zl =? RN (RN (zh + 2 * zl) - zh)); assumption.
Qed.

(** ** The sum of non-negative floats *)

(** Over non-negative summands the loop keeps partial sums that do not
    overlap, whose last one dominates, and whose sum is the sum of the
    summands so far; it does not overflow while the sum stays far below the
    threshold. *)
Lemma fsum_loop_represents (xs : list float) (vs : list Z) :
  Forall2 represents xs vs -> Forall (fun v => 0 <= v) vs ->
  forall (st : fsum_state) (zs : list Z),
    Forall2 represents (partials st) zs ->
    expansion 0 zs -> Forall format zs -> dominant zs ->
    zsum zs + zsum vs <= 2 ^ 2092 ->
    exists st' zs',
      fsum_loop xs st = Returned st'
      /\ Forall2 represents (partials st') zs'
      /\ expansion 0 zs' /\ Forall format zs' /\ dominant zs'
      /\ zsum zs' = zsum zs + zsum vs
      /\ special_sum st' = special_sum st /\ inf_sum st' = inf_sum st.
Proof.
  induction 1 as [|x a xs vs Hx Hxs IH]; intros Hnn st zs Hps Hexp Hfmt Hdom Hb.
  - exists st, zs. simpl. repeat split; try assumption. lia.
  - apply Forall_cons in Hnn. destruct Hnn as [Ha Hnn].
    change (zsum (a :: vs)) with (a + zsum vs) in Hb |- *.
    assert (Hvs : 0 <= zsum vs).
    { clear - Hnn. induction Hnn as [|v l Hv Hl IHl]; simpl; lia. }
    destruct (dominant_sum zs Hdom) as [Hs0 Has].
    assert (Hfa : format a) by (apply (represents_format x); exact Hx).
    assert (H95 : 2 ^ 2095 = 8 * 2 ^ 2092) by reflexivity.
    assert (H97 : 2 ^ 2097 = 32 * 2 ^ 2092) by reflexivity.
    assert (Hbelow : zgrow_below (2 ^ 2097) zs a).
    { apply (zgrow_below_weaken (2 ^ 2095 + 1)); [lia|].
      apply zgrow_below_dominant; try assumption; lia. }
    assert (Hsmall : Forall small zs).
    { apply (Forall_impl _ _ _ (asum_bound zs (4 * zsum zs) Has)).
      intros z Hz. unfold small. lia. }
    destruct (fsum_step_represents st zs x a Hps Hx Hsmall
                ltac:(unfold small; lia) Hbelow)
      as (st1 & Hstep & Hps1 & Hsp1 & Hinf1).
    destruct (IH Hnn st1 (zstep zs a)) as (st' & zs' & Hloop & H1 & H2 & H3 & H4 & H5 & H6 & H7).
    + exact Hps1.
    + apply zstep_expansion; [lia | exact Hfa | exact Hexp |].
      exists a. change (2 ^ 0) with 1. lia.
    + apply zstep_format; assumption.
    + apply zstep_dominant; assumption.
    + rewrite zstep_sum. lia.
    + exists st', zs'. simpl fsum_loop. rewrite Hstep.
      repeat split; try assumption.
      * rewrite H5, zstep_sum. lia.
      * congruence.
      * congruence.
Qed.

(** The sum of non-negative floats whose exact sum stays far below the
    overflow threshold is the float nearest to the exact sum. *)
Lemma fsum_represents (xs : list float) (vs : list Z) :
  Forall2 represents xs vs -> Forall (fun v => 0 <= v) vs ->
  zsum vs <= 2 ^ 2092 ->
  exists r, fsum xs = Returned r /\ represents r (RN (zsum vs)).
Proof.
  intros Hxs Hnn Hb.
  destruct (fsum_loop_represents xs vs Hxs Hnn fsum_init [])
    as (st & zs & Hloop & Hps & Hexp & Hfmt & Hdom & Hsum & Hsp & Hinf).
  - constructor.
  - exact I.
  - constructor.
  - left. reflexivity.
  - simpl. lia.
  - unfold fsum. rewrite Hloop. unfold fsum_finish. rewrite Hsp. simpl.
    eexists. split; [reflexivity|].
    replace (zsum vs) with (zsum zs) by (rewrite Hsum; simpl; lia).
    rewrite <- (zround_correct zs Hexp Hfmt).
    apply fsum_round_represents; [exact Hps | exact Hexp |].
    destruct (dominant_sum zs Hdom) as [_ Has].
    change (2 ^ 2094) with (4 * 2 ^ 2092). simpl in Hsum. lia.
Qed.

(** ** The quotient [1 / n] is a double *)

Lemma Zdigits2_div_pow2_eq (m n : Z) :
  0 < m -> 0 <= n < Zdigits2 m -> Zdigits2 (m / 2 ^ n) = Zdigits2 m - n.
Proof.
  intros Hm Hn.
  pose proof (Zdigits2_ge m Hm) as Hge.
  pose proof (Zdigits2_gt m ltac:(lia)) as Hgt.
  assert (Hp : 0 < 2 ^ n) by (apply Z.pow_pos_nonneg; lia).
  assert (Hlo : 2 ^ n * 2 ^ (Zdigits2 m - n - 1) = 2 ^ (Zdigits2 m - 1)).
  { rewrite <- Z.pow_add_r by lia. f_equal. lia. }
  assert (Hhi : 2 ^ n * 2 ^ (Zdigits2 m - n) = 2 ^ Zdigits2 m).
  { rewrite <- Z.pow_add_r by lia. f_equal. lia. }
  apply Zdigits2_unique; [lia|]. split.
  - apply Z.div_le_lower_bound; [exact Hp|]. lia.
  - apply Z.div_lt_upper_bound; [exact Hp|]. lia.
Qed.

(** Shifting a significand with enough digits down to its exponent gives
    the shape of a double. *)
Lemma shr_fexp_shaped (m e : Z) (l : location) (mrs : shr_record) (e1 : Z) :
  0 <= m -> e <= fexp prec emax (Zdigits2 m + e) ->
  shr_fexp prec emax m e l = (mrs, e1) -> shaped (shr_m mrs) e1.
Proof.
  intros Hm He. unfold shr_fexp, shr. rewrite fexp_eq in He |- *.
  pose proof (Zdigits2_nonneg m) as Hd.
  destruct (Z.max (Zdigits2 m + e - 53) (- 1074) - e) as [|n|n] eqn:Hn;
    intros [= <- <-]; rewrite ?shr_m_of_loc; unfold shaped.
  - repeat split; try lia.
  - rewrite iter_shr_1_m by (rewrite shr_m_of_loc; assumption).
    rewrite shr_m_of_loc.
    assert (Hq : 0 <= m / 2 ^ Z.pos n).
    { apply Z.div_pos; [lia | apply Z.pow_pos_nonneg; lia]. }
    destruct (Z_le_gt_dec (Zdigits2 m + e - 53) (- 1074)) as [Hsub|Hnorm].
    + pose proof (Zdigits2_div_pow2 m (Z.pos n) Hm ltac:(lia)).
      repeat split; try lia.
    + assert (Hm0 : 0 < m).
      { destruct (Z.eq_dec m 0) as [->|]; [simpl in *; lia | lia]. }
      rewrite (Zdigits2_div_pow2_eq m (Z.pos n) Hm0) by lia.
      repeat split; try lia.
  - lia.
Qed.

(** Rounding up by one unit keeps the shape, after the renormalisation. *)
Lemma shaped_round (m1 e1 m2 : Z) (mrs : shr_record) (e2 : Z) :
  shaped m1 e1 -> m1 <= m2 <= m1 + 1 ->
  shr_fexp prec emax m2 e1 loc_Exact = (mrs, e2) ->
  shaped (shr_m mrs) e2.
Proof.
  intros (He1 & Hm1 & Hd1 & Hn1) Hm2.
  unfold shr_fexp, shr. rewrite fexp_eq.
  assert (Hlt : m1 < 2 ^ 53).
  { pose proof (Zdigits2_gt m1 Hm1).
    assert (2 ^ Zdigits2 m1 <= 2 ^ 53) by (apply Z.pow_le_mono_r; lia). lia. }
  destruct (Z_lt_ge_dec m2 (2 ^ 53)) as [Hsmall|Hbig].
  - pose proof (Zdigits2_small m2 ltac:(lia)) as Hd2.
    assert (Hd12 : Zdigits2 m1 <= Zdigits2 m2) by (apply Zdigits2_mono; lia).
    destruct (Z.max (Zdigits2 m2 + e1 - 53) (- 1074) - e1) as [|n|n] eqn:Hn;
      intros [= <- <-]; try lia; simpl shr_m; unfold shaped; repeat split; lia.
  - assert (Hm2' : m2 = 2 ^ 53) by lia. subst m2.
    change (Zdigits2 (2 ^ 53)) with 54.
    replace (Z.max (54 + e1 - 53) (- 1074) - e1) with 1 by lia.
    intros [= <- <-]. unfold shaped. simpl. lia.
Qed.

(** What [binary_round_aux] returns is in the shape of a double. *)
Lemma binary_round_aux_canonical (s : bool) (m e : Z) (l : location) :
  0 <= m -> e <= fexp prec emax (Zdigits2 m + e) ->
  match binary_round_aux prec emax s m e l with
  | S754_infinity _ => True
  | x => canonical x
  end.
Proof.
  intros Hm He. unfold binary_round_aux.
  destruct (shr_fexp prec emax m e l) as [mrs1 e1] eqn:H1.
  pose proof (shr_fexp_shaped _ _ _ _ _ Hm He H1) as Hs1.
  pose proof (round_nearest_even_bounds (shr_m mrs1) (loc_of_shr_record mrs1)) as Hm2.
  destruct (shr_fexp prec emax _ e1 loc_Exact) as [mrs2 e2] eqn:H2.
  pose proof (shaped_round _ _ _ _ _ Hs1 Hm2 H2) as (He2 & Hm3 & Hd3 & Hn3).
  destruct (shr_m mrs2) as [|m3|m3]; [exact I | | lia].
  unfold emax, prec.
  destruct (Z.leb_spec e2 (1024 - 53)); [|exact I].
  unfold canonical. lia.
Qed.

(** [1 / n] is a double, non-negative, and [n] times it is below [8]. *)
Lemma truediv_one_represents (n : Z) :
  0 < n ->
  exists p, truediv 1 n = Returned p /\ canonical p
            /\ 0 <= Zval p /\ Zval p * n < 2 ^ 1077.
Proof.
  intros Hn.
  destruct (truediv_one n Hn) as (p & Hp & Hshape).
  exists p. split; [exact Hp|].
  assert (Hcan : canonical p).
  { revert Hp. unfold truediv.
    destruct (Z.eqb_spec n 0) as [?|_]; [lia|].
    change (1 =? 0) with false. cbv iota.
    unfold SFdiv_core_binary.
    change (Zdigits2 1) with 1.
    pose proof (Zdigits2_pos n Hn) as Hdn.
    pose proof (Zdigits2_gt n ltac:(lia)) as Hgt.
    rewrite fexp_eq.
    set (dn := Zdigits2 n) in *.
    set (e' := Z.min (Z.max (1 + 0 - (dn + 0) - 53) (- 1074)) (0 - 0)).
    assert (He' : e' = Z.max (- 52 - dn) (- 1074)) by (unfold e'; lia).
    destruct (0 - 0 - e') as [|s|s] eqn:Hs; try lia.
    rewrite Z.shiftl_1_l.
    destruct (Z.div_eucl (2 ^ Z.pos s) n) as [q r] eqn:Hqr.
    apply div_eucl_div_mod in Hqr. destruct Hqr as [Hq Hr].
    assert (Hpow : 0 < 2 ^ Z.pos s) by (apply Z.pow_pos_nonneg; lia).
    assert (Hq0 : 0 <= q) by (subst q; apply Z.div_pos; lia).
    intros [= <-].
    assert (Hfexp : e' <= fexp prec emax (Zdigits2 q + e')).
    { rewrite fexp_eq.
      destruct (Z_le_gt_dec (- 52 - dn) (- 1074)) as [?|Hnorm]; [lia|].
      assert (Hs' : Z.pos s = 52 + dn) by lia.
      assert (Hq52 : 2 ^ 52 <= q).
      { subst q. apply Z.div_le_lower_bound; [lia|].
        rewrite Hs', Z.pow_add_r by lia.
        assert (0 < 2 ^ 52) by reflexivity. nia. }
      assert (52 < Zdigits2 q); [|lia].
      destruct (Z_lt_ge_dec 52 (Zdigits2 q)) as [?|Hle]; [assumption|].
      pose proof (Zdigits2_gt q Hq0).
      assert (2 ^ Zdigits2 q <= 2 ^ 52) by (apply Z.pow_le_mono_r; lia).
      lia. }
    pose proof (binary_round_aux_canonical false q e' (new_location n r) Hq0 Hfexp)
      as Hc.
    destruct (binary_round_aux prec emax false q e' (new_location n r)) eqn:Hres;
      try exact Hc.
    (* not an infinity *)
    destruct Hshape as [Hz | (m & e & Hfin & _)]; discriminate. }
  split; [exact Hcan|].
  destruct Hshape as [-> | (m & e & -> & He & Hmag)].
  - simpl. split; lia.
  - unfold Zval, signed. destruct Hcan as (Hce & _).
    assert (H0 : 0 < 2 ^ (e + 1074)) by (apply Z.pow_pos_nonneg; lia).
    split; [lia|].
    pose proof (Zdigits2_gt (Z.pos m) ltac:(lia)) as Hm.
    pose proof (Zdigits2_gt n ltac:(lia)) as Hgn.
    pose proof (Zdigits2_pos (Z.pos m) ltac:(lia)) as Hdm.
    pose proof (Zdigits2_pos n Hn) as Hdn.
    assert (Hprod : 2 ^ Zdigits2 (Z.pos m) * 2 ^ (e + 1074) * 2 ^ Zdigits2 n <= 2 ^ 1077).
    { rewrite <- !Z.pow_add_r by lia. apply Z.pow_le_mono_r; lia. }
    assert (Z.pos m * 2 ^ (e + 1074) < 2 ^ Zdigits2 (Z.pos m) * 2 ^ (e + 1074)) by nia.
    assert (0 < 2 ^ Zdigits2 (Z.pos m) * 2 ^ (e + 1074)) by lia.
    nia.
Qed.

(** ** [math.fsum] *)

Lemma fsum_loop_app (l1 l2 : list float) (st : fsum_state) :
  fsum_loop (l1 ++ l2) st =
    match fsum_loop l1 st with
    | Raised e => Raised e
    | Returned st' => fsum_loop l2 st'
    end.
Proof.
  revert st. induction l1 as [|x l1 IH]; intros st; simpl; [reflexivity|].
  destruct (fsum_step st x); [apply IH | reflexivity].
Qed.

(** The only exception of a pass is [OverflowError]. *)
Lemma fsum_step_raises (st : fsum_state) (x : float) (e : exn) :
  fsum_step st x = Raised e -> e = OverflowError.
Proof.
  unfold fsum_step. destruct (fsum_partials (partials st) x) as [out x'].
  destruct (negb (feq x' fzero)); [|discriminate].
  destruct (negb (isfinite x')); [|discriminate].
  destruct (isfinite x); [|discriminate].
  intros [= <-]. reflexivity.
Qed.

Lemma fsum_loop_raises (l : list float) (st : fsum_state) (e : exn) :
  fsum_loop l st = Raised e -> e = OverflowError.
Proof.
  revert st. induction l as [|x l IH]; intros st; simpl; [discriminate|].
  destruct (fsum_step st x) eqn:Hstep; [apply IH|].
  intros [= <-]. eapply fsum_step_raises; eassumption.
Qed.

Lemma fsum_step_inf_sum_ok (st st' : fsum_state) (x : float) :
  not_neg_inf x -> inf_sum_ok st -> fsum_step st x = Returned st' ->
  inf_sum_ok st'.
Proof.
  unfold fsum_step, inf_sum_ok, not_neg_inf. intros Hx Hst.
  destruct (fsum_partials (partials st) x) as [out x'].
  destruct (negb (feq x' fzero)); [|intros [= <-]; exact Hst].
  destruct (negb (isfinite x')); [|intros [= <-]; exact Hst].
  destruct (isfinite x); [discriminate|].
  intros [= <-]. simpl.
  destruct x as [| [] | |]; simpl; try exact Hst; [congruence|].
  destruct Hst as [-> | ->]; right; reflexivity.
Qed.

Lemma fsum_loop_inf_sum_ok (l : list float) (st st' : fsum_state) :
  Forall not_neg_inf l -> inf_sum_ok st -> fsum_loop l st = Returned st' ->
  inf_sum_ok st'.
Proof.
  revert st. induction l as [|x l IH]; intros st Hl Hst; simpl.
  - intros [= <-]. exact Hst.
  - apply Forall_cons in Hl. destruct Hl as [Hx Hl].
    destruct (fsum_step st x) as [st1|] eqn:Hstep; [|discriminate].
    apply IH; [exact Hl|]. eapply fsum_step_inf_sum_ok; eassumption.
Qed.

Lemma inf_sum_ok_init : inf_sum_ok fsum_init.
Proof. left. reflexivity. Qed.

Lemma fsum_finish_returns (st : fsum_state) :
  inf_sum_ok st -> exists c, fsum_finish st = Returned c.
Proof.
  unfold fsum_finish. intros [H | H]; rewrite H;
    destruct (negb (feq (special_sum st) fzero)); eexists; reflexivity.
Qed.

(** Without a negative infinity among the summands, the only exception of
    [fsum] is [OverflowError]. *)
Lemma fsum_raises (l : list float) (e : exn) :
  Forall not_neg_inf l -> fsum l = Raised e -> e = OverflowError.
Proof.
  intros Hl. unfold fsum.
  destruct (fsum_loop l fsum_init) as [st|e'] eqn:Hloop.
  - destruct (fsum_finish_returns st) as [c Hc].
    { exact (fsum_loop_inf_sum_ok _ _ _ Hl inf_sum_ok_init Hloop). }
    rewrite Hc. discriminate.
  - intros [= <-]. eapply fsum_loop_raises; eassumption.
Qed.

(** An overflow of an intermediate sum is an [OverflowError] even when the
    exact sum is in the range of the doubles: for the largest double,
    [2^969] and [2^969 - 2^916], the exact sum rounds to the largest double,
    and the additions of the third summand go through [2^1024]. *)
Lemma fsum_intermediate_overflow :
  fsum [S754_finite false 9007199254740991 971;
        S754_finite false 4503599627370496 917;
        S754_finite false 9007199254740991 916] = Raised OverflowError.
Proof. vm_compute. reflexivity. Qed.

(** When [fsum] returns on a list, it returns on every prefix of it. *)
Lemma fsum_prefix (l : list float) (k : nat) (c : float) :
  Forall not_neg_inf l -> fsum l = Returned c ->
  exists c', fsum (take k l) = Returned c'.
Proof.
  intros Hl. unfold fsum.
  rewrite <- (take_drop k l) at 1. rewrite fsum_loop_app.
  destruct (fsum_loop (take k l) fsum_init) as [st|e] eqn:Hloop; [|discriminate].
  intros _. apply fsum_finish_returns.
  exact (fsum_loop_inf_sum_ok _ _ _ (Forall_take _ k _ Hl) inf_sum_ok_init Hloop).
Qed.

(** A sum of zeros is [0.0]. *)
Lemma fsum_replicate_zero (s : bool) (j : nat) :
  fsum (replicate j (S754_zero s)) = Returned fzero.
Proof.
  unfold fsum.
  assert (H : forall st, partials st = [] ->
                         fsum_loop (replicate j (S754_zero s)) st = Returned st).
  { induction j as [|j IH]; intros st Hst; simpl; [reflexivity|].
    unfold fsum_step. rewrite Hst. simpl.
    destruct s; simpl; rewrite <- Hst; destruct st; simpl; apply IH; assumption. }
  rewrite H; reflexivity.
Qed.

Lemma zsum_replicate (j : nat) (v : Z) : zsum (replicate j v) = Z.of_nat j * v.
Proof.
  induction j as [|j IH]; [reflexivity|].
  change (zsum (replicate (S j) v)) with (v + zsum (replicate j v)).
  rewrite IH. lia.
Qed.

(** The sum of [j <= n] copies of [1 / n] is returned: it is the float
    nearest to [j] times the float [1 / n]. *)
Lemma fsum_replicate_truediv (n : Z) (p : float) (j : nat) :
  0 < n -> truediv 1 n = Returned p -> (0 < j)%nat -> Z.of_nat j <= n ->
  fsum (replicate j p) = Returned (nearest_multiple (Z.of_nat j) p).
Proof.
  intros Hn Hp Hj Hjn.
  destruct (truediv_one_represents n Hn) as (p' & Hp' & Hcan & H0 & Hmag).
  rewrite Hp in Hp'. injection Hp' as <-.
  destruct p as [s| | |s m e]; try contradiction.
  - rewrite fsum_replicate_zero.
    (* [truediv] returns the positive zero *)
    destruct (truediv_one n Hn) as (p' & Hp' & [-> | (? & ? & -> & _)]);
      rewrite Hp in Hp'; [|discriminate].
    injection Hp' as ->. reflexivity.
  - assert (Hs : s = false).
    { destruct s; [|reflexivity]. unfold Zval, signed in H0.
      destruct Hcan as (He & _).
      assert (0 < 2 ^ (e + 1074)) by (apply Z.pow_pos_nonneg; lia). lia. }
    subst s. set (v := Zval (S754_finite false m e)) in *.
    assert (Hv : 0 < v).
    { unfold v, Zval, signed. destruct Hcan as (He & _).
      assert (0 < 2 ^ (e + 1074)) by (apply Z.pow_pos_nonneg; lia). lia. }
    assert (Hjv : Z.of_nat j * v < 2 ^ 1077) by nia.
    assert (Hlt : 2 ^ 1077 < 2 ^ 2092) by reflexivity.
    destruct (fsum_represents (replicate j (S754_finite false m e)) (replicate j v))
      as (r & Hr & Hrep).
    + clear - Hcan. induction j as [|j IH]; simpl; constructor; [|exact IH].
      split; [exact Hcan | reflexivity].
    + apply Forall_replicate. lia.
    + rewrite zsum_replicate. lia.
    + transitivity (Returned r); [exact Hr|].
      f_equal. rewrite zsum_replicate in Hrep.
      unfold nearest_multiple, dyadic.
      assert (Hval : Z.of_nat j * v = Z.of_nat j * signed false m * 2 ^ (e + 1074)).
      { unfold v, Zval. lia. }
      rewrite Hval in Hrep.
      assert (Hpos : 0 < Z.of_nat j * v) by nia.
      apply (represents_inj _ _ _ Hrep).
      * apply binary_normalize_represents; [destruct Hcan; lia|].
        rewrite <- Hval.
        assert (Z.abs (RN (Z.of_nat j * v)) <= 2 ^ 1077); [|lia].
        apply RN_abs_le_pow2; lia.
      * rewrite <- Hval.
        pose proof (RN_mono 1 (Z.of_nat j * v) ltac:(lia)) as Hm.
        rewrite (RN_small 1) in Hm by (simpl; lia). lia.
Qed.

Lemma not_negative_not_neg_inf (p : float) :
  flt p fzero = false -> not_neg_inf p.
Proof. intros H ->. discriminate. Qed.

(** ** List comprehensions *)

Lemma mapM_returned {A B} (f : A -> outcome B) (l : list A) (ys : list B) :
  mapM f l = Returned ys ->
  length ys = length l /\
  forall (i : nat) (x : A),
    l !! i = Some x -> exists y, ys !! i = Some y /\ f x = Returned y.
Proof.
  revert ys. induction l as [|x l IH]; intros ys; simpl.
  - intros [= <-]. split; [reflexivity|]. intros i x Hx. discriminate.
  - destruct (f x) as [y|] eqn:Hfx; [|discriminate].
    destruct (mapM f l) as [ys'|]; [|discriminate].
    intros [= <-]. destruct (IH ys' eq_refl) as [Hlen Hall].
    split; [simpl; congruence|].
    intros [|i] x' Hx'; simpl in *.
    + injection Hx' as <-. eauto.
    + apply Hall. exact Hx'.
Qed.

Lemma mapM_returns {A B} (f : A -> outcome B) (l : list A) :
  (forall (i : nat) (x : A), l !! i = Some x -> exists y, f x = Returned y) ->
  exists ys, mapM f l = Returned ys.
Proof.
  induction l as [|x l IH]; intros Hall; simpl; [eauto|].
  destruct (Hall 0%nat x eq_refl) as [y ->].
  destruct IH as [ys ->]; [|eauto].
  intros i x' Hx'. apply (Hall (S i)). exact Hx'.
Qed.

Lemma mapM_raised {A B} (f : A -> outcome B) (l : list A) (e : exn) :
  mapM f l = Raised e ->
  exists (i : nat) (x : A), l !! i = Some x /\ f x = Raised e.
Proof.
  induction l as [|x l IH]; simpl; [discriminate|].
  destruct (f x) as [y|e'] eqn:Hfx.
  - destruct (mapM f l) as [ys'|e'']; [discriminate|].
    intros [= <-]. destruct (IH eq_refl) as (i & x' & Hx' & He).
    exists (S i), x'. auto.
  - intros [= <-]. exists 0%nat, x. auto.
Qed.

Lemma mapM_const {A B} (o : outcome B) (y : B) (l : list A) :
  o = Returned y -> mapM (fun _ => o) l = Returned (replicate (length l) y).
Proof.
  intros ->. induction l as [|x l IH]; simpl; [reflexivity|].
  rewrite IH. reflexivity.
Qed.

(** ** The cumulative sums *)

Lemma cumulative_returned (ps cum : list float) :
  cumulative ps = Returned cum ->
  length cum = length ps /\
  forall i : nat,
    (i < length ps)%nat ->
    exists c, cum !! i = Some c /\ fsum (take (S i) ps) = Returned c.
Proof.
  intros H. apply mapM_returned in H. destruct H as [Hlen Hall].
  rewrite length_seq in Hlen. split; [exact Hlen|].
  intros i Hi. apply (Hall i i). apply lookup_seq. lia.
Qed.

Lemma cumulative_returns (ps : list float) :
  (forall i : nat,
      (i < length ps)%nat -> exists c, fsum (take (S i) ps) = Returned c) ->
  exists cum, cumulative ps = Returned cum.
Proof.
  intros Hall. apply mapM_returns. intros i x Hx.
  apply lookup_seq in Hx. destruct Hx as [-> Hlt]. apply Hall. exact Hlt.
Qed.

Lemma cumulative_raises (ps : list float) (e : exn) :
  Forall not_neg_inf ps -> cumulative ps = Raised e -> e = OverflowError.
Proof.
  intros Hps H. apply mapM_raised in H. destruct H as (i & x & _ & Hx).
  eapply fsum_raises; [|exact Hx]. apply Forall_take. exact Hps.
Qed.

(** ** Choosing the probabilities *)

Section Runs.

Context {V : Type}.
Implicit Types (self : RandomGen V) (nums : list V) (ps cum : list float).

Lemma set_random_nums_run self nums :
  set_random_nums nums self =
    match nums with
    | [] => (Raised (ValueError "The list random_nums must not be empty."), self)
    | _ :: _ =>
        (Returned tt,
         mkRandomGen (Some nums) (_probabilities self)
                     (_cumulative_probabilities self))
    end.
Proof. destruct nums; reflexivity. Qed.

Lemma set_probabilities_unset self o :
  _random_nums self = None ->
  set_probabilities o self = (Raised AttributeError, self).
Proof.
  intros Hnone.
  unfold set_probabilities, validate_probabilities, equal_probabilities,
    bind, getattr.
  destruct o as [[|p ps]|]; rewrite Hnone; reflexivity.
Qed.

Lemma set_probabilities_run self nums o :
  _random_nums self = Some nums ->
  set_probabilities o self =
    match chosen_probabilities nums o with
    | Raised e => (Raised e, self)
    | Returned ps =>
        match cumulative ps with
        | Raised e =>
            (Raised e,
             mkRandomGen (Some nums) (Some ps) (_cumulative_probabilities self))
        | Returned cum =>
            (Returned tt, mkRandomGen (Some nums) (Some ps) (Some cum))
        end
    end.
Proof.
  intros Hnums.
  assert (Hrest : forall o' : outcome (list float),
    bind (lift o') (fun probabilities =>
      bind (assign_probabilities probabilities) (fun _ =>
        bind (getattr _probabilities) (fun probabilities =>
          bind (lift (cumulative probabilities)) (fun cum =>
            assign_cumulative_probabilities cum)))) self
    = match o' with
      | Raised e => (Raised e, self)
      | Returned ps =>
          match cumulative ps with
          | Raised e =>
              (Raised e,
               mkRandomGen (Some nums) (Some ps) (_cumulative_probabilities self))
          | Returned cum =>
              (Returned tt, mkRandomGen (Some nums) (Some ps) (Some cum))
          end
      end).
  { intros [ps|e]; [|reflexivity].
    unfold bind, lift, assign_probabilities, getattr,
      assign_cumulative_probabilities; simpl.
    rewrite Hnums. destruct (cumulative ps); reflexivity. }
  rewrite <- Hrest. unfold set_probabilities, bind at 1 3.
  assert (Hsel :
    match o with
    | Some (p :: ps) => validate_probabilities (p :: ps)
    | Some [] | None => equal_probabilities
    end self
    = (chosen_probabilities nums o, self)).
  { unfold chosen_probabilities, validate_probabilities, equal_probabilities,
      checked_probabilities, bind, getattr, lift, raise, ret.
    destruct o as [[|p ps]|]; rewrite Hnums; try reflexivity.
    destruct (negb _); [reflexivity|].
    destruct (existsb _ _); [reflexivity|].
    destruct (fsum (p :: ps)); [|reflexivity].
    destruct (negb _); reflexivity. }
  rewrite Hsel. unfold lift. destruct (chosen_probabilities nums o); reflexivity.
Qed.

End Runs.

Lemma existsb_negative (ps : list float) :
  existsb (fun p => flt p fzero) ps = false <-> Forall non_negative ps.
Proof.
  unfold non_negative. induction ps as [|p ps IH]; simpl.
  - split; [constructor | reflexivity].
  - rewrite orb_false_iff, IH. split.
    + intros [? ?]. constructor; assumption.
    + intros H. inversion H; subst. auto.
Qed.

Lemma non_negative_not_neg_inf (ps : list float) :
  Forall non_negative ps -> Forall not_neg_inf ps.
Proof.
  intros H. eapply Forall_impl; [exact H|].
  intros p Hp. apply not_negative_not_neg_inf. exact Hp.
Qed.

Section Chosen.

Context {V : Type}.
Implicit Types (self : RandomGen V) (nums : list V) (ps cum : list float).

Lemma len_eq {A B} (l : list A) (l' : list B) :
  (len l =? len l') = true <-> length l = length l'.
Proof. unfold len. rewrite Z.eqb_eq. lia. Qed.

Lemma checked_probabilities_returned nums ps ps' :
  checked_probabilities nums ps = Returned ps' <->
  ps' = ps /\ length ps = length nums /\ Forall non_negative ps
  /\ sum_close_to_one ps.
Proof.
  unfold checked_probabilities, sum_close_to_one.
  destruct (len nums =? len ps) eqn:Hlen; simpl.
  - apply len_eq in Hlen.
    destruct (existsb _ ps) eqn:Hneg.
    + split; [discriminate|]. intros (_ & _ & Hnn & _).
      apply existsb_negative in Hnn. congruence.
    + apply existsb_negative in Hneg.
      destruct (fsum ps) as [total|e] eqn:Hsum.
      * destruct (isclose total fone) eqn:Hclose; simpl.
        -- split; [intros [= <-]; eauto 10|]. intros (-> & _). reflexivity.
        -- split; [discriminate|]. intros (_ & _ & _ & t & [= <-] & Ht).
           congruence.
      * split; [discriminate|]. intros (_ & _ & _ & t & Ht & _). discriminate.
  - split; [discriminate|]. intros (_ & Hl & _).
    assert ((len nums =? len ps) = true) by (apply len_eq; auto). congruence.
Qed.

Lemma checked_probabilities_ValueError nums ps :
  is_ValueError (checked_probabilities nums ps) <->
  length ps <> length nums \/ Exists (fun p => flt p fzero = true) ps
  \/ sum_deviates ps.
Proof.
  unfold checked_probabilities, is_ValueError, sum_deviates.
  destruct (len nums =? len ps) eqn:Hlen; simpl.
  - apply len_eq in Hlen.
    destruct (existsb _ ps) eqn:Hneg.
    + split; [|eauto]. intros _. right; left.
      apply existsb_exists in Hneg. destruct Hneg as (p & Hin & Hp).
      apply Exists_exists. exists p. split; [|exact Hp].
      apply list_elem_of_In. exact Hin.
    + pose proof (proj1 (existsb_negative ps) Hneg) as Hnn.
      assert (Hno : ~ Exists (fun p => flt p fzero = true) ps).
      { intros Hex. apply Exists_exists in Hex. destruct Hex as (p & Hin & Hp).
        rewrite Forall_forall in Hnn. specialize (Hnn p Hin).
        unfold non_negative in Hnn. congruence. }
      destruct (fsum ps) as [total|e] eqn:Hsum.
      * destruct (isclose total fone) eqn:Hclose; simpl.
        -- split; [intros [msg ?]; discriminate|].
           intros [?|[?|(t & [= <-] & ?)]]; [congruence | contradiction | congruence].
        -- split; [eauto 10 | eauto].
      * split.
        -- intros [msg [= Hmsg]].
           apply fsum_raises in Hsum; [congruence|].
           apply non_negative_not_neg_inf. exact Hnn.
        -- intros [?|[?|(t & ? & ?)]]; [congruence | contradiction | discriminate].
  - split; [|eauto]. intros _. left. intros Heq.
    assert ((len nums =? len ps) = true) by (apply len_eq; auto). congruence.
Qed.

(** With at least one number, equal probabilities are assigned and their
    cumulative sums are all returned. *)
Lemma equal_probabilities_chosen nums :
  nums <> [] ->
  exists p cum,
    truediv 1 (len nums) = Returned p
    /\ not_neg_inf p
    /\ mapM (fun _ : V => truediv 1 (len nums)) nums
       = Returned (replicate (length nums) p)
    /\ cumulative (replicate (length nums) p) = Returned cum.
Proof.
  intros Hne.
  assert (Hn : 0 < len nums).
  { unfold len. destruct nums; [congruence | simpl; lia]. }
  destruct (truediv_one _ Hn) as (p & Hp & Hshape).
  destruct (cumulative_returns (replicate (length nums) p)) as [cum Hcum].
  { intros i Hi. rewrite length_replicate in Hi.
    rewrite take_replicate, Nat.min_l by lia. eexists.
    apply (fsum_replicate_truediv (len nums)); try assumption; unfold len; lia. }
  exists p, cum. split; [exact Hp|]. split.
  - destruct Hshape as [-> | (m & e & -> & _)]; discriminate.
  - split; [apply mapM_const; exact Hp | exact Hcum].
Qed.

Lemma new_run nums o :
  new nums o =
    match nums with
    | [] => Raised (ValueError "The list random_nums must not be empty.")
    | _ :: _ =>
        match chosen_probabilities nums o with
        | Raised e => Raised e
        | Returned ps =>
            match cumulative ps with
            | Raised e => Raised e
            | Returned cum =>
                Returned (mkRandomGen (Some nums) (Some ps) (Some cum))
            end
        end
    end.
Proof.
  unfold new, __init__, bind. rewrite set_random_nums_run.
  destruct nums as [|v nums]; [reflexivity|].
  rewrite (set_probabilities_run _ (v :: nums)) by reflexivity.
  destruct (chosen_probabilities _ o) as [ps|]; [|reflexivity].
  simpl. destruct (cumulative ps); reflexivity.
Qed.

Lemma chosen_probabilities_length nums o ps :
  chosen_probabilities nums o = Returned ps -> length ps = length nums.
Proof.
  unfold chosen_probabilities.
  assert (Heq : mapM (fun _ : V => truediv 1 (len nums)) nums = Returned ps ->
                length ps = length nums).
  { intros H. apply mapM_returned in H. tauto. }
  destruct o as [[|p ps0]|]; try exact Heq.
  intros H. apply checked_probabilities_returned in H.
  destruct H as (-> & Hlen & _). exact Hlen.
Qed.

(** What a successful [set_probabilities] leaves behind. *)
Lemma set_probabilities_returned self nums o self' :
  _random_nums self = Some nums ->
  set_probabilities o self = (Returned tt, self') ->
  exists ps cum,
    chosen_probabilities nums o = Returned ps
    /\ cumulative ps = Returned cum
    /\ self' = mkRandomGen (Some nums) (Some ps) (Some cum).
Proof.
  intros Hnums. rewrite (set_probabilities_run _ _ _ Hnums).
  destruct (chosen_probabilities nums o) as [ps|]; [|discriminate].
  destruct (cumulative ps) as [cum|] eqn:Hcum; [|discriminate].
  intros [= <-]. exists ps, cum. auto.
Qed.

Lemma new_returned nums o self :
  new nums o = Returned self ->
  nums <> [] /\
  exists ps cum,
    chosen_probabilities nums o = Returned ps
    /\ cumulative ps = Returned cum
    /\ self = mkRandomGen (Some nums) (Some ps) (Some cum).
Proof.
  rewrite new_run. destruct nums as [|v nums]; [discriminate|].
  destruct (chosen_probabilities _ o) as [ps|]; [|discriminate].
  destruct (cumulative ps) as [cum|] eqn:Hcum; [|discriminate].
  intros [= <-]. split; [discriminate | exists ps, cum; auto].
Qed.

End Chosen.

(** ** The probabilities of the tests *)

(** ** C5: the cumulative sequence holds the sums of the prefixes *)

Lemma configured_fields {V} (self : RandomGen V) :
  configured self ->
  exists nums o ps cum,
    chosen_probabilities nums o = Returned ps
    /\ cumulative ps = Returned cum
    /\ self = mkRandomGen (Some nums) (Some ps) (Some cum).
Proof.
  intros [(nums & o & Hnew) | (self0 & o & Hset)].
  - apply new_returned in Hnew. destruct Hnew as (_ & ps & cum & H).
    exists nums, o, ps, cum. exact H.
  - destruct (_random_nums self0) as [nums|] eqn:Hnums.
    + destruct (set_probabilities_returned _ _ _ _ Hnums Hset) as (ps & cum & H).
      exists nums, o, ps, cum. exact H.
    + rewrite (set_probabilities_unset _ _ Hnums) in Hset. discriminate.
Qed.

(** C5. After a successful construction or [set_probabilities] call,
    [_cumulative_probabilities] is as long as [_probabilities] and its entry
    at [i] is [fsum] of the first [i + 1] probabilities; for the probabilities
    [0.125, 0.375, 0.25, 0.0625, 0.1875] it is exactly
    [0.125, 0.5, 0.75, 0.8125, 1.0]. *)
Theorem cumulative_holds_prefix_sums {V : Type} (self : RandomGen V) :
  configured self ->
  exists ps cum,
    _probabilities self = Some ps
    /\ _cumulative_probabilities self = Some cum
    /\ length cum = length ps
    /\ (forall i : nat,
          (i < length ps)%nat ->
          exists c, cum !! i = Some c /\ fsum (take (S i) ps) = Returned c)
    /\ (ps = test_probabilities -> cum = test_cumulative).
Proof.
  intros Hconf.
  destruct (configured_fields self Hconf) as (nums & o & ps & cum & _ & Hcum & ->).
  exists ps, cum. simpl.
  destruct (cumulative_returned _ _ Hcum) as [Hlen Hall].
  repeat split; try assumption.
  intros ->. vm_compute in Hcum. injection Hcum as <-. reflexivity.
Qed.

Lemma cumulative_holds_prefix_sums_witness :
  exists ps cum,
    Returned (mkRandomGen (Some [1; 2; 3; 4; 5]) (Some ps) (Some cum))
    = new [1; 2; 3; 4; 5] (Some test_probabilities)
    /\ length cum = length ps
    /\ cum = test_cumulative.
Proof.
  destruct (cumulative_holds_prefix_sums
              (mkRandomGen (Some [1; 2; 3; 4; 5]) (Some test_probabilities)
                           (Some test_cumulative)))
    as (ps & cum & Hps & Hcum & Hlen & _ & Hex).
  - left. exists [1; 2; 3; 4; 5], (Some test_probabilities). reflexivity.
  - exists ps, cum. simpl in Hps, Hcum.
    injection Hps as <-. injection Hcum as <-.
    split; [reflexivity|]. split; [exact Hlen | reflexivity].
Defined.

(** ** C10: an empty list of probabilities counts as none *)

(** C10. For a non-empty [nums], the empty list handed in as probabilities
    is treated as an omitted argument by the constructor and by
    [set_probabilities]: no error is raised and every number gets the
    probability [1 / len(nums)], although the empty list is not as long as
    [nums]. *)
Theorem empty_probabilities_as_omitted {V : Type} (nums : list V) :
  nums <> [] ->
  length (@nil float) <> length nums
  /\ exists p,
      truediv 1 (len nums) = Returned p
      /\ (exists self,
            new nums (Some []) = Returned self
            /\ new nums None = Returned self
            /\ _probabilities self = Some (replicate (length nums) p))
      /\ (forall self0,
            _random_nums self0 = Some nums ->
            exists self',
              set_probabilities (Some []) self0 = (Returned tt, self')
              /\ set_probabilities None self0 = (Returned tt, self')
              /\ _probabilities self' = Some (replicate (length nums) p)).
Proof.
  intros Hne. split; [destruct nums; [congruence | discriminate]|].
  destruct (equal_probabilities_chosen nums Hne) as (p & cum & Hp & _ & Hmap & Hcum).
  exists p. split; [exact Hp|]. split.
  - exists (mkRandomGen (Some nums) (Some (replicate (length nums) p)) (Some cum)).
    rewrite !new_run. destruct nums as [|v nums]; [congruence|].
    unfold chosen_probabilities. rewrite Hmap, Hcum. auto.
  - intros self0 Hnums.
    exists (mkRandomGen (Some nums) (Some (replicate (length nums) p)) (Some cum)).
    rewrite !(set_probabilities_run _ _ _ Hnums).
    unfold chosen_probabilities. rewrite Hmap, Hcum. auto.
Qed.

Lemma empty_probabilities_as_omitted_witness :
  exists self,
    new [1; 2; 3] (Some []) = Returned self
    /\ new [1; 2; 3] None = Returned self
    /\ exists p, _probabilities self = Some [p; p; p].
Proof.
  destruct (empty_probabilities_as_omitted [1; 2; 3])
    as (_ & p & _ & (self & H1 & H2 & H3) & _).
  - discriminate.
  - exists self. split; [exact H1|]. split; [exact H2|]. exists p. exact H3.
Defined.

(** ** C6: equal probabilities and their cumulative sums *)

(** C6, as the code has it.  For a non-empty [nums] and omitted
    probabilities the construction succeeds, every probability is the float
    [1 / len(nums)], and the cumulative value at [k] is the sum of [k + 1]
    copies of that float as [fsum] rounds it, the float nearest to [k + 1]
    times the float [1 / len(nums)]. *)
Theorem equal_probabilities_cumulative {V : Type} (nums : list V) :
  nums <> [] ->
  exists p self cum,
    truediv 1 (len nums) = Returned p
    /\ new nums None = Returned self
    /\ _probabilities self = Some (replicate (length nums) p)
    /\ _cumulative_probabilities self = Some cum
    /\ length cum = length nums
    /\ forall k : nat,
        (k < length nums)%nat ->
        cum !! k = Some (nearest_multiple (Z.of_nat k + 1) p)
        /\ fsum (replicate (S k) p)
           = Returned (nearest_multiple (Z.of_nat k + 1) p).
Proof.
  intros Hne.
  destruct (equal_probabilities_chosen nums Hne) as (p & cum & Hp & _ & Hmap & Hcum).
  exists p, (mkRandomGen (Some nums) (Some (replicate (length nums) p)) (Some cum)), cum.
  split; [exact Hp|]. split.
  { rewrite new_run. destruct nums as [|v nums]; [congruence|].
    unfold chosen_probabilities. rewrite Hmap, Hcum. reflexivity. }
  simpl. split; [reflexivity|]. split; [reflexivity|].
  destruct (cumulative_returned _ _ Hcum) as [Hlen Hall].
  rewrite length_replicate in Hlen, Hall. split; [exact Hlen|].
  intros k Hk. destruct (Hall k Hk) as (c & Hc & Hsum).
  rewrite take_replicate, Nat.min_l in Hsum by lia.
  assert (Hn : 0 < len nums) by (unfold len; lia).
  rewrite (fsum_replicate_truediv (len nums) p (S k) Hn Hp) in Hsum
    by (unfold len; lia).
  injection Hsum as <-.
  replace (Z.of_nat k + 1) with (Z.of_nat (S k)) by lia.
  split; [exact Hc|].
  apply (fsum_replicate_truediv (len nums) p (S k)); try assumption;
    unfold len; lia.
Qed.

Lemma equal_probabilities_cumulative_witness :
  exists p self cum,
    truediv 1 (len [1; 2; 3; 4]) = Returned p
    /\ new [1; 2; 3; 4] None = Returned self
    /\ _cumulative_probabilities self = Some cum
    /\ cum !! 2%nat = Some (nearest_multiple 3 p).
Proof.
  destruct (equal_probabilities_cumulative [1; 2; 3; 4])
    as (p & self & cum & Hp & Hnew & Hps & Hcum & Hlen & Hall).
  - discriminate.
  - exists p, self, cum. split; [exact Hp|]. split; [exact Hnew|].
    split; [exact Hcum|]. apply (Hall 2%nat). simpl. lia.
Defined.

(** The claim itself fails: with ten numbers, the cumulative value at index
    2 is [0.30000000000000004], the float above [3 / 10]. *)
Lemma ten_equal_probabilities_not_exact :
  exists self cum c,
    new (replicate 10 0) None = Returned self
    /\ _cumulative_probabilities self = Some cum
    /\ cum !! 2%nat = Some c
    /\ Returned c <> truediv (2 + 1) (len (replicate 10 0))
    /\ c = S754_finite false 5404319552844596 (-54)
    /\ truediv (2 + 1) (len (replicate 10 0))
       = Returned (S754_finite false 5404319552844595 (-54)).
Proof.
  eexists. eexists. eexists.
  split; [vm_compute; reflexivity|].
  split; [reflexivity|].
  split; [reflexivity|].
  split; [vm_compute; discriminate|].
  split; reflexivity.
Qed.

(** ** What the chosen probabilities are *)

Lemma binary_round_aux_not_neg_inf (m e : Z) (l : location) :
  not_neg_inf (binary_round_aux prec emax false m e l).
Proof.
  unfold not_neg_inf, binary_round_aux.
  destruct (shr_fexp prec emax m e l) as [mrs1 e1].
  destruct (shr_fexp prec emax _ e1 loc_Exact) as [mrs2 e2].
  destruct (shr_m mrs2); try discriminate.
  destruct (e2 <=? emax - prec); discriminate.
Qed.

Lemma truediv_outcome (a b : Z) (o : outcome float) :
  truediv a b = o ->
  o = Raised ZeroDivisionError \/ exists p, o = Returned p /\ not_neg_inf p.
Proof.
  unfold truediv. intros <-.
  destruct (b =? 0); [left; reflexivity|]. right.
  destruct (a =? 0); [exists fzero; split; [reflexivity | discriminate]|].
  destruct (SFdiv_core_binary prec emax a 0 b 0) as [[q e] l].
  eexists. split; [reflexivity|]. apply binary_round_aux_not_neg_inf.
Qed.

Lemma is_ValueError_Raised {A B} (e : exn) :
  is_ValueError (@Raised A e) <-> is_ValueError (@Raised B e).
Proof.
  unfold is_ValueError. split; intros [msg [= ->]]; eauto.
Qed.

Section Validation.

Context {V : Type}.
Implicit Types (self : RandomGen V) (nums : list V) (ps cum : list float).

Lemma equal_probabilities_outcome nums :
  exists ps cum,
    mapM (fun _ : V => truediv 1 (len nums)) nums = Returned ps
    /\ cumulative ps = Returned cum
    /\ Forall not_neg_inf ps.
Proof.
  destruct nums as [|v nums].
  - exists [], []. repeat split. constructor.
  - destruct (equal_probabilities_chosen (v :: nums))
      as (p & cum & Hp & Hp' & Hmap & Hcum); [discriminate|].
    exists (replicate (length (v :: nums)) p), cum.
    split; [exact Hmap|]. split; [exact Hcum|].
    apply Forall_replicate. exact Hp'.
Qed.

Lemma chosen_probabilities_ValueError nums o :
  is_ValueError (chosen_probabilities nums o) <-> rejected nums o.
Proof.
  unfold chosen_probabilities, rejected.
  destruct (equal_probabilities_outcome nums) as (ps0 & _ & Hmap & _).
  destruct o as [[|p ps]|].
  - rewrite Hmap. split.
    + intros [msg ?]. discriminate.
    + intros (ps & [= <-] & Hne & _). congruence.
  - rewrite checked_probabilities_ValueError. split.
    + intros H. exists (p :: ps). split; [reflexivity|]. split; [discriminate|].
      exact H.
    + intros (ps' & [= <-] & _ & H). exact H.
  - rewrite Hmap. split.
    + intros [msg ?]. discriminate.
    + intros (ps & ? & _). discriminate.
Qed.

Lemma chosen_probabilities_returned nums o :
  (exists ps, chosen_probabilities nums o = Returned ps) <-> accepted nums o.
Proof.
  unfold chosen_probabilities, accepted.
  destruct (equal_probabilities_outcome nums) as (ps0 & _ & Hmap & _).
  destruct o as [[|p ps]|].
  - rewrite Hmap. split; eauto.
  - split.
    + intros [ps' H]. apply checked_probabilities_returned in H.
      destruct H as (_ & H). right; right. exists (p :: ps).
      split; [reflexivity | exact H].
    + intros [?|[?|(ps' & [= <-] & H)]]; try discriminate.
      exists (p :: ps). apply checked_probabilities_returned.
      split; [reflexivity | exact H].
  - rewrite Hmap. split; eauto.
Qed.

(** Once the probabilities are chosen, their cumulative sums are returned. *)
Lemma chosen_probabilities_cumulative nums o ps :
  chosen_probabilities nums o = Returned ps ->
  Forall not_neg_inf ps /\ exists cum, cumulative ps = Returned cum.
Proof.
  unfold chosen_probabilities.
  destruct (equal_probabilities_outcome nums) as (ps0 & cum0 & Hmap & Hcum & Hps0).
  assert (Hequal : mapM (fun _ : V => truediv 1 (len nums)) nums = Returned ps ->
                   Forall not_neg_inf ps /\ exists cum, cumulative ps = Returned cum).
  { rewrite Hmap. intros [= <-]. eauto. }
  destruct o as [[|p ps']|]; try exact Hequal.
  intros H. apply checked_probabilities_returned in H.
  destruct H as (-> & _ & Hnn & total & Hsum & _).
  pose proof (non_negative_not_neg_inf _ Hnn) as Hni.
  split; [exact Hni|].
  apply cumulative_returns. intros i _.
  eapply fsum_prefix; eassumption.
Qed.

Lemma set_probabilities_outcome self nums o :
  _random_nums self = Some nums ->
  (is_ValueError (set_probabilities o self).1 <-> rejected nums o)
  /\ ((set_probabilities o self).1 = Returned tt <-> accepted nums o)
  /\ (is_ValueError (set_probabilities o self).1 ->
      (set_probabilities o self).2 = self).
Proof.
  intros Hnums. rewrite (set_probabilities_run _ _ _ Hnums).
  rewrite <- chosen_probabilities_ValueError, <- chosen_probabilities_returned.
  destruct (chosen_probabilities nums o) as [ps|e] eqn:Hch.
  - destruct (chosen_probabilities_cumulative _ _ _ Hch) as [_ [cum ->]].
    simpl. split; [|split].
    + split; intros [msg ?]; discriminate.
    + split; eauto.
    + intros [msg ?]. discriminate.
  - simpl. split; [apply is_ValueError_Raised|]. split; [|reflexivity].
    split; [discriminate|]. intros [ps ?]. discriminate.
Qed.

Lemma new_outcome nums o :
  (is_ValueError (new nums o) <-> nums = [] \/ rejected nums o)
  /\ ((exists self, new nums o = Returned self) <-> nums <> [] /\ accepted nums o).
Proof.
  rewrite new_run.
  rewrite <- chosen_probabilities_ValueError, <- chosen_probabilities_returned.
  destruct nums as [|v nums].
  - split.
    + split; [auto|]. intros _. eexists. reflexivity.
    + split; [intros [self ?]; discriminate | intros [? _]; congruence].
  - destruct (chosen_probabilities (v :: nums) o) as [ps|e] eqn:Hch.
    + destruct (chosen_probabilities_cumulative _ _ _ Hch) as [_ [cum ->]].
      split.
      * split; [intros [msg ?]; discriminate|].
        intros [?|[msg ?]]; discriminate.
      * split; [intros _; split; [discriminate | eauto]|]. eauto.
    + split.
      * rewrite (is_ValueError_Raised (A:=RandomGen V) (B:=list float)).
        split; [auto|]. intros [?|?]; [discriminate | assumption].
      * split; [intros [self ?]; discriminate|].
        intros [_ [ps ?]]. discriminate.
Qed.

End Validation.

(** ** C3: when the constructor and the setters raise [ValueError] *)

(** C3, as the code has it.  The constructor raises [ValueError] exactly when
    [nums] is empty or the probabilities are [rejected]: a non-empty list was
    handed in and it is not as long as [nums], or holds a negative entry, or
    [fsum] returns a sum that [isclose] does not take for [1.0].  It succeeds
    exactly when [nums] is non-empty and the probabilities are omitted, empty,
    or pass the three checks.  [set_random_nums] and [set_probabilities]
    (against the numbers already set) behave likewise. *)
Theorem construction_validates {V : Type} (nums : list V) (o : option (list float)) :
  (is_ValueError (new nums o) <-> nums = [] \/ rejected nums o)
  /\ ((exists self, new nums o = Returned self) <-> nums <> [] /\ accepted nums o)
  /\ (forall self0 : RandomGen V,
        (is_ValueError (set_random_nums nums self0).1 <-> nums = [])
        /\ ((set_random_nums nums self0).1 = Returned tt <-> nums <> []))
  /\ (forall (self0 : RandomGen V) (nums0 : list V),
        _random_nums self0 = Some nums0 ->
        (is_ValueError (set_probabilities o self0).1 <-> rejected nums0 o)
        /\ ((set_probabilities o self0).1 = Returned tt <-> accepted nums0 o)).
Proof.
  destruct (new_outcome nums o) as [Hraise Hret].
  split; [exact Hraise|]. split; [exact Hret|]. split.
  - intros self0. rewrite set_random_nums_run.
    destruct nums as [|v nums]; simpl.
    + split; [split; [reflexivity | intros _; eexists; reflexivity]|].
      split; [discriminate | congruence].
    + split; [split; [intros [msg ?]; discriminate | discriminate]|].
      split; [discriminate | reflexivity].
  - intros self0 nums0 Hnums.
    destruct (set_probabilities_outcome self0 nums0 o Hnums) as (H1 & H2 & _).
    split; assumption.
Qed.

Lemma construction_validates_witness :
  is_ValueError (new [1; 2; 3] (Some [dyadic 1 (-1); dyadic 1 (-1)]))
  /\ is_ValueError (new [1; 2; 3] (Some [dyadic 1 (-1); dyadic (-1) (-1); fone]))
  /\ is_ValueError (new [1; 2; 3] (Some [dyadic 1 (-2); dyadic 1 (-2); dyadic 1 (-2)]))
  /\ is_ValueError (new (@nil Z) None).
Proof.
  split; [|split; [|split]].
  - apply (proj1 (construction_validates [1; 2; 3] _)). right.
    eexists. split; [reflexivity|]. split; [discriminate|].
    left. simpl. lia.
  - apply (proj1 (construction_validates [1; 2; 3] _)). right.
    eexists. split; [reflexivity|]. split; [discriminate|].
    right; left. apply Exists_cons_tl, Exists_cons_hd. reflexivity.
  - apply (proj1 (construction_validates [1; 2; 3] _)). right.
    eexists. split; [reflexivity|]. split; [discriminate|].
    right; right. exists (dyadic 3 (-2)). split; vm_compute; reflexivity.
  - apply (proj1 (construction_validates (@nil Z) None)). left. reflexivity.
Defined.

(** The claim itself fails: the empty list is not as long as the three
    numbers, and the construction succeeds. *)
Lemma empty_probabilities_not_rejected :
  length (@nil float) <> length [1; 2; 3]
  /\ exists self, new [1; 2; 3] (Some []) = Returned self.
Proof.
  split; [discriminate|]. eexists. vm_compute. reflexivity.
Qed.

(** ** C9: a failed reconfiguration leaves the state as it was *)

(** C9. When [set_probabilities] or [set_random_nums] raises [ValueError],
    the three attributes are as before the call. *)
Theorem failed_reconfiguration_is_atomic
    {V : Type} (self self' : RandomGen V) (msg : string) :
  (exists o, set_probabilities o self = (Raised (ValueError msg), self'))
  \/ (exists nums, set_random_nums nums self = (Raised (ValueError msg), self')) ->
  self' = self.
Proof.
  intros [[o Hset] | [nums Hset]].
  - destruct (_random_nums self) as [nums|] eqn:Hnums.
    + destruct (set_probabilities_outcome self nums o Hnums) as (_ & _ & Hsame).
      rewrite Hset in Hsame. apply Hsame. exists msg. reflexivity.
    + rewrite (set_probabilities_unset _ _ Hnums) in Hset. discriminate.
  - rewrite set_random_nums_run in Hset.
    destruct nums; [congruence | discriminate].
Qed.

Lemma failed_reconfiguration_is_atomic_witness :
  let self := mkRandomGen (Some [1; 2; 3]) (Some zero_probabilities)
                          (Some [dyadic 3 (-2); dyadic 3 (-2); fone]) in
  (set_probabilities (Some [dyadic 1 (-1); dyadic 1 (-1)]) self).2 = self.
Proof.
  intros self.
  apply (failed_reconfiguration_is_atomic self _
    "The lists random_nums and probabilities must contain the same number of elements.").
  left. exists (Some [dyadic 1 (-1); dyadic 1 (-1)]). reflexivity.
Defined.

(** ** C7 and C8: the states a sampler goes through *)

Lemma reachable_fields {V : Type} (op : operation) (self : RandomGen V) :
  reachable op self ->
  exists nums ps cum,
    self = mkRandomGen (Some nums) (Some ps) (Some cum)
    /\ nums <> [] /\ ps <> [] /\ length cum = length ps
    /\ (op <> SetValues -> length ps = length nums).
Proof.
  assert (Hbuilt : forall (nums : list V) (o : option (list float))
                          (ps cum : list float),
    nums <> [] -> chosen_probabilities nums o = Returned ps ->
    cumulative ps = Returned cum ->
    ps <> [] /\ length cum = length ps /\ length ps = length nums).
  { intros nums o ps cum Hne Hch Hcum.
    pose proof (chosen_probabilities_length _ _ _ Hch) as Hlen.
    destruct (cumulative_returned _ _ Hcum) as [Hlen' _].
    split; [|auto]. destruct nums, ps; simpl in *; congruence. }
  induction 1 as [nums o self Hnew
                 | op self nums' self' Hreach IH Hset
                 | op self o self' Hreach IH Hset].
  - apply new_returned in Hnew. destruct Hnew as (Hne & ps & cum & Hch & Hcum & ->).
    destruct (Hbuilt _ _ _ _ Hne Hch Hcum) as (? & ? & ?).
    exists nums, ps, cum. auto.
  - destruct IH as (nums & ps & cum & -> & Hne & Hps & Hlen & _).
    rewrite set_random_nums_run in Hset.
    destruct nums' as [|v nums']; [discriminate|].
    injection Hset as <-. simpl.
    exists (v :: nums'), ps, cum. repeat split; try assumption; congruence.
  - destruct IH as (nums & ps & cum & -> & Hne & Hps & Hlen & _).
    destruct (set_probabilities_returned
                (mkRandomGen (Some nums) (Some ps) (Some cum)) nums o self'
                eq_refl Hset)
      as (ps' & cum' & Hch & Hcum & ->).
    destruct (Hbuilt _ _ _ _ Hne Hch Hcum) as (? & ? & ?).
    exists nums, ps', cum'. auto.
Qed.

Lemma sampler_of_three_new : new [1; 2; 3] None = Returned sampler_of_three.
Proof. vm_compute. reflexivity. Qed.

Lemma sampler_of_one_reachable : reachable SetValues sampler_of_one.
Proof.
  apply (reach_set_random_nums Construct sampler_of_three [7]).
  - exact (reach_new _ _ _ sampler_of_three_new).
  - reflexivity.
Qed.

(** In a reachable state the search returns an index of the cumulative
    sequence; the subscript of [next_num] succeeds when [_random_nums] is
    not shorter. *)
Lemma reachable_next_num
    {V : Type} (op : operation) (self : RandomGen V) (rand_num : float) :
  reachable op self ->
  exists nums cum i,
    _random_nums self = Some nums
    /\ _cumulative_probabilities self = Some cum
    /\ _find_index rand_num self = (Returned i, self)
    /\ 0 <= i < len cum
    /\ (op <> SetValues \/ len cum <= len nums ->
        exists v, v ∈ nums /\ nums !! Z.to_nat i = Some v
                  /\ next_num rand_num self = (Returned v, self)).
Proof.
  intros Hreach.
  destruct (reachable_fields op self Hreach)
    as (nums & ps & cum & -> & Hne & Hps & Hlen & Hop).
  assert (Hcne : cum <> []).
  { destruct cum, ps; simpl in Hlen; congruence. }
  destruct (bisect_loop_from_zero cum rand_num Hcne) as (i & Hi & Hrange & _).
  exists nums, cum, i. simpl.
  split; [reflexivity|]. split; [reflexivity|].
  split; [rewrite (find_index_run _ cum) by reflexivity; rewrite Hi; reflexivity|].
  split; [lia|].
  intros Hcond.
  assert (Hle : len cum <= len nums).
  { destruct Hcond as [Hcond | Hcond]; [|exact Hcond].
    unfold len. rewrite Hlen, (Hop Hcond). lia. }
  destruct (getitem_in_range nums i) as (v & Hget & Hv); [lia|].
  exists v. split; [eapply list_elem_of_lookup_2; exact Hv|].
  split; [exact Hv|].
  rewrite (next_num_run _ nums cum rand_num i) by (reflexivity || exact Hi).
  rewrite Hget. reflexivity.
Qed.

(** C7, as the code has it.  In every state reached from a successful
    construction by successful reconfigurations the three lists exist, none is
    empty and [_cumulative_probabilities] is as long as [_probabilities];
    [_random_nums] is as long as the two unless the last call was
    [set_random_nums], which replaces the numbers and nothing else. *)
Theorem reachable_invariant {V : Type} (op : operation) (self : RandomGen V) :
  reachable op self ->
  exists nums ps cum,
    _random_nums self = Some nums
    /\ _probabilities self = Some ps
    /\ _cumulative_probabilities self = Some cum
    /\ (1 <= length nums)%nat
    /\ (1 <= length ps)%nat
    /\ length cum = length ps
    /\ (op <> SetValues -> length nums = length ps).
Proof.
  intros Hreach.
  destruct (reachable_fields op self Hreach)
    as (nums & ps & cum & -> & Hne & Hps & Hlen & Hop).
  exists nums, ps, cum. simpl.
  repeat split; try assumption.
  - destruct nums; [congruence | simpl; lia].
  - destruct ps; [congruence | simpl; lia].
  - intros H. symmetry. auto.
Qed.

Lemma reachable_invariant_witness :
  exists nums ps cum,
    _random_nums sampler_of_three = Some nums
    /\ _probabilities sampler_of_three = Some ps
    /\ _cumulative_probabilities sampler_of_three = Some cum
    /\ length nums = length ps /\ length cum = length ps.
Proof.
  pose proof sampler_of_three_new as Hnew.
  destruct (reachable_invariant Construct sampler_of_three (reach_new _ _ _ Hnew))
    as (nums & ps & cum & H1 & H2 & H3 & _ & _ & H4 & H5).
  exists nums, ps, cum. repeat split; try assumption.
  apply H5. discriminate.
Defined.

(** The claim itself fails: after [set_random_nums] with one number on a
    sampler of three, one number faces three probabilities. *)
Lemma set_random_nums_breaks_alignment :
  new [1; 2; 3] None = Returned sampler_of_three
  /\ set_random_nums [7] sampler_of_three = (Returned tt, sampler_of_one)
  /\ reachable SetValues sampler_of_one
  /\ _random_nums sampler_of_one = Some [7]
  /\ _probabilities sampler_of_one = Some [one_third; one_third; one_third]
  /\ length [7] <> length [one_third; one_third; one_third].
Proof.
  pose proof sampler_of_three_new as Hnew.
  split; [exact Hnew|]. split; [reflexivity|]. split.
  - apply (reach_set_random_nums Construct sampler_of_three [7]).
    + exact (reach_new _ _ _ Hnew).
    + reflexivity.
  - split; [reflexivity|]. split; [reflexivity | discriminate].
Qed.

(** C8, as the code has it.  In every state reached from a successful
    construction by successful reconfigurations, [_find_index] returns an
    index of [_cumulative_probabilities] for any drawn float.  When the last
    call was not [set_random_nums], or more generally when [_random_nums] has
    at least as many entries as [_cumulative_probabilities], [next_num] does
    not raise and returns an element of [_random_nums]. *)
Theorem next_num_returns_a_number
    {V : Type} (op : operation) (self : RandomGen V) (rand_num : float) :
  reachable op self ->
  exists nums cum i,
    _random_nums self = Some nums
    /\ _cumulative_probabilities self = Some cum
    /\ _find_index rand_num self = (Returned i, self)
    /\ 0 <= i < len cum
    /\ (op <> SetValues \/ len cum <= len nums ->
        exists v, v ∈ nums /\ nums !! Z.to_nat i = Some v
                  /\ next_num rand_num self = (Returned v, self)).
Proof.
  intros Hreach. apply reachable_next_num. exact Hreach.
Qed.

Lemma next_num_returns_a_number_witness :
  exists v, v ∈ [1; 2; 3]
            /\ next_num (dyadic 1 (-1)) sampler_of_three
               = (Returned v, sampler_of_three).
Proof.
  pose proof sampler_of_three_new as Hnew.
  destruct (next_num_returns_a_number Construct sampler_of_three (dyadic 1 (-1))
              (reach_new _ _ _ Hnew))
    as (nums & cum & i & Hnums & _ & _ & _ & Hv).
  destruct Hv as (v & Hin & _ & Hnext); [left; discriminate|].
  injection Hnums as <-. exists v. split; assumption.
Defined.

(** The claim itself fails: on the sampler of three that was given one
    number, the draw [0.5] selects index 1 and the subscript raises. *)
Lemma next_num_raises_after_set_random_nums :
  reachable SetValues sampler_of_one
  /\ fle fzero (dyadic 1 (-1)) = true
  /\ flt (dyadic 1 (-1)) fone = true
  /\ _find_index (dyadic 1 (-1)) sampler_of_one = (Returned 1, sampler_of_one)
  /\ next_num (dyadic 1 (-1)) sampler_of_one = (Raised IndexError, sampler_of_one).
Proof.
  split; [exact sampler_of_one_reachable|].
  repeat split; vm_compute; reflexivity.
Qed.

(** ** C2: entries of probability zero *)

(** With the probabilities [0.75, 0, 0.25] of the tests, whatever float is
    drawn, [next_num] returns the first or the third number. *)
Lemma zero_probabilities_first_or_third
    {V : Type} (self : RandomGen V) (cum : list float) (v1 v2 v3 : V)
    (rand_num : float) :
  _random_nums self = Some [v1; v2; v3] ->
  _cumulative_probabilities self = Some cum ->
  cumulative zero_probabilities = Returned cum ->
  next_num rand_num self = (Returned v1, self)
  \/ next_num rand_num self = (Returned v3, self).
Proof.
  intros Hnums Hcum Hbuilt.
  vm_compute in Hbuilt. injection Hbuilt as <-.
  set (c := S754_finite false 6755399441055744 (-53)) in *.
  destruct (flt c rand_num) eqn:Hcmp.
  - right.
    rewrite (next_num_run _ _ _ _ 2 Hnums Hcum); [reflexivity|].
    change (len _ - 1) with 2.
    rewrite bisect_loop_iter by lia. cbv zeta.
    change (getitem _ (0 + (2 - 0) / 2)) with (Returned c). cbv beta iota.
    rewrite Hcmp. apply (bisect_loop_exit _ _ 2 2). lia.
  - left.
    rewrite (next_num_run _ _ _ _ 0 Hnums Hcum); [reflexivity|].
    change (len _ - 1) with 2.
    rewrite bisect_loop_iter by lia. cbv zeta.
    change (getitem _ (0 + (2 - 0) / 2)) with (Returned c). cbv beta iota.
    rewrite Hcmp.
    change (0 + (2 - 0) / 2) with 1.
    rewrite bisect_loop_iter by lia. cbv zeta.
    change (getitem _ (0 + (1 - 0) / 2)) with (Returned c). cbv beta iota.
    rewrite Hcmp. apply (bisect_loop_exit _ _ 0 0). lia.
Qed.

(** C2.  The claim fails on the code: with the probabilities [0, 1] the
    cumulative sequence is [0.0, 1.0], the draw [0.0] makes [_find_index]
    return index 0, whose probability is zero, and [next_num] returns the
    number stored there.  The docstring of [_find_index] speaks of the
    cumulative probability greater than the draw, which is the one at
    index 1. *)
Lemma leading_zero_probability_selected :
  let self := mkRandomGen (Some [1; 2]) (Some [fzero; fone]) (Some [fzero; fone]) in
  new [1; 2] (Some [fzero; fone]) = Returned self
  /\ Forall non_negative [fzero; fone]
  /\ fle fzero fzero = true
  /\ flt fzero fone = true
  /\ _find_index fzero self = (Returned 0, self)
  /\ [fzero; fone] !! Z.to_nat 0 = Some fzero
  /\ feq fzero fzero = true
  /\ flt fzero fzero = false
  /\ flt fzero fone = true
  /\ next_num fzero self = (Returned 1, self).
Proof.
  intros self.
  split; [vm_compute; reflexivity|].
  split; [repeat constructor|].
  repeat split; vm_compute; reflexivity.
Qed.

(** ** A check of [non_decreasing] on a given list *)

Lemma non_decreasingb_sound (l : list float) :
  non_decreasingb l = true -> non_decreasing l.
Proof.
  induction l as [|x l IH]; intros H i j a b Hij Ha Hb.
  - discriminate.
  - simpl in H. apply andb_prop in H. destruct H as [H Hrec].
    apply andb_prop in H. destruct H as [Hxx Hall].
    destruct i as [|i], j as [|j]; simpl in Ha, Hb.
    + congruence.
    + injection Ha as <-.
      rewrite forallb_forall in Hall. apply Hall.
      apply list_elem_of_In. eapply list_elem_of_lookup_2. exact Hb.
    + lia.
    + apply (IH Hrec i j); [lia | assumption | assumption].
Qed.

Lemma next_num_returns_lower_bound_witness :
  let self := mkRandomGen (Some [1; 2; 3]) (Some zero_probabilities)
                          (Some [dyadic 3 (-2); dyadic 3 (-2); fone]) in
  exists i v,
    smallest_index_ge [dyadic 3 (-2); dyadic 3 (-2); fone] (dyadic 1 (-1)) i
    /\ [1; 2; 3] !! Z.to_nat i = Some v
    /\ next_num (dyadic 1 (-1)) self = (Returned v, self).
Proof.
  intros self.
  destruct (next_num_returns_lower_bound self [1; 2; 3]
              [dyadic 3 (-2); dyadic 3 (-2); fone] (dyadic 1 (-1)) fone)
    as (i & v & Hsmall & _ & Hv & Hnext); try reflexivity.
  - apply non_decreasingb_sound. reflexivity.
  - exists i, v. split; [exact Hsmall|]. split; [exact Hv | exact Hnext].
Defined.

(** The claim itself fails: the sampler of three that was given one number
    has a non-decreasing cumulative sequence, index 1 is the smallest with a
    cumulative value of at least [0.5], and [next_num] raises instead of
    returning a number. *)
Lemma lower_bound_subscript_raises :
  reachable SetValues sampler_of_one
  /\ _cumulative_probabilities sampler_of_one
     = Some [one_third; S754_finite false 6004799503160661 (-53); fone]
  /\ non_decreasing [one_third; S754_finite false 6004799503160661 (-53); fone]
  /\ fle fzero (dyadic 1 (-1)) = true
  /\ flt (dyadic 1 (-1)) fone = true
  /\ fle (dyadic 1 (-1)) fone = true
  /\ smallest_index_ge
       [one_third; S754_finite false 6004799503160661 (-53); fone]
       (dyadic 1 (-1)) 1
  /\ _random_nums sampler_of_one = Some [7]
  /\ [7] !! Z.to_nat 1 = None
  /\ next_num (dyadic 1 (-1)) sampler_of_one = (Raised IndexError, sampler_of_one).
Proof.
  split; [exact sampler_of_one_reachable|].
  split; [reflexivity|].
  split; [apply non_decreasingb_sound; reflexivity|].
  do 3 (split; [reflexivity|]).
  split.
  - split; [split; [vm_compute; discriminate | reflexivity]|]. split.
    + eexists. split; reflexivity.
    + intros [|j] c Hj Hc; [|simpl in Hj; lia].
      injection Hc as <-. reflexivity.
  - split; [reflexivity|]. split; reflexivity.
Qed.

(** * Further properties of the search *)

Lemma flt_fle_trans (a b c : float) :
  flt a b = true -> fle b c = true -> flt a c = true.
Proof.
  intros Hlt Hle.
  destruct (flt_not_nan _ _ Hlt) as [Ha Hb].
  destruct (fle_not_nan _ _ Hle) as [_ Hc].
  apply flt_rank; try assumption.
  apply flt_rank in Hlt; try assumption.
  apply fle_rank in Hle; try assumption.
  unfold rank_le, rank_lt in *.
  destruct Hle as [Hle | Heq]; [| rewrite <- Heq]; lia.
Qed.

Lemma find_index_stops {V : Type} (self : RandomGen V) (cum : list float)
    (rand_num : float) :
  _cumulative_probabilities self = Some cum ->
  cum <> [] ->
  exists i, _find_index rand_num self = (Returned i, self)
            /\ stops_at cum rand_num 0 (len cum - 1) i.
Proof.
  intros Hcum Hne.
  destruct (bisect_loop_from_zero cum rand_num Hne) as (i & Hi & Hstop).
  exists i. rewrite (find_index_run _ _ _ Hcum), Hi. auto.
Qed.

(** In a non-decreasing list only one index has an entry not below the draw
    (or is the last) while its predecessor is below the draw (or is missing). *)
Lemma stops_at_unique (cum : list float) (rand_num : float) (i j : Z) :
  non_decreasing cum ->
  stops_at cum rand_num 0 (len cum - 1) i ->
  stops_at cum rand_num 0 (len cum - 1) j ->
  i = j.
Proof.
  assert (Hlt : forall a b,
    non_decreasing cum ->
    stops_at cum rand_num 0 (len cum - 1) a ->
    stops_at cum rand_num 0 (len cum - 1) b ->
    a < b -> False).
  { intros a b Hsorted (Ha & _ & Hahi) (Hb & Hblo & _) Hab.
    destruct Hahi as [-> | (ca & Hca & Hcmpa)]; [lia|].
    destruct Hblo as [-> | (cb & Hcb & Hcmpb)]; [lia|].
    assert (Hle : fle ca cb = true).
    { apply (Hsorted (Z.to_nat a) (Z.to_nat (b - 1))); [lia | exact Hca | exact Hcb]. }
    rewrite (fle_flt_trans _ _ _ Hle Hcmpb) in Hcmpa. discriminate. }
  intros Hsorted Hi Hj.
  destruct (Z.lt_trichotomy i j) as [H | [H | H]]; [exfalso | exact H | exfalso].
  - exact (Hlt i j Hsorted Hi Hj H).
  - exact (Hlt j i Hsorted Hj Hi H).
Qed.

(** The draws that select index [i]: those above the cumulative value before
    [i] and not above the cumulative value at [i], the last index also taking
    every draw above all values and the first every draw not above any. *)
Theorem find_index_selects_interval
    {V : Type} (self : RandomGen V) (cum : list float) (rand_num : float) (i : Z) :
  _cumulative_probabilities self = Some cum ->
  non_decreasing cum ->
  0 <= i < len cum ->
  _find_index rand_num self = (Returned i, self)
  <-> (i = 0 \/ exists c, cum !! Z.to_nat (i - 1) = Some c /\ flt c rand_num = true)
      /\ (i = len cum - 1
          \/ exists c, cum !! Z.to_nat i = Some c /\ flt c rand_num = false).
Proof.
  intros Hcum Hsorted Hi.
  assert (Hne : cum <> []) by (intros ->; unfold len in Hi; simpl in Hi; lia).
  destruct (find_index_stops self cum rand_num Hcum Hne) as (j & Hj & Hstop).
  rewrite Hj. split.
  - intros [= <-]. destruct Hstop as (_ & Hlo & Hhi). auto.
  - intros [Hlo Hhi]. f_equal. f_equal.
    apply (stops_at_unique cum rand_num j i Hsorted Hstop).
    split; [lia | auto].
Qed.

Lemma find_index_selects_interval_witness :
  let cum := [dyadic 1 (-2); dyadic 3 (-2); fone] in
  let self := mkRandomGen (Some [1; 2; 3]) None (Some cum) in
  _find_index (dyadic 1 (-1)) self = (Returned 1, self).
Proof.
  intros cum self.
  apply (find_index_selects_interval self cum (dyadic 1 (-1)) 1).
  - reflexivity.
  - apply non_decreasingb_sound. reflexivity.
  - unfold len. simpl. lia.
  - split.
    + right. exists (dyadic 1 (-2)). split; reflexivity.
    + right. exists (dyadic 3 (-2)). split; reflexivity.
Defined.

(** A larger draw never selects a smaller index. *)
Theorem find_index_monotone
    {V : Type} (self : RandomGen V) (cum : list float) (u u' : float) (i i' : Z) :
  _cumulative_probabilities self = Some cum ->
  non_decreasing cum ->
  fle u u' = true ->
  _find_index u self = (Returned i, self) ->
  _find_index u' self = (Returned i', self) ->
  i <= i'.
Proof.
  intros Hcum Hsorted Hle Hi Hi'.
  assert (Hcases : cum = [] \/ cum <> []).
  { destruct cum; [left; reflexivity | right; discriminate]. }
  destruct Hcases as [-> | Hne].
  { rewrite (find_index_run _ _ _ Hcum) in Hi.
    rewrite (find_index_run _ _ _ Hcum) in Hi'.
    rewrite bisect_loop_exit in Hi by (unfold len; simpl; lia).
    rewrite bisect_loop_exit in Hi' by (unfold len; simpl; lia).
    injection Hi as <-. injection Hi' as <-. lia. }
  destruct (find_index_stops self cum u Hcum Hne) as (j & Hj & Hrange & Hlo & _).
  destruct (find_index_stops self cum u' Hcum Hne) as (j' & Hj' & Hrange' & _ & Hhi').
  rewrite Hj in Hi. rewrite Hj' in Hi'.
  injection Hi as <-. injection Hi' as <-.
  destruct (Z_le_gt_dec j j') as [?|Hgt]; [assumption | exfalso].
  destruct Hlo as [-> | (c & Hc & Hcmp)]; [lia|].
  destruct Hhi' as [-> | (c' & Hc' & Hcmp')]; [lia|].
  assert (Hcc : fle c' c = true).
  { apply (Hsorted (Z.to_nat j') (Z.to_nat (j - 1))); [lia | exact Hc' | exact Hc]. }
  pose proof (flt_fle_trans _ _ _ (fle_flt_trans _ _ _ Hcc Hcmp) Hle) as Habs.
  congruence.
Qed.

Lemma find_index_monotone_witness :
  let cum := [dyadic 1 (-2); dyadic 3 (-2); fone] in
  let self := mkRandomGen (Some [1; 2; 3]) None (Some cum) in
  0 <= 2.
Proof.
  intros cum self.
  apply (find_index_monotone self cum (dyadic 1 (-3)) (dyadic 7 (-3)) 0 2).
  - reflexivity.
  - apply non_decreasingb_sound. reflexivity.
  - reflexivity.
  - vm_compute. reflexivity.
  - vm_compute. reflexivity.
Defined.

(** A draw above every cumulative value selects the last index. *)
Theorem find_index_above_all
    {V : Type} (self : RandomGen V) (cum : list float) (rand_num : float) :
  _cumulative_probabilities self = Some cum ->
  cum <> [] ->
  (forall (j : nat) (c : float), cum !! j = Some c -> flt c rand_num = true) ->
  _find_index rand_num self = (Returned (len cum - 1), self).
Proof.
  intros Hcum Hne Hall.
  destruct (find_index_stops self cum rand_num Hcum Hne) as (i & Hi & _ & _ & Hhi).
  rewrite Hi. destruct Hhi as [-> | (c & Hc & Hcmp)]; [reflexivity|].
  rewrite (Hall _ _ Hc) in Hcmp. discriminate.
Qed.

Lemma find_index_above_all_witness :
  let cum := [dyadic 1 (-2); dyadic 3 (-2); dyadic 7 (-3)] in
  let self := mkRandomGen (Some [1; 2; 3]) None (Some cum) in
  _find_index (dyadic 15 (-4)) self = (Returned 2, self).
Proof.
  intros cum self.
  apply (find_index_above_all self cum (dyadic 15 (-4))).
  - reflexivity.
  - discriminate.
  - intros [|[|[|j]]] c; simpl; intros [= <-]; reflexivity.
Defined.

(** A draw that no cumulative value is below (a NaN for instance, or a
    number not above the first of a non-decreasing list) selects index 0. *)
Theorem find_index_none_below
    {V : Type} (self : RandomGen V) (cum : list float) (rand_num : float) :
  _cumulative_probabilities self = Some cum ->
  (forall (j : nat) (c : float), cum !! j = Some c -> flt c rand_num = false) ->
  _find_index rand_num self = (Returned 0, self).
Proof.
  intros Hcum Hall.
  destruct cum as [|c0 cum'] eqn:Hshape.
  - rewrite (find_index_run _ _ _ Hcum).
    rewrite bisect_loop_exit by (unfold len; simpl; lia). reflexivity.
  - rewrite <- Hshape in *.
    assert (Hne : cum <> []) by (rewrite Hshape; discriminate).
    destruct (find_index_stops self cum rand_num Hcum Hne) as (i & Hi & _ & Hlo & _).
    rewrite Hi. destruct Hlo as [-> | (c & Hc & Hcmp)]; [reflexivity|].
    rewrite (Hall _ _ Hc) in Hcmp. discriminate.
Qed.

Lemma find_index_none_below_witness :
  let cum := [dyadic 1 (-2); dyadic 3 (-2); fone] in
  let self := mkRandomGen (Some [1; 2; 3]) None (Some cum) in
  _find_index S754_nan self = (Returned 0, self).
Proof.
  intros cum self.
  apply (find_index_none_below self cum S754_nan).
  - reflexivity.
  - intros j c _. destruct c; reflexivity.
Defined.

(** * Further properties of the methods *)

(** Sampling reads the attributes and assigns none: whatever is drawn and
    whether or not the call raises, the state after [next_num] and after
    [_find_index] is the state before. *)
Theorem sampling_keeps_state {V : Type} (self : RandomGen V) (rand_num : float) :
  (next_num rand_num self).2 = self /\ (_find_index rand_num self).2 = self.
Proof.
  unfold next_num, _find_index, bind, getattr, lift.
  destruct (_random_nums self), (_cumulative_probabilities self); simpl;
    try destruct (bisect_loop _ _ _ _); auto.
Qed.

(** A sampler constructed on a single number returns that number for every
    draw, and the construction with omitted probabilities succeeds. *)
Theorem single_number_always_returned {V : Type} (v : V) :
  (exists self, new [v] None = Returned self)
  /\ forall (o : option (list float)) (self : RandomGen V) (rand_num : float),
      new [v] o = Returned self ->
      next_num rand_num self = (Returned v, self).
Proof.
  split.
  - exists (mkRandomGen (Some [v]) (Some [fone]) (Some [fone])). reflexivity.
  - intros o self rand_num Hnew.
    destruct (reachable_next_num Construct self rand_num
                (reach_new _ _ _ Hnew))
      as (nums & cum & i & Hnums & _ & _ & _ & Hv).
    destruct Hv as (v' & Hin & _ & Hnext); [left; discriminate|].
    apply new_returned in Hnew. destruct Hnew as (_ & ps & cum' & _ & _ & ->).
    simpl in Hnums. injection Hnums as <-.
    apply list_elem_of_singleton in Hin. subst v'. exact Hnext.
Qed.

(** The checks of [set_probabilities] run in a fixed order, each with its
    own message: a list of the wrong length is refused whatever it holds, a
    negative entry is refused before the sum is looked at, and a sum off
    [1.0] is refused last.  Nothing is assigned in any of these cases. *)
Theorem set_probabilities_error_messages
    {V : Type} (self : RandomGen V) (nums : list V) (ps : list float) :
  _random_nums self = Some nums ->
  ps <> [] ->
  (length ps <> length nums ->
   set_probabilities (Some ps) self =
     (Raised (ValueError
        "The lists random_nums and probabilities must contain the same number of elements."),
      self))
  /\ (length ps = length nums ->
      Exists (fun p => flt p fzero = true) ps ->
      set_probabilities (Some ps) self =
        (Raised (ValueError "All provided probabilities must be non-negative."),
         self))
  /\ (length ps = length nums ->
      Forall non_negative ps ->
      sum_deviates ps ->
      set_probabilities (Some ps) self =
        (Raised (ValueError "The sum of the probabilities must be approximately 1."),
         self)).
Proof.
  intros Hnums Hne.
  rewrite (set_probabilities_run _ _ _ Hnums).
  destruct ps as [|p ps]; [congruence|]. clear Hne.
  unfold chosen_probabilities, checked_probabilities.
  split; [|split].
  - intros Hlen.
    destruct (len nums =? len (p :: ps)) eqn:Heq; [|reflexivity].
    apply len_eq in Heq. congruence.
  - intros Hlen Hneg.
    rewrite (proj2 (len_eq nums (p :: ps))) by auto. simpl negb. cbv iota.
    destruct (existsb (fun p0 => flt p0 fzero) (p :: ps)) eqn:Hex; [reflexivity|].
    apply existsb_negative in Hex. rewrite Forall_forall in Hex.
    apply Exists_exists in Hneg. destruct Hneg as (q & Hin & Hq).
    specialize (Hex q Hin). unfold non_negative in Hex. congruence.
  - intros Hlen Hnn (total & Hsum & Hclose).
    rewrite (proj2 (len_eq nums (p :: ps))) by auto. simpl negb. cbv iota.
    rewrite (proj2 (existsb_negative (p :: ps)) Hnn).
    rewrite Hsum, Hclose. reflexivity.
Qed.

Lemma set_probabilities_error_messages_witness :
  let self := sampler_of_three in
  set_probabilities (Some [dyadic 1 (-1); dyadic (-1) (-1); fone]) self =
    (Raised (ValueError "All provided probabilities must be non-negative."), self)
  /\ set_probabilities (Some [dyadic (-1) (-1); fone]) self =
    (Raised (ValueError
       "The lists random_nums and probabilities must contain the same number of elements."),
     self).
Proof.
  intros self. split.
  - apply (set_probabilities_error_messages self [1; 2; 3]
             [dyadic 1 (-1); dyadic (-1) (-1); fone]);
      [reflexivity | discriminate | reflexivity |].
    apply Exists_cons_tl, Exists_cons_hd. reflexivity.
  - apply (set_probabilities_error_messages self [1; 2; 3]
             [dyadic (-1) (-1); fone]);
      [reflexivity | discriminate | discriminate].
Defined.

(** When the list passes the first two checks and [fsum] overflows, the
    [OverflowError] of [fsum] is what [set_probabilities] and the constructor
    raise, not [ValueError]; nothing is assigned. *)
Theorem fsum_overflow_propagates
    {V : Type} (self : RandomGen V) (nums : list V) (ps : list float) (e : exn) :
  _random_nums self = Some nums ->
  nums <> [] ->
  length ps = length nums ->
  Forall non_negative ps ->
  fsum ps = Raised e ->
  set_probabilities (Some ps) self = (Raised OverflowError, self)
  /\ new nums (Some ps) = Raised OverflowError.
Proof.
  intros Hnums Hne Hlen Hnn Hsum.
  assert (He : e = OverflowError).
  { eapply fsum_raises; [|exact Hsum]. apply non_negative_not_neg_inf. exact Hnn. }
  subst e.
  assert (Hch : chosen_probabilities nums (Some ps) = Raised OverflowError).
  { destruct ps as [|p ps]; [destruct nums; [congruence | discriminate]|].
    unfold chosen_probabilities, checked_probabilities.
    rewrite (proj2 (len_eq nums (p :: ps))) by auto. simpl negb. cbv iota.
    rewrite (proj2 (existsb_negative (p :: ps)) Hnn).
    rewrite Hsum. reflexivity. }
  split.
  - rewrite (set_probabilities_run _ _ _ Hnums), Hch. reflexivity.
  - rewrite new_run, Hch. destruct nums; [congruence | reflexivity].
Qed.

Lemma fsum_overflow_propagates_witness :
  new [1; 2] (Some [dyadic 1 1023; dyadic 1 1023]) = Raised OverflowError.
Proof.
  apply (fsum_overflow_propagates (mkRandomGen (Some [1; 2]) None None) [1; 2]
           [dyadic 1 1023; dyadic 1 1023] OverflowError).
  - reflexivity.
  - discriminate.
  - reflexivity.
  - repeat constructor.
  - vm_compute. reflexivity.
Defined.

(** Calling the two setters in a row on any state is a construction: the
    state they leave is the one the constructor builds from the same
    arguments, whatever the sampler held before. *)
Theorem setters_compose_to_constructor
    {V : Type} (self s1 s2 : RandomGen V) (nums : list V)
    (o : option (list float)) :
  set_random_nums nums self = (Returned tt, s1) ->
  set_probabilities o s1 = (Returned tt, s2) ->
  new nums o = Returned s2.
Proof.
  intros H1 H2. rewrite set_random_nums_run in H1.
  destruct nums as [|v nums]; [discriminate|].
  injection H1 as <-.
  rewrite (set_probabilities_run _ (v :: nums)) in H2 by reflexivity.
  rewrite new_run.
  destruct (chosen_probabilities (v :: nums) o) as [ps|]; [|discriminate].
  destruct (cumulative ps) as [cum|]; [|discriminate].
  injection H2 as <-. reflexivity.
Qed.

Lemma setters_compose_to_constructor_witness :
  new [7] None = Returned (mkRandomGen (Some [7]) (Some [fone]) (Some [fone])).
Proof.
  apply (setters_compose_to_constructor sampler_of_three sampler_of_one _ [7] None);
    reflexivity.
Defined.

(** [set_probabilities] rebuilds both lists from the numbers and its
    argument alone: two states with the same numbers end in the same state,
    and a second call with the same argument changes nothing. *)
Theorem set_probabilities_forgets_history
    {V : Type} (self self' s : RandomGen V) (o : option (list float)) :
  _random_nums self = _random_nums self' ->
  set_probabilities o self = (Returned tt, s) ->
  set_probabilities o self' = (Returned tt, s)
  /\ set_probabilities o s = (Returned tt, s).
Proof.
  intros Hsame Hset.
  destruct (_random_nums self) as [nums|] eqn:Hnums.
  - destruct (set_probabilities_returned _ _ _ _ Hnums Hset)
      as (ps & cum & Hch & Hcum & ->).
    split.
    + rewrite (set_probabilities_run self' nums) by congruence.
      rewrite Hch, Hcum. reflexivity.
    + rewrite (set_probabilities_run _ nums) by reflexivity.
      rewrite Hch, Hcum. reflexivity.
  - rewrite (set_probabilities_unset _ _ Hnums) in Hset. discriminate.
Qed.

Lemma set_probabilities_forgets_history_witness :
  let s := mkRandomGen (Some [1; 2; 3]) (Some zero_probabilities)
                       (Some [dyadic 3 (-2); dyadic 3 (-2); fone]) in
  set_probabilities (Some zero_probabilities) s = (Returned tt, s).
Proof.
  intros s.
  apply (set_probabilities_forgets_history sampler_of_three sampler_of_three s
           (Some zero_probabilities)); reflexivity.
Defined.

(** The probabilities handed to the constructor are stored as they are,
    without normalisation, and the last cumulative value is their [fsum],
    which [isclose] takes for [1.0] (it need not be [1.0]). *)
Theorem provided_probabilities_stored
    {V : Type} (nums : list V) (ps : list float) (self : RandomGen V) :
  ps <> [] ->
  new nums (Some ps) = Returned self ->
  _probabilities self = Some ps
  /\ exists cum total,
      _cumulative_probabilities self = Some cum
      /\ last cum = Some total
      /\ fsum ps = Returned total
      /\ isclose total fone = true.
Proof.
  intros Hne Hnew. apply new_returned in Hnew.
  destruct Hnew as (_ & ps' & cum & Hch & Hcum & ->).
  destruct ps as [|p ps]; [congruence|]. clear Hne.
  unfold chosen_probabilities in Hch.
  apply checked_probabilities_returned in Hch.
  destruct Hch as (-> & _ & _ & total & Hsum & Hclose).
  simpl. split; [reflexivity|].
  destruct (cumulative_returned _ _ Hcum) as [Hlen Hall].
  destruct (Hall (length ps)) as (c & Hc & Hsumc); [simpl; lia|].
  rewrite take_ge in Hsumc by (simpl; lia).
  rewrite Hsum in Hsumc. injection Hsumc as <-.
  exists cum, total. split; [reflexivity|].
  split; [|auto]. rewrite last_lookup, Hlen. exact Hc.
Qed.

Lemma provided_probabilities_stored_witness :
  exists self,
    new [1; 2; 3] (Some zero_probabilities) = Returned self
    /\ _probabilities self = Some zero_probabilities.
Proof.
  exists (mkRandomGen (Some [1; 2; 3]) (Some zero_probabilities)
                      (Some [dyadic 3 (-2); dyadic 3 (-2); fone])).
  split; [reflexivity|].
  apply (provided_probabilities_stored [1; 2; 3] zero_probabilities);
    [discriminate | reflexivity].
Defined.

(** * The cost of the search *)

Lemma bisect_iterations_exit (cum : list float) (rand_num : float)
    (left_ right_ : Z) :
  right_ <= left_ -> bisect_iterations cum rand_num left_ right_ = 0%nat.
Proof.
  intros H. rewrite bisect_iterations_equation_1.
  destruct (Z_lt_dec left_ right_); [lia | reflexivity].
Qed.

Lemma bisect_iterations_iter (cum : list float) (rand_num : float)
    (left_ right_ : Z) :
  left_ < right_ ->
  bisect_iterations cum rand_num left_ right_ =
    let mid := left_ + (right_ - left_) / 2 in
    match getitem cum mid with
    | Raised e => 1%nat
    | Returned c =>
        S (if flt c rand_num
           then bisect_iterations cum rand_num (mid + 1) right_
           else bisect_iterations cum rand_num left_ mid)
    end.
Proof.
  intros H. rewrite bisect_iterations_equation_1.
  destruct (Z_lt_dec left_ right_); [reflexivity | lia].
Qed.

(** Every iteration halves the distance between [left] and [right]. *)
Lemma bisect_iterations_bound (cum : list float) (rand_num : float) (k : nat) :
  forall left_ right_,
    right_ - left_ < 2 ^ Z.of_nat k ->
    (bisect_iterations cum rand_num left_ right_ <= k)%nat.
Proof.
  induction k as [|k IH]; intros left_ right_ Hw.
  - rewrite bisect_iterations_exit; [lia|]. simpl in Hw. lia.
  - destruct (Z_lt_dec left_ right_) as [Hlt|Hge].
    + rewrite bisect_iterations_iter by assumption. cbv zeta.
      rewrite Nat2Z.inj_succ, Z.pow_succ_r in Hw by lia.
      pose proof (Z.div_mod (right_ - left_) 2 ltac:(lia)) as Hdm.
      pose proof (Z.mod_pos_bound (right_ - left_) 2 ltac:(lia)) as Hmod.
      destruct (getitem cum _) as [c|e]; [|lia].
      apply le_n_S. destruct (flt c rand_num); apply IH; lia.
    + rewrite bisect_iterations_exit by lia. lia.
Qed.

(** The body of the loop of [_find_index] runs at most [ceil(log2(n))] times
    on a list of [n] cumulative values, whatever they and the draw are. *)
Theorem find_index_logarithmic (cum : list float) (rand_num : float) :
  (bisect_iterations cum rand_num 0 (len cum - 1)
   <= Z.to_nat (Z.log2_up (len cum)))%nat.
Proof.
  apply bisect_iterations_bound.
  rewrite Z2Nat.id by apply Z.log2_up_nonneg.
  destruct (Z_le_gt_dec (len cum) 1) as [Hsmall|Hbig].
  - assert (0 < 2 ^ Z.log2_up (len cum)).
    { apply Z.pow_pos_nonneg; [lia | apply Z.log2_up_nonneg]. }
    lia.
  - pose proof (Z.log2_up_spec (len cum) ltac:(lia)). lia.
Qed.

(** * The sampling helper of the tests *)

Lemma zero_counts_lookup (nums : list Z) (v : Z) :
  zero_counts nums !! v = if decide (v ∈ nums) then Some 0%nat else None.
Proof.
  unfold zero_counts.
  assert (H : forall (m : gmap Z nat),
    foldl (fun results num => <[num := 0%nat]> results) m nums !! v
    = if decide (v ∈ nums) then Some 0%nat else m !! v).
  { induction nums as [|n nums IH]; intros m; simpl.
    - destruct (decide (v ∈ [])) as [Hin|_]; [|reflexivity].
      inversion Hin.
    - rewrite IH.
      destruct (decide (v ∈ nums)) as [Hin|Hnin];
        destruct (decide (v ∈ n :: nums)) as [Hin'|Hnin']; try reflexivity.
      + exfalso. apply Hnin'. right. exact Hin.
      + apply elem_of_cons in Hin'. destruct Hin' as [->|?]; [|contradiction].
        apply lookup_insert_eq.
      + apply lookup_insert_ne. intros ->. apply Hnin'. left. }
  rewrite H. destruct (decide (v ∈ nums)); [reflexivity | apply lookup_empty].
Qed.

Lemma total_count_comm (j1 j2 : Z) (z1 z2 y : nat) :
  (z1 + (z2 + y) = z2 + (z1 + y))%nat.
Proof. lia. Qed.

Lemma total_count_insert_new (results : gmap Z nat) (key : Z) (count : nat) :
  results !! key = None ->
  total_count (<[key := count]> results) = (count + total_count results)%nat.
Proof.
  intros Hnone. unfold total_count.
  apply (map_fold_insert_L (fun _ c acc => (c + acc)%nat)); [|exact Hnone].
  intros. lia.
Qed.

Lemma total_count_increment (results : gmap Z nat) (key : Z) (count : nat) :
  results !! key = Some count ->
  total_count (<[key := S count]> results) = S (total_count results).
Proof.
  intros Hsome.
  rewrite <- (insert_delete_eq results).
  rewrite total_count_insert_new by apply lookup_delete_eq.
  unfold total_count at 2.
  rewrite (map_fold_delete_L (fun _ c acc => (c + acc)%nat) 0%nat key count results);
    [fold (total_count (delete key results)); lia | | exact Hsome].
  intros. lia.
Qed.

Lemma total_count_zero (results : gmap Z nat) :
  (forall key count, results !! key = Some count -> count = 0%nat) ->
  total_count results = 0%nat.
Proof.
  induction results as [|key count results Hnone IH] using map_ind; intros Hall.
  - reflexivity.
  - rewrite total_count_insert_new by exact Hnone.
    rewrite (Hall key count) by apply lookup_insert_eq.
    apply IH. intros k c Hk. apply (Hall k c).
    rewrite lookup_insert_ne; [exact Hk|]. intros ->. congruence.
Qed.

Lemma hits_cons (gen : RandomGen Z) (key : Z) (rand_num : float)
    (draws : list float) (v : Z) :
  (next_num rand_num gen).1 = Returned v ->
  hits gen key (rand_num :: draws)
  = ((if decide (v = key) then 1 else 0) + hits gen key draws)%nat.
Proof.
  intros Hv. unfold hits. simpl. rewrite Hv.
  destruct (decide (v = key)) as [->|Hne].
  - rewrite Z.eqb_refl. reflexivity.
  - destruct (Z.eqb_spec v key); [contradiction | reflexivity].
Qed.

(** The loop on a sampler whose [next_num] always returns one of [nums],
    started with a count for each of them. *)
Lemma sample_loop_counts (gen : RandomGen Z) (nums : list Z) (draws : list float) :
  (forall rand_num, exists v, v ∈ nums /\ next_num rand_num gen = (Returned v, gen)) ->
  forall results : gmap Z nat,
    (forall v, v ∈ nums -> is_Some (results !! v)) ->
    exists results',
      sample_loop gen draws results = (Sampled results', gen)
      /\ (forall v, results' !! v
                    = (fun count => (count + hits gen v draws)%nat) <$> results !! v)
      /\ total_count results' = (total_count results + length draws)%nat.
Proof.
  intros Hnext. induction draws as [|rand_num draws IH]; intros results Hdom.
  - exists results. split; [reflexivity|]. split.
    + intros v. unfold hits. simpl. destruct (results !! v); simpl; f_equal; lia.
    + simpl. lia.
  - destruct (Hnext rand_num) as (key & Hkey & Hrun).
    simpl sample_loop. rewrite Hrun.
    destruct (Hdom key Hkey) as [count Hcount]. rewrite Hcount.
    destruct (IH (<[key := S count]> results)) as (results' & Hloop & Hlook & Htot).
    { intros v Hv. destruct (decide (v = key)) as [->|Hne].
      - rewrite lookup_insert_eq. eauto.
      - rewrite lookup_insert_ne by congruence. auto. }
    exists results'. split; [exact Hloop|]. split.
    + intros v. rewrite Hlook.
      rewrite (hits_cons gen v rand_num draws key) by (rewrite Hrun; reflexivity).
      destruct (decide (key = v)) as [->|Hne].
      * rewrite lookup_insert_eq, Hcount. simpl. f_equal. lia.
      * rewrite lookup_insert_ne by congruence.
        destruct (results !! v); simpl; f_equal.
    + rewrite Htot, (total_count_increment _ _ _ Hcount). simpl. lia.
Qed.

(** When [next_num] returns one of the numbers for every draw,
    [generate_sample] returns the counts of what it returned. *)
Lemma generate_sample_run (gen : RandomGen Z) (nums : list Z) (draws : list float) :
  _random_nums gen = Some nums ->
  (forall rand_num,
      exists v, v ∈ nums /\ next_num rand_num gen = (Returned v, gen)) ->
  exists results,
    generate_sample gen draws = (Sampled results, gen)
    /\ (forall v, results !! v
                  = if decide (v ∈ nums) then Some (hits gen v draws) else None)
    /\ total_count results = length draws.
Proof.
  intros Hnums Hnext.
  destruct (sample_loop_counts gen nums draws Hnext (zero_counts nums))
    as (results & Hloop & Hlook & Htot).
  { intros v Hv. rewrite zero_counts_lookup, decide_True by exact Hv. eauto. }
  exists results.
  split; [unfold generate_sample; rewrite Hnums; exact Hloop|]. split.
  - intros v. rewrite Hlook, zero_counts_lookup.
    destruct (decide (v ∈ nums)); reflexivity.
  - rewrite Htot, total_count_zero; [reflexivity|].
    intros key count. rewrite zero_counts_lookup.
    destruct (decide (key ∈ nums)); congruence.
Qed.

Lemma reachable_next_num_total
    (op : operation) (gen : RandomGen Z) :
  reachable op gen ->
  op <> SetValues ->
  exists nums,
    _random_nums gen = Some nums
    /\ forall rand_num,
        exists v, v ∈ nums /\ next_num rand_num gen = (Returned v, gen).
Proof.
  intros Hreach Hop.
  destruct (reachable_next_num op gen fzero Hreach)
    as (nums & _ & _ & Hnums & _).
  exists nums. split; [exact Hnums|].
  intros rand_num.
  destruct (reachable_next_num op gen rand_num Hreach)
    as (nums' & cum & i & Hnums' & _ & _ & _ & Hv).
  destruct Hv as (v & Hin & _ & Hrun); [left; exact Hop|].
  rewrite Hnums in Hnums'. injection Hnums' as <-. eauto.
Qed.

(** On a sampler left by a construction or by [set_probabilities],
    [generate_sample] raises nothing, whatever is drawn: it returns a count
    for each of the numbers and for nothing else, the count of a number is
    how many draws made [next_num] return it, and the counts add up to the
    sample size. *)
Theorem generate_sample_counts
    (op : operation) (gen : RandomGen Z) (draws : list float) :
  reachable op gen ->
  op <> SetValues ->
  exists nums results,
    _random_nums gen = Some nums
    /\ generate_sample gen draws = (Sampled results, gen)
    /\ (forall v, results !! v
                  = if decide (v ∈ nums) then Some (hits gen v draws) else None)
    /\ total_count results = length draws.
Proof.
  intros Hreach Hop.
  destruct (reachable_next_num_total op gen Hreach Hop) as (nums & Hnums & Hnext).
  destruct (generate_sample_run gen nums draws Hnums Hnext) as (results & H).
  exists nums, results. split; [exact Hnums | exact H].
Qed.

Lemma generate_sample_counts_witness :
  exists results,
    generate_sample sampler_of_three [dyadic 1 (-1); dyadic 1 (-3)]
    = (Sampled results, sampler_of_three)
    /\ total_count results = 2%nat.
Proof.
  pose proof sampler_of_three_new as Hnew.
  destruct (generate_sample_counts Construct sampler_of_three
              [dyadic 1 (-1); dyadic 1 (-3)] (reach_new _ _ _ Hnew))
    as (nums & results & _ & Hrun & _ & Htot); [discriminate|].
  exists results. split; assumption.
Defined.

(** The assertion of [test_zero_probabilities] holds for every sample: on
    [RandomGen([1, 2, 3], [0.75, 0, 0.25])] the count of the number [2] is
    zero, whatever the draws are. *)
Theorem zero_probability_never_counted (gen : RandomGen Z) (draws : list float) :
  new [1; 2; 3] (Some zero_probabilities) = Returned gen ->
  exists results,
    generate_sample gen draws = (Sampled results, gen)
    /\ results !! 2 = Some 0%nat.
Proof.
  intros Hnew.
  destruct (reachable_next_num_total Construct gen (reach_new _ _ _ Hnew))
    as (nums & Hnums & Hnext); [discriminate|].
  destruct (generate_sample_run gen nums draws Hnums Hnext)
    as (results & Hrun & Hlook & _).
  exists results. split; [exact Hrun|].
  apply new_returned in Hnew. destruct Hnew as (_ & ps & cum & Hch & Hcum & ->).
  simpl in Hnums. injection Hnums as <-.
  rewrite Hlook, decide_True by (right; left).
  f_equal.
  assert (Hps : ps = zero_probabilities).
  { unfold chosen_probabilities, zero_probabilities in Hch.
    apply checked_probabilities_returned in Hch. tauto. }
  subst ps. clear - Hcum.
  unfold hits. induction draws as [|rand_num draws IH]; [reflexivity|].
  simpl List.filter.
  destruct (zero_probabilities_first_or_third
              (mkRandomGen (Some [1; 2; 3]) (Some zero_probabilities) (Some cum))
              cum 1 2 3 rand_num eq_refl eq_refl Hcum) as [H | H];
    rewrite H; simpl; exact IH.
Qed.

Lemma zero_probability_never_counted_witness :
  exists results,
    generate_sample
      (mkRandomGen (Some [1; 2; 3]) (Some zero_probabilities)
                   (Some [dyadic 3 (-2); dyadic 3 (-2); fone]))
      [dyadic 3 (-2); dyadic 7 (-3); fzero]
    = (Sampled results,
       mkRandomGen (Some [1; 2; 3]) (Some zero_probabilities)
                   (Some [dyadic 3 (-2); dyadic 3 (-2); fone]))
    /\ results !! 2 = Some 0%nat.
Proof.
  apply zero_probability_never_counted. reflexivity.
Defined.

Lemma single_number_always_returned_witness :
  next_num S754_nan (mkRandomGen (Some [5]) (Some [fone]) (Some [fone]))
  = (Returned 5, mkRandomGen (Some [5]) (Some [fone]) (Some [fone])).
Proof.
  apply (proj2 (single_number_always_returned 5) None). reflexivity.
Defined.
